(** * The directory layer and the system-call boundary of the Pintos
      file system (filesys/directory.c, userprog/syscall.c)

    The development embeds the two C files as Rocq functions over an
    explicit file-system state and proves (or refutes) the properties
    the specification states about them.

    Conventions.
    - A sector number ([block_sector_t], a 32-bit unsigned) is an [N];
      no arithmetic is ever done on sectors.
    - The byte stream of a directory inode is only ever read and written
      in whole [struct dir_entry] records, at offsets that are multiples
      of [sizeof (struct dir_entry)].  The table is therefore a list of
      records and every offset ([ofs], [dir->pos]) is counted in records:
      [ofs += sizeof e] is [S ofs].
    - [int] and [unsigned] values of the system-call layer are [Z] with
      the 32-bit wrap-around of [unsigned] arithmetic and of conversions
      written out ([to_int], [to_unsigned]); an overflow of [int]
      arithmetic is undefined.
    - Memory allocation can fail: [calloc] is a collaborator ([Malloc]).
    - The one global lock only matters between threads; the model is the
      sequential behaviour of one system call. *)

From stdpp Require Import base option list gmap strings.
From Stdlib Require Import ZArith Lia.

Local Open Scope string_scope.
Local Open Scope list_scope.
Local Open Scope nat_scope.

(** ** Data *)

Abbreviation block_sector_t := N (only parsing).

(** [struct dir_entry]. *)
Record dir_entry := mk_dir_entry {
  inode_sector : block_sector_t;   (* sector number of header *)
  entry_name : string;             (* null terminated file name *)
  in_use : bool                    (* in use or free? *)
}.

(** Modelled from the spec: the inode of filesys/inode.c, which is not
    part of the sources.  The spec gives it an is-directory flag, a
    parent-directory identifier and an open count; [removed] is the
    pending unlink of [inode_remove]; [data] is the byte stream, seen as
    the records the directory layer stores in it. *)
Record inode := mk_inode {
  is_dir : bool;
  parent : block_sector_t;
  open_cnt : nat;
  removed : bool;
  data : list dir_entry
}.

(** The disk together with the table of open inodes: one inode per
    sector. *)
Abbreviation fs := (gmap N inode) (only parsing).

(** [struct dir]: the inode (named by its sector) and the cursor. *)
Record dir := mk_dir {
  d_inode : block_sector_t;        (* backing store *)
  pos : nat                        (* current position *)
}.

(** [ROOT_DIR_SECTOR] of filesys/filesys.h; [dir_remove] writes it as
    the literal 1. *)
Definition ROOT_DIR_SECTOR : block_sector_t := 1%N.

(** A zero-filled record, as [inode_create] leaves them. *)
Definition blank_entry : dir_entry := mk_dir_entry 0%N "" false.

(** What the storage side decides on its own, and the one constant of
    filesys/directory.h.  [write_full st s ofs] tells whether a write of
    one record at offset [ofs] of inode [s] transfers the whole record
    (a short write transfers nothing of it: single-record writes are
    atomic).  [parent_link_ok st p c] tells whether [inode_add_parent]
    accepts linking [c] under [p]. *)
Class Storage := {
  NAME_MAX : nat;
  write_full : gmap N inode → block_sector_t → nat → bool;
  parent_link_ok : gmap N inode → block_sector_t → block_sector_t → bool
}.

(** A concrete storage for the examples: 14-byte names, no failures. *)
Definition plain_storage : Storage :=
  {| NAME_MAX := 14;
     write_full := λ _ _ _, true;
     parent_link_ok := λ _ _ _, true |}.

(** What threads/malloc.c decides: [calloc_ok st] tells whether the
    [calloc] of [dir_open], called in the state [st], returns a block. *)
Class Malloc := {
  calloc_ok : gmap N inode → bool
}.

(** A heap that never runs out, for the examples. *)
Definition plain_malloc : Malloc := {| calloc_ok := λ _, true |}.

(** Results of code that can leave the well-defined part of C: a failed
    [ASSERT], a null dereference, the read of an uninitialised local. *)
Inductive outcome (A : Type) :=
  | Ok (a : A)
  | Exit (status : Z)
  | Undef.
Arguments Ok {A} a.
Arguments Exit {A} status.
Arguments Undef {A}.

(** ** The inode collaborator *)

Definition set_open_state (n : nat) (r : bool) (i : inode) : inode :=
  mk_inode (is_dir i) (parent i) n r (data i).
Definition set_removed (i : inode) : inode :=
  mk_inode (is_dir i) (parent i) (open_cnt i) true (data i).
Definition set_parent (p : block_sector_t) (i : inode) : inode :=
  mk_inode (is_dir i) p (open_cnt i) (removed i) (data i).
Definition set_data (d : list dir_entry) (i : inode) : inode :=
  mk_inode (is_dir i) (parent i) (open_cnt i) (removed i) d.

(** Modelled from the spec: [inode_open] ("open with reference
    counting").  An inode nobody holds open has no in-memory state, so
    opening it starts at one reference with no unlink pending; an absent
    sector gives the null pointer. *)
Definition inode_open (st : fs) (sector : block_sector_t)
  : gmap N inode * option block_sector_t :=
  match st !! sector with
  | None => (st, None)
  | Some i =>
      let i' := match open_cnt i with
                | O => set_open_state 1 false i
                | S n => set_open_state (S (S n)) (removed i) i
                end in
      (<[sector := i']> st, Some sector)
  end.

(** Modelled from the spec: [inode_reopen]. *)
Definition inode_reopen (st : fs) (ino : block_sector_t)
  : gmap N inode * option block_sector_t :=
  match st !! ino with
  | None => (st, None)
  | Some i => (<[ino := set_open_state (S (open_cnt i)) (removed i) i]> st, Some ino)
  end.

(** Modelled from the spec: [inode_close] ("deletion-on-last-close").
    Closing the null pointer does nothing. *)
Definition inode_close (st : fs) (ino : option block_sector_t) : gmap N inode :=
  match ino with
  | None => st
  | Some s =>
      match st !! s with
      | None => st
      | Some i =>
          let n := Nat.pred (open_cnt i) in
          if Nat.eqb n 0 && removed i then delete s st
          else <[s := set_open_state n (removed i) i]> st
      end
  end.

(** Modelled from the spec: [inode_remove] ("unlink; physical delete
    deferred to last close"). *)
Definition inode_remove (st : fs) (ino : block_sector_t) : gmap N inode :=
  alter set_removed ino st.

Definition inode_get_inumber (ino : block_sector_t) : block_sector_t := ino.

Definition inode_is_dir (st : fs) (ino : block_sector_t) : bool :=
  match st !! ino with Some i => is_dir i | None => false end.

Definition inode_get_open_cnt (st : fs) (ino : block_sector_t) : nat :=
  match st !! ino with Some i => open_cnt i | None => 0 end.

Definition inode_get_parent (st : fs) (ino : block_sector_t) : block_sector_t :=
  match st !! ino with Some i => parent i | None => 0%N end.

(** The records of an inode; nothing for a sector that holds none. *)
Definition table (st : fs) (ino : block_sector_t) : list dir_entry :=
  match st !! ino with Some i => data i | None => [] end.

(** [inode_read_at (inode, &e, sizeof e, ofs) == sizeof e] gives the
    record, a short read gives [None]. *)
Definition inode_read_at (st : fs) (ino : block_sector_t) (ofs : nat)
  : option dir_entry :=
  table st ino !! ofs.

(** The stream after a full write of one record at [ofs]: in place
    inside the stream, growing it (zero-filled up to [ofs]) otherwise. *)
Definition write_slot (tbl : list dir_entry) (ofs : nat) (e : dir_entry)
  : list dir_entry :=
  if decide (ofs < length tbl) then <[ofs := e]> tbl
  else tbl ++ replicate (ofs - length tbl) blank_entry ++ [e].

(** [inode_write_at (inode, &e, sizeof e, ofs) == sizeof e]. *)
Definition inode_write_at `{Storage} (st : fs) (ino : block_sector_t)
    (e : dir_entry) (ofs : nat) : gmap N inode * bool :=
  match st !! ino with
  | None => (st, false)
  | Some i =>
      if write_full st ino ofs
      then (<[ino := set_data (write_slot (data i) ofs e) i]> st, true)
      else (st, false)
  end.

(** Modelled from the spec: [inode_add_parent (parent, child)]
    ("set_parent_link(child_id, parent_id) -> bool"). *)
Definition inode_add_parent `{Storage} (st : fs)
    (parent_sector child_sector : block_sector_t) : gmap N inode * bool :=
  if parent_link_ok st parent_sector child_sector
  then (alter (set_parent parent_sector) child_sector st, true)
  else (st, false).

(** Modelled from the spec: [inode_create (sector, length, is_dir)]
    writes a fresh inode of [cnt] zeroed records. *)
Definition inode_create (st : fs) (sector : block_sector_t) (cnt : nat)
    (isdir : bool) : gmap N inode * bool :=
  (<[sector := mk_inode isdir ROOT_DIR_SECTOR 0 false (replicate cnt blank_entry)]> st,
   true).

(** [strlcpy (dst, src, size)]: at most [size - 1] characters. *)
Definition strlcpy (src : string) (size : nat) : string :=
  String.substring 0 (size - 1) src.

(** ** filesys/directory.c *)

(** [dir_open]: a handle at position 0 when there is an inode and
    [calloc] gives the memory; otherwise the inode is closed and the
    null pointer returned. *)
Definition dir_open `{Malloc} (st : fs) (ino : option block_sector_t)
  : gmap N inode * option dir :=
  match ino with
  | Some i =>
      if calloc_ok st then (st, Some (mk_dir i 0))
      else (inode_close st (Some i), None)
  | None => (inode_close st None, None)
  end.

Definition dir_open_root `{Malloc} (st : fs) : gmap N inode * option dir :=
  let '(st1, ino) := inode_open st ROOT_DIR_SECTOR in dir_open st1 ino.

Definition dir_reopen `{Malloc} (st : fs) (d : dir) : gmap N inode * option dir :=
  let '(st1, ino) := inode_reopen st (d_inode d) in dir_open st1 ino.

Definition dir_close (st : fs) (d : option dir) : gmap N inode :=
  match d with
  | Some d => inode_close st (Some (d_inode d))
  | None => st
  end.

Definition dir_get_inode (d : dir) : block_sector_t := d_inode d.

(** The loop of [lookup]: records are read at [ofs], [ofs + 1], ... up
    to the first short read, that is, along the table. *)
Fixpoint lookup_from (tbl : list dir_entry) (name : string) (ofs : nat)
  : option (dir_entry * nat) :=
  match tbl with
  | [] => None
  | e :: rest =>
      if in_use e && bool_decide (name = entry_name e)
      then Some (e, ofs)
      else lookup_from rest name (S ofs)
  end.

Definition lookup (st : fs) (d : dir) (name : string)
  : option (dir_entry * nat) :=
  lookup_from (table st (d_inode d)) name 0.

Definition dir_lookup (st : fs) (d : dir) (name : string)
  : gmap N inode * option block_sector_t :=
  match lookup st d name with
  | Some (e, _) => inode_open st (inode_sector e)
  | None => (st, None)
  end.

(** The free-slot loop of [dir_add]: the offset of the first record
    that is not in use, the end of the stream when there is none. *)
Fixpoint free_slot_from (tbl : list dir_entry) (ofs : nat) : nat :=
  match tbl with
  | [] => ofs
  | e :: rest => if in_use e then free_slot_from rest (S ofs) else ofs
  end.

Definition dir_add `{Storage} (st : fs) (d : dir) (name : string)
    (sector : block_sector_t) : gmap N inode * bool :=
  (* Check NAME for validity. *)
  if bool_decide (name = "") || bool_decide (NAME_MAX < String.length name)
  then (st, false)
  else
    (* Check that NAME is not in use. *)
    match lookup st d name with
    | Some _ => (st, false)
    | None =>
        let '(st1, linked) :=
          inode_add_parent st (inode_get_inumber (dir_get_inode d)) sector in
        if negb linked then (st1, false)
        else
          let ofs := free_slot_from (table st1 (d_inode d)) 0 in
          (* Write slot. *)
          let e := mk_dir_entry sector (strlcpy name (NAME_MAX + 1)) true in
          inode_write_at st1 (d_inode d) e ofs
    end.

(** The loop of [dir_is_empty]. *)
Fixpoint all_free (tbl : list dir_entry) : bool :=
  match tbl with
  | [] => true
  | e :: rest => if in_use e then false else all_free rest
  end.

Definition dir_is_empty (st : fs) (ino : block_sector_t) : bool :=
  all_free (table st ino).

Definition erase (e : dir_entry) : dir_entry :=
  mk_dir_entry (inode_sector e) (entry_name e) false.

Definition dir_remove `{Storage} (st : fs) (d : dir) (name : string)
  : gmap N inode * bool :=
  (* Find directory entry. *)
  match lookup st d name with
  | None => (inode_close st None, false)
  | Some (e, ofs) =>
      (* Open inode. *)
      let '(st1, opened) := inode_open st (inode_sector e) in
      match opened with
      | None => (inode_close st1 None, false)
      | Some ino =>
          if inode_is_dir st1 ino && bool_decide (1 < inode_get_open_cnt st1 ino)
          then (inode_close st1 (Some ino), false)
          else if inode_is_dir st1 ino && bool_decide (inode_get_inumber ino = 1%N)
          then (inode_close st1 (Some ino), false)
          else if inode_is_dir st1 ino && negb (dir_is_empty st1 ino)
          then (inode_close st1 (Some ino), false)
          else
            (* Erase directory entry. *)
            let '(st2, full) := inode_write_at st1 (d_inode d) (erase e) ofs in
            if negb full then (inode_close st2 (Some ino), false)
            else
              (* Remove inode. *)
              let st3 := inode_remove st2 ino in
              (inode_close st3 (Some ino), true)
      end
  end.

(** The loop of [dir_readdir], from the cursor on: the new cursor and
    the name stored, if any. *)
Fixpoint readdir_from `{Storage} (tbl : list dir_entry) (p : nat)
  : nat * option string :=
  match tbl with
  | [] => (p, None)
  | e :: rest =>
      if in_use e then (S p, Some (strlcpy (entry_name e) (NAME_MAX + 1)))
      else readdir_from rest (S p)
  end.

Definition dir_readdir `{Storage} (st : fs) (d : dir) : dir * option string :=
  let '(p, r) := readdir_from (drop (pos d) (table st (d_inode d))) (pos d) in
  (mk_dir (d_inode d) p, r).

Definition dir_is_root (d : option dir) : bool :=
  match d with
  | None => false
  | Some d => bool_decide (inode_get_inumber (dir_get_inode d) = ROOT_DIR_SECTOR)
  end.

Definition dir_get_parent (st : fs) (d : dir)
  : gmap N inode * option block_sector_t :=
  inode_open st (inode_get_parent st (dir_get_inode d)).

(** ** Path resolution (filesys/directory.c) *)

Definition ASCII_SLASH : Ascii.ascii := Ascii.ascii_of_nat 47.

(** The successive results of [strtok_r (path_string, "/", &save_ptr)]:
    the maximal non-empty pieces free of the separator, in order.
    [cur] is the piece being read. *)
Fixpoint tokens_from (cur : string) (s : string) : list string :=
  match s with
  | EmptyString => if bool_decide (cur = "") then [] else [cur]
  | String c s' =>
      if bool_decide (c = ASCII_SLASH)
      then (if bool_decide (cur = "") then tokens_from "" s'
            else cur :: tokens_from "" s')
      else tokens_from (cur +:+ String c "") s'
  end.

Definition strtok_all (path : string) : list string := tokens_from "" path.

(** The start of [get_containing_dir]: the root for an absolute path
    or a thread without working directory, a fresh handle on the
    working directory otherwise. *)
Definition starting_dir `{Malloc} (st : fs) (cwd : option dir) (path : string)
  : gmap N inode * option dir :=
  match path, cwd with
  | String c _, Some wd =>
      if bool_decide (c = ASCII_SLASH) then dir_open_root st
      else dir_reopen st wd
  | EmptyString, Some wd => dir_reopen st wd
  | _, None => dir_open_root st
  end.

(** The [while (next_token)] loop: [token] is the component at hand,
    [rest] what [strtok_r] still has to give. *)
Fixpoint walk `{Malloc} (st : fs) (d : option dir) (token : string)
    (rest : list string)
  : gmap N inode * outcome (option dir) :=
  match rest with
  | [] => (st, Ok d)
  | next_token :: rest' =>
      if bool_decide (token = ".") then walk st d next_token rest'
      else
        match d with
        | None => (st, Undef)      (* [dir] is null and dereferenced *)
        | Some dr =>
            let '(st1, found) :=
              if bool_decide (token = "..") then dir_get_parent st dr
              else dir_lookup st dr token in
            match found with
            | None => (st1, Ok None)
            | Some ino =>
                if inode_is_dir st1 ino
                then
                  let st2 := dir_close st1 (Some dr) in
                  let '(st3, d') := dir_open st2 (Some ino) in
                  walk st3 d' next_token rest'
                else walk (inode_close st1 (Some ino)) (Some dr) next_token rest'
            end
        end
  end.

(** [get_containing_dir].  With no component at all, [next_token] is
    read without ever having been assigned. *)
Definition get_containing_dir `{Malloc} (st : fs) (cwd : option dir)
    (path : string)
  : gmap N inode * outcome (option dir) :=
  let '(st0, d) := starting_dir st cwd path in
  match strtok_all path with
  | [] => (st0, Undef)
  | token :: rest => walk st0 d token rest
  end.

(** The loop of [get_file_name]: the last component. *)
Fixpoint last_token (token : string) (rest : list string) : string :=
  match rest with
  | [] => token
  | next_token :: rest' => last_token next_token rest'
  end.

(** [get_file_name].  With no component, [strlen (token)] is applied to
    the null pointer. *)
Definition get_file_name (path : string) : outcome string :=
  match strtok_all path with
  | [] => Undef
  | token :: rest => Ok (last_token token rest)
  end.

(** ** The table operations as a transition system *)

Inductive table_op :=
  | OpAdd (d : dir) (name : string) (sector : block_sector_t)
  | OpRemove (d : dir) (name : string).

Definition run_op `{Storage} (st : fs) (o : table_op) : gmap N inode * bool :=
  match o with
  | OpAdd d name sector => dir_add st d name sector
  | OpRemove d name => dir_remove st d name
  end.

Fixpoint run_ops `{Storage} (st : fs) (ops : list table_op) : gmap N inode :=
  match ops with
  | [] => st
  | o :: ops' => run_ops (run_op st o).1 ops'
  end.

(** [o], run in [st], is a [dir_remove] of [name] in the directory
    inode [s] that succeeds. *)
Definition removes `{Storage} (s : block_sector_t) (name : string) (st : fs)
    (o : table_op) : Prop :=
  match o with
  | OpRemove d n => d_inode d = s ∧ n = name ∧ (dir_remove st d n).2 = true
  | OpAdd _ _ _ => False
  end.

(** No step of the run [ops] from [st] removes [name] from [s]. *)
Fixpoint keeps `{Storage} (s : block_sector_t) (name : string) (st : fs)
    (ops : list table_op) : Prop :=
  match ops with
  | [] => True
  | o :: ops' => ¬ removes s name st o ∧ keeps s name (run_op st o).1 ops'
  end.

(** No record of any table is in use: a freshly formatted disk. *)
Definition fresh (st : fs) : Prop :=
  ∀ s i, st !! s = Some i → Forall (λ e, in_use e = false) (data i).

(** The states the directory layer can be in: a fresh disk, then any
    creation of an inode ([inode_create], for a directory or a plain
    file), [dir_add] and [dir_remove]. *)
Inductive reachable `{Storage} : gmap N inode → Prop :=
  | reachable_fresh st : fresh st → reachable st
  | reachable_create st sector cnt isdir :
      reachable st → reachable (inode_create st sector cnt isdir).1
  | reachable_op st o : reachable st → reachable (run_op st o).1.

(** The names of the records in use. *)
Definition names_in_use (tbl : list dir_entry) : list string :=
  entry_name <$> filter (λ e, in_use e = true) tbl.

(** At most one record in use per name. *)
Definition unique_names (tbl : list dir_entry) : Prop :=
  NoDup (names_in_use tbl).

(** The root sector, when it holds an inode, holds a directory. *)
Definition root_is_directory (st : fs) : Prop :=
  ∀ i, st !! ROOT_DIR_SECTOR = Some i → is_dir i = true.

(** ** userprog/syscall.c *)

(** The value of a 32-bit [unsigned], and of a 32-bit [int]. *)
Definition to_unsigned (z : Z) : Z := (z mod 2 ^ 32)%Z.
Definition to_int (z : Z) : Z := ((z + 2 ^ 31) mod 2 ^ 32 - 2 ^ 31)%Z.

Definition INT_MAX : Z := (2 ^ 31 - 1)%Z.

(** [struct file] of filesys/file.c. *)
Record file := mk_file {
  f_inode : block_sector_t;
  f_pos : Z
}.

(** [struct file_elem] of threads/thread.h: a descriptor, the flag and
    the two handle fields, of which [isdir] tells the one in use. *)
Record file_elem := mk_file_elem {
  fe_fd : Z;
  fe_isdir : bool;
  fe_dir : dir;
  fe_file : file
}.

(** What reaches the console: the transfers of [putbuf], and the line
    [exit] prints. *)
Inductive console_event :=
  | Putbuf (bytes : list Byte.byte)
  | ExitLine (name : string) (status : Z).

(** The running thread and what it can touch: the file system, its
    descriptor list, the console and its user memory (a byte per mapped
    address). *)
Record world := mk_world {
  w_fs : gmap N inode;
  t_name : string;
  t_files : list file_elem;
  t_exit_status : Z;
  console : list console_event;
  u_mem : Z → option Byte.byte
}.

(** The numbers of lib/syscall-nr.h the handler has a case for. *)
Inductive syscall_nr :=
  | SYS_HALT | SYS_EXIT | SYS_EXEC | SYS_WAIT | SYS_CREATE | SYS_REMOVE
  | SYS_OPEN | SYS_FILESIZE | SYS_READ | SYS_WRITE | SYS_SEEK | SYS_TELL
  | SYS_CLOSE | SYS_CHDIR | SYS_MKDIR | SYS_READDIR | SYS_ISDIR
  | SYS_INUMBER.

(** What the headers and the other kernel parts give: the top of user
    space, the numbering of the calls, [file_write], and the calls the
    model leaves to their own code. *)
Class Kernel := {
  PHYS_BASE : Z;
  syscall_nr_of : Z → option syscall_nr;
  file_write : file → Z → Z → world → world * Z;
  other_call : syscall_nr → Z → world → world * outcome Z
}.

(** A concrete kernel for the examples, numbered as the stock header. *)
Definition plain_kernel : Kernel :=
  {| PHYS_BASE := 3221225472;
     syscall_nr_of := λ n,
       if bool_decide (n = 9%Z) then Some SYS_WRITE
       else if bool_decide (n = 17%Z) then Some SYS_READDIR
       else if bool_decide (n = 18%Z) then Some SYS_ISDIR
       else if bool_decide (n = 19%Z) then Some SYS_INUMBER
       else None;
     file_write := λ _ _ length w, (w, to_int length);
     other_call := λ _ _ w, (w, Ok 0%Z) |}.

(** A system call: it runs in a world and returns, exits the process or
    leaves defined behaviour. *)
Definition sys (A : Type) : Type := world → world * outcome A.

Definition sys_ret {A} (a : A) : sys A := λ w, (w, Ok a).

Definition sys_bind {A B} (c : sys A) (k : A → sys B) : sys B :=
  λ w, match c w with
       | (w1, Ok a) => k a w1
       | (w1, Exit s) => (w1, Exit s)
       | (w1, Undef) => (w1, Undef)
       end.

Notation "'call' x <- c 'in' k" := (sys_bind c (λ x, k))
  (at level 10, x binder, c at level 100, k at level 200).
Notation "'run' c 'in' k" := (sys_bind c (λ _, k))
  (at level 10, c at level 100, k at level 200).

Definition set_files (l : list file_elem) (w : world) : world :=
  mk_world (w_fs w) (t_name w) l (t_exit_status w) (console w) (u_mem w).
Definition set_mem (m : Z → option Byte.byte) (w : world) : world :=
  mk_world (w_fs w) (t_name w) (t_files w) (t_exit_status w) (console w) m.
Definition emit (ev : console_event) (w : world) : world :=
  mk_world (w_fs w) (t_name w) (t_files w) (t_exit_status w)
           (console w ++ [ev]) (u_mem w).

(** [exit]: the status is kept, the line is printed, the thread ends. *)
Definition exit {A} (status : Z) : sys A :=
  λ w, (emit (ExitLine (t_name w) status)
          (mk_world (w_fs w) (t_name w) (t_files w) status (console w) (u_mem w)),
        Exit status).

Definition is_user_vaddr `{Kernel} (address : Z) : bool :=
  bool_decide (address < PHYS_BASE)%Z.

(** [pagedir_get_page (t->pagedir, address) != NULL]. *)
Definition mapped (w : world) (address : Z) : bool :=
  bool_decide (is_Some (u_mem w address)).

Definition check_valid_address `{Kernel} (address : Z) : sys unit :=
  λ w, if bool_decide (address = 0%Z) || negb (is_user_vaddr address)
          || negb (mapped w address)
       then exit (-1) w
       else (w, Ok ()).

(** The [k]-th [int] above the stack pointer: [esp + k]. *)
Definition slot (esp : Z) (k : Z) : Z := to_unsigned (esp + 4 * k).

(** The bytes of user memory from [address] on; nothing when one of
    them is not mapped. *)
Definition bytes_at (w : world) (address : Z) (n : Z) : option (list Byte.byte) :=
  mapM (λ k, u_mem w (to_unsigned (address + k))) (seqZ 0 n).

Definition byte_val (b : Byte.byte) : Z := Z.of_N (Byte.to_N b).

(** The 32-bit word at [address], little-endian. *)
Definition load_word (address : Z) : sys Z :=
  λ w, match bytes_at w address 4 with
       | Some [b0; b1; b2; b3] =>
           (w, Ok (byte_val b0 + 256 * byte_val b1 + 65536 * byte_val b2
                   + 16777216 * byte_val b3)%Z)
       | _ => (w, Undef)
       end.

(** [*(int * ) address] *)
Definition load_int (address : Z) : sys Z :=
  call v <- load_word address in sys_ret (to_int v).

(** [putbuf (buffer, n)] *)
Definition putbuf (buffer : Z) (n : Z) : sys unit :=
  λ w, match bytes_at w buffer n with
       | Some bs => (emit (Putbuf bs) w, Ok ())
       | None => (w, Undef)
       end.

(** A string and its terminator stored from [address] on. *)
Definition store_string (address : Z) (s : string) : sys unit :=
  λ w, let bs := Stdlib.Strings.String.list_byte_of_string s ++ [Byte.x00] in
       let n := Z.of_nat (length bs) in
       if forallb (λ k, mapped w (to_unsigned (address + k))) (seqZ 0 n)
       then (set_mem (λ a, match (if bool_decide (address ≤ a)%Z
                                  then bs !! Z.to_nat (a - address)
                                  else None) with
                           | Some b => Some b
                           | None => u_mem w a
                           end) w, Ok ())
       else (w, Undef).

(** [find_file_elem]: the first element of the thread's list with the
    descriptor. *)
Fixpoint find_file_elem_in (l : list file_elem) (fd : Z) : option file_elem :=
  match l with
  | [] => None
  | fe :: rest =>
      if bool_decide (fe_fd fe = fd) then Some fe else find_file_elem_in rest fd
  end.

Definition find_file_elem (w : world) (fd : Z) : option file_elem :=
  find_file_elem_in (t_files w) fd.

(** The write through the pointer [find_file_elem] returned: the
    directory handle of that element is replaced. *)
Fixpoint set_fe_dir (l : list file_elem) (fd : Z) (d : dir) : list file_elem :=
  match l with
  | [] => []
  | fe :: rest =>
      if bool_decide (fe_fd fe = fd)
      then mk_file_elem (fe_fd fe) (fe_isdir fe) d (fe_file fe) :: rest
      else fe :: set_fe_dir rest fd d
  end.

(** The [while (length > 512)] loop of [write]; [fuel] bounds the
    number of passes.  [written] is an [int]: [written += 512] beyond
    [INT_MAX] is an overflow, which C leaves undefined. *)
Fixpoint console_loop (fuel : nat) (buffer written length : Z)
  : sys (Z * Z) :=
  if bool_decide (512 < length)%Z then
    match fuel with
    | O => λ w, (w, Undef)
    | S fuel' =>
        run putbuf (to_unsigned (buffer + written)) 512 in
        if bool_decide (written + 512 ≤ INT_MAX)%Z
        then console_loop fuel' buffer (written + 512)%Z
                          (to_unsigned (length - 512))
        else λ w, (w, Undef)
    end
  else sys_ret (written, length).

(** [write] *)
Definition write `{Kernel} (fd : Z) (buffer : Z) (length : Z) : sys Z :=
  if bool_decide (fd = 0%Z) then exit (-1)       (* write to input *)
  else if bool_decide (fd = 1%Z) then            (* write to console *)
    if bool_decide (length < 512)%Z then
      run putbuf buffer length in
      sys_ret (to_int length)
    else
      call r <- console_loop (Z.to_nat (length / 512)) buffer 0 length in
      run putbuf (to_unsigned (buffer + r.1)) r.2 in
      sys_ret (to_int (r.1 + r.2))
  else                                            (* write to a file *)
    λ w, match find_file_elem w fd with
         | None => exit (-1) w
         | Some fe =>
             let '(w1, written) := file_write (fe_file fe) buffer length w in
             (w1, Ok written)
         end.

(** [readdir] *)
Definition readdir `{Storage} (fd : Z) (name : Z) : sys bool :=
  λ w, match find_file_elem w fd with
       | None => (w, Ok false)
       | Some fe =>
           if negb (fe_isdir fe) then (w, Ok false)
           else
             let '(d', r) := dir_readdir (w_fs w) (fe_dir fe) in
             let w1 := set_files (set_fe_dir (t_files w) fd d') w in
             match r with
             | None => (w1, Ok false)
             | Some s => (run store_string name s in sys_ret true) w1
             end
       end.

(** [isdir] *)
Definition isdir (fd : Z) : sys bool :=
  λ w, match find_file_elem w fd with
       | None => (w, Ok false)
       | Some fe => (w, Ok (fe_isdir fe))
       end.

Definition file_get_inode (f : file) : block_sector_t := f_inode f.

(** [inumber]: declared [bool], so the sector number leaves it as
    "is not zero". *)
Definition inumber (fd : Z) : sys bool :=
  λ w, match find_file_elem w fd with
       | None => (w, Ok false)
       | Some fe =>
           let inumber :=
             if fe_isdir fe then inode_get_inumber (dir_get_inode (fe_dir fe))
             else inode_get_inumber (file_get_inode (fe_file fe)) in
           (w, Ok (bool_decide (inumber ≠ 0%N)))
       end.

(** [syscall_handler], as far as the calls above go; the value is what
    is stored into [f->eax]. *)
Definition syscall_handler `{Storage} `{Kernel} (esp : Z) : sys Z :=
  run check_valid_address esp in
  call nsyscall <- load_int esp in
  match syscall_nr_of nsyscall with
  | Some SYS_WRITE =>
      run check_valid_address (slot esp 1) in
      call buffer <- load_word (slot esp 2) in
      run check_valid_address buffer in
      run check_valid_address (slot esp 3) in
      call fd <- load_int (slot esp 1) in
      call length <- load_word (slot esp 3) in
      write fd buffer length
  | Some SYS_READDIR =>
      run check_valid_address (slot esp 1) in
      call name <- load_word (slot esp 2) in
      run check_valid_address name in
      call ret <- readdir (to_int (slot esp 1)) name in
      sys_ret (Z.b2z ret)
  | Some SYS_ISDIR =>
      run check_valid_address (slot esp 1) in
      call ret <- isdir (to_int (slot esp 1)) in
      sys_ret (Z.b2z ret)
  | Some SYS_INUMBER =>
      run check_valid_address (slot esp 1) in
      call ret <- inumber (to_int (slot esp 1)) in
      sys_ret (Z.b2z ret)
  | Some nr => other_call nr esp
  | None => exit (-1)
  end.

(** ** Auxiliary notions for the proofs *)

(** What opening and closing leave alone in an inode. *)
Definition body (i : inode) : bool * block_sector_t * list dir_entry :=
  (is_dir i, parent i, data i).

(** An inode somebody holds: at least one reference, and an unlink can
    only be pending while somebody else holds it as well. *)
Definition held (st : fs) (s : block_sector_t) : Prop :=
  ∃ i, st !! s = Some i ∧ 1 ≤ open_cnt i ∧ (open_cnt i = 1 → removed i = false).

Arguments inode_open : simpl never.
Arguments inode_reopen : simpl never.
Arguments inode_close : simpl never.
Arguments inode_remove : simpl never.
Arguments table : simpl never.
Arguments lookup : simpl never.



(** The world after the transfers [chunks] have reached the console. *)
Definition emit_chunks (chunks : list (list Byte.byte)) (w : world) : world :=
  foldl (λ w c, emit (Putbuf c) w) w chunks.

(** ** Further notions for the directory layer *)

(** The names a caller collects by calling [dir_readdir] on a handle
    until it returns false; [fuel] bounds the number of calls. *)
Fixpoint readdir_all `{Storage} (fuel : nat) (st : fs) (d : dir) : list string :=
  match fuel with
  | O => []
  | S fuel' =>
      match dir_readdir st d with
      | (d', Some name) => name :: readdir_all fuel' st d'
      | (_, None) => []
      end
  end.

(** Every name in use is one [dir_add] accepts: not empty and at most
    [NAME_MAX] characters long. *)
Definition valid_names `{Storage} (tbl : list dir_entry) : Prop :=
  Forall (λ n, n ≠ "" ∧ String.length n ≤ NAME_MAX) (names_in_use tbl).

(** ** Further notions for path resolution *)



(** What one pass of the loop of [get_containing_dir] does to the
    directory at hand, read on the contents of the disk alone: the
    sector of the directory the walk is in afterwards, nothing when the
    pass returns the null pointer. *)
Definition step_sector (st : fs) (s : block_sector_t) (token : string)
  : option block_sector_t :=
  if bool_decide (token = ".") then Some s
  else
    let target :=
      if bool_decide (token = "..") then Some (inode_get_parent st s)
      else (λ r : dir_entry * nat, inode_sector r.1) <$> lookup st (mk_dir s 0) token in
    match target with
    | None => None
    | Some t =>
        match st !! t with
        | None => None
        | Some i => Some (if is_dir i then t else s)
        end
    end.

(** The passes of the loop in a row: the sector of the last directory
    reached, and whether every pass went through. *)
Fixpoint resolve (st : fs) (s : block_sector_t) (token : string)
    (rest : list string) : block_sector_t * bool :=
  match rest with
  | [] => (s, true)
  | next_token :: rest' =>
      match step_sector st s token with
      | None => (s, false)
      | Some s' => resolve st s' next_token rest'
      end
  end.

(** The sector [get_containing_dir] starts from. *)
Definition start_sector (cwd : option dir) (path : string) : block_sector_t :=
  match path, cwd with
  | String c _, Some wd =>
      if bool_decide (c = ASCII_SLASH) then ROOT_DIR_SECTOR else d_inode wd
  | EmptyString, Some wd => d_inode wd
  | _, None => ROOT_DIR_SECTOR
  end.

(** One when the two sectors are the same, zero otherwise. *)
Definition one_if (x y : block_sector_t) : nat :=
  if decide (x = y) then 1 else 0.

(** ** Further notions for the system calls *)

(** An address [check_valid_address] lets through. *)
Definition valid_address `{Kernel} (w : world) (address : Z) : Prop :=
  address ≠ 0%Z ∧ (address < PHYS_BASE)%Z ∧ is_Some (u_mem w address).

(** ** userprog/syscall.c: the calls on files *)

(** What these calls need besides the world: the working directory of
    the thread, the [static int fd] of [alloc_fd], and how many keys
    have been taken from the keyboard. *)
Record machine := mk_machine {
  m_world : world;
  t_cwd : option dir;
  fd_counter : Z;
  keys_taken : nat
}.

(** What filesys/filesys.c, filesys/file.c, threads/malloc.c and
    devices/input.c give.  The functions on paths read the name in user
    memory and start from the working directory; [file_read] stores
    into user memory and moves the position of the handle; [malloc]
    returns a block with whatever it holds, or the null pointer;
    [input_getc] is the keyboard, key by key. *)
Class Filesys := {
  filesys_open : (Z → option Byte.byte) → option dir → Z → gmap N inode
                 → gmap N inode * option file;
  filesys_create : (Z → option Byte.byte) → option dir → Z → Z → bool
                   → gmap N inode → gmap N inode * bool;
  filesys_remove : (Z → option Byte.byte) → option dir → Z → gmap N inode
                   → gmap N inode * bool;
  filesys_chdir : (Z → option Byte.byte) → option dir → Z → gmap N inode
                  → gmap N inode * option dir * bool;
  file_close : file → gmap N inode → gmap N inode;
  file_length : file → gmap N inode → Z;
  file_read : file → Z → Z → (Z → option Byte.byte) → gmap N inode
              → (Z → option Byte.byte) * file * Z;
  file_seek : file → Z → file;
  file_tell : file → Z;
  malloc_file_elem : machine → option file_elem;
  input_getc : nat → Byte.byte
}.

(** A call on a machine. *)
Definition ksys (A : Type) : Type := machine → machine * outcome A.

Definition ksys_ret {A} (a : A) : ksys A := λ m, (m, Ok a).

Definition ksys_bind {A B} (c : ksys A) (k : A → ksys B) : ksys B :=
  λ m, match c m with
       | (m1, Ok a) => k a m1
       | (m1, Exit s) => (m1, Exit s)
       | (m1, Undef) => (m1, Undef)
       end.

Notation "'kcall' x <- c 'in' k" := (ksys_bind c (λ x, k))
  (at level 10, x binder, c at level 100, k at level 200).
Notation "'krun' c 'in' k" := (ksys_bind c (λ _, k))
  (at level 10, c at level 100, k at level 200).

Definition set_world (w : world) (m : machine) : machine :=
  mk_machine w (t_cwd m) (fd_counter m) (keys_taken m).
Definition set_cwd (d : option dir) (m : machine) : machine :=
  mk_machine (m_world m) d (fd_counter m) (keys_taken m).
Definition set_fd_counter (fd : Z) (m : machine) : machine :=
  mk_machine (m_world m) (t_cwd m) fd (keys_taken m).
Definition set_keys_taken (n : nat) (m : machine) : machine :=
  mk_machine (m_world m) (t_cwd m) (fd_counter m) n.
Definition set_fs (st : gmap N inode) (w : world) : world :=
  mk_world st (t_name w) (t_files w) (t_exit_status w) (console w) (u_mem w).

(** A call on the world, run on the machine. *)
Definition lift {A} (c : sys A) : ksys A :=
  λ m, let '(w, r) := c (m_world m) in (set_world w m, r).

(** [alloc_fd]: [fd++] on the static counter, an overflow of [int] at
    [INT_MAX]. *)
Definition alloc_fd : ksys Z :=
  λ m, if bool_decide (fd_counter m < INT_MAX)%Z
       then (set_fd_counter (fd_counter m + 1) m, Ok (fd_counter m))
       else (m, Undef).

(** The loop of [strlen]: [n] bytes have been passed. *)
Fixpoint strlen_from (fuel : nat) (mem : Z → option Byte.byte) (s : Z) (n : Z)
  : option Z :=
  match fuel with
  | O => None
  | S fuel' =>
      match mem (to_unsigned (s + n)) with
      | None => None
      | Some b =>
          if bool_decide (byte_val b = 0%Z) then Some n
          else strlen_from fuel' mem s (n + 1)
      end
  end.

(** [strlen (s)] on a string in user memory; there are [2 ^ 32]
    addresses to pass at most. *)
Definition strlen (s : Z) : sys Z :=
  λ w, match strlen_from (Z.to_nat (2 ^ 32)) (u_mem w) s 0 with
       | Some n => (w, Ok n)
       | None => (w, Undef)
       end.

(** [*(uint8_t * ) address] read, and written. *)
Definition load_byte (address : Z) : sys Byte.byte :=
  λ w, match u_mem w address with
       | Some b => (w, Ok b)
       | None => (w, Undef)
       end.

Definition store_byte `{Kernel} (address : Z) (b : Byte.byte) : sys unit :=
  λ w, if is_user_vaddr address && mapped w address
       then (set_mem (λ a, if bool_decide (a = address) then Some b
                           else u_mem w a) w, Ok ())
       else (w, Undef).

(** [(struct dir * ) f]: a handle on a file read as a handle on a
    directory, both being an inode and a position. *)
Definition dir_of_file (f : file) : dir := mk_dir (f_inode f) (Z.to_nat (f_pos f)).

(** [list_push_back (&thread_current ()->files, &fe->thread_elem)] *)
Definition list_push_back (fe : file_elem) (m : machine) : machine :=
  set_world (set_files (t_files (m_world m) ++ [fe]) (m_world m)) m.

(** [list_remove] of the element [find_file_elem] returned for [fd]:
    the first one with that descriptor. *)
Fixpoint list_remove (l : list file_elem) (fd : Z) : list file_elem :=
  match l with
  | [] => []
  | fe :: rest =>
      if bool_decide (fe_fd fe = fd) then rest else fe :: list_remove rest fd
  end.

(** The write through [fe->file] of the element [find_file_elem]
    returned for [fd]. *)
Fixpoint set_fe_file (l : list file_elem) (fd : Z) (f : file) : list file_elem :=
  match l with
  | [] => []
  | fe :: rest =>
      if bool_decide (fe_fd fe = fd)
      then mk_file_elem (fe_fd fe) (fe_isdir fe) (fe_dir fe) f :: rest
      else fe :: set_fe_file rest fd f
  end.

(** [open].  The element comes from [malloc] with whatever the block
    holds; [isdir], [fd] and one of the two handles are assigned. *)
Definition open `{Filesys} (file : Z) : ksys Z :=
  if bool_decide (file = 0%Z) then ksys_ret (-1)%Z
  else
    kcall n <- lift (strlen file) in
    if bool_decide (n = 0%Z) then ksys_ret (-1)%Z
    else
      λ m,
        let w := m_world m in
        let '(st1, f) := filesys_open (u_mem w) (t_cwd m) file (w_fs w) in
        let m1 := set_world (set_fs st1 w) m in
        match f with
        | None => (m1, Ok (-1)%Z)
        | Some f =>
            match malloc_file_elem m1 with
            | None =>                         (* fail to allocate memory *)
                (set_world (set_fs (file_close f st1) (m_world m1)) m1,
                 Ok (-1)%Z)
            | Some blk =>
                let fe :=
                  if inode_is_dir st1 (file_get_inode f)
                  then mk_file_elem (fe_fd blk) true (dir_of_file f) (fe_file blk)
                  else mk_file_elem (fe_fd blk) false (fe_dir blk) f in
                (kcall fd <- alloc_fd in
                 λ m2, (list_push_back
                          (mk_file_elem fd (fe_isdir fe) (fe_dir fe) (fe_file fe))
                          m2,
                        Ok fd)) m1
            end
        end.

(** [filesize] *)
Definition filesize `{Filesys} (fd : Z) : ksys Z :=
  λ m, match find_file_elem (m_world m) fd with
       | None => lift (exit (-1)) m
       | Some fe => (m, Ok (file_length (fe_file fe) (w_fs (m_world m))))
       end.

(** The [for] loop of [read] on the keyboard: [todo] passes are left,
    [i] is the index. *)
Fixpoint read_keys `{Kernel} `{Filesys} (todo : nat) (buffer : Z) (i : Z)
  : ksys unit :=
  match todo with
  | O => ksys_ret ()
  | S todo' =>
      λ m,
        let key := input_getc (keys_taken m) in
        (krun lift (store_byte (to_unsigned (buffer + i)) key) in
         read_keys todo' buffer (i + 1)%Z)
          (set_keys_taken (S (keys_taken m)) m)
  end.

(** [read] *)
Definition read `{Kernel} `{Filesys} (fd : Z) (buffer : Z) (length : Z) : ksys Z :=
  if negb (is_user_vaddr buffer)
     || negb (is_user_vaddr (to_unsigned (buffer + length)))
  then ksys_ret (-1)%Z
  else if bool_decide (fd = 0%Z) then               (* stdin *)
    krun read_keys (Z.to_nat length) buffer 0 in
    ksys_ret (to_int length)
  else if bool_decide (fd = 1%Z) then ksys_ret (-1)%Z   (* stdout *)
  else
    λ m,
      let w := m_world m in
      match find_file_elem w fd with
      | None => (m, Ok (-1)%Z)
      | Some fe =>
          let '(mem', f', n) :=
            file_read (fe_file fe) buffer length (u_mem w) (w_fs w) in
          (set_world (set_files (set_fe_file (t_files w) fd f') (set_mem mem' w)) m,
           Ok n)
      end.

(** [seek] *)
Definition seek `{Filesys} (fd : Z) (position : Z) : ksys unit :=
  λ m,
    let w := m_world m in
    match find_file_elem w fd with
    | None => lift (exit (-1)) m
    | Some fe =>
        (set_world
           (set_files (set_fe_file (t_files w) fd (file_seek (fe_file fe) position)) w)
           m,
         Ok ())
    end.

(** [tell] *)
Definition tell `{Filesys} (fd : Z) : ksys Z :=
  λ m, match find_file_elem (m_world m) fd with
       | None => lift (exit (-1)) m
       | Some fe => (m, Ok (to_unsigned (file_tell (fe_file fe))))
       end.

(** [close] *)
Definition close `{Filesys} (fd : Z) : ksys unit :=
  λ m,
    let w := m_world m in
    match find_file_elem w fd with
    | None => lift (exit (-1)) m
    | Some fe =>
        let st1 := if fe_isdir fe then dir_close (w_fs w) (Some (fe_dir fe))
                   else file_close (fe_file fe) (w_fs w) in
        (set_world (set_files (list_remove (t_files w) fd) (set_fs st1 w)) m,
         Ok ())
    end.

(** [create] *)
Definition create `{Filesys} (file : Z) (initial_size : Z) : ksys bool :=
  if bool_decide (file = 0%Z) then lift (exit (-1))
  else
    λ m,
      let w := m_world m in
      let '(st1, ret) :=
        filesys_create (u_mem w) (t_cwd m) file initial_size false (w_fs w) in
      (set_world (set_fs st1 w) m, Ok ret).

(** [remove] *)
Definition remove `{Filesys} (file : Z) : ksys bool :=
  if bool_decide (file = 0%Z) then lift (exit (-1))
  else
    λ m,
      let w := m_world m in
      let '(st1, ret) := filesys_remove (u_mem w) (t_cwd m) file (w_fs w) in
      (set_world (set_fs st1 w) m, Ok ret).

(** [chdir] *)
Definition chdir `{Filesys} (dir : Z) : ksys bool :=
  λ m,
    let w := m_world m in
    let '(st1, cwd, ret) := filesys_chdir (u_mem w) (t_cwd m) dir (w_fs w) in
    (set_cwd cwd (set_world (set_fs st1 w) m), Ok ret).

(** [mkdir]: [strcmp (dir, "")] is zero when the first byte is. *)
Definition mkdir `{Filesys} (dir : Z) : ksys bool :=
  kcall b <- lift (load_byte dir) in
  if bool_decide (byte_val b = 0%Z) then ksys_ret false
  else
    λ m,
      let w := m_world m in
      let '(st1, ret) := filesys_create (u_mem w) (t_cwd m) dir 0 true (w_fs w) in
      (set_world (set_fs st1 w) m, Ok ret).

(** [f->eax = ret] after a call that returns nothing: [ret] is read
    without ever having been assigned. *)
Definition ret_unassigned : ksys Z := λ m, (m, Undef).

(** The cases of [syscall_handler] for these calls, after the number
    has been read; nothing for the calls on processes and for the four
    cases of [syscall_handler] above. *)
Definition file_call `{Kernel} `{Filesys} (nr : syscall_nr) (esp : Z)
  : option (ksys Z) :=
  match nr with
  | SYS_CREATE => Some (
      kcall file <- lift (load_word (slot esp 1)) in
      krun lift (check_valid_address file) in
      krun lift (check_valid_address (slot esp 2)) in
      kcall initial_size <- lift (load_word (slot esp 2)) in
      kcall ret <- create file initial_size in
      ksys_ret (Z.b2z ret))
  | SYS_REMOVE => Some (
      kcall file <- lift (load_word (slot esp 1)) in
      krun lift (check_valid_address file) in
      kcall ret <- remove file in
      ksys_ret (Z.b2z ret))
  | SYS_OPEN => Some (
      kcall file <- lift (load_word (slot esp 1)) in
      krun lift (check_valid_address file) in
      open file)
  | SYS_FILESIZE => Some (
      krun lift (check_valid_address (slot esp 1)) in
      kcall fd <- lift (load_int (slot esp 1)) in
      filesize fd)
  | SYS_READ => Some (
      krun lift (check_valid_address (slot esp 1)) in
      kcall buffer <- lift (load_word (slot esp 2)) in
      krun lift (check_valid_address buffer) in
      krun lift (check_valid_address (slot esp 3)) in
      kcall fd <- lift (load_int (slot esp 1)) in
      kcall length <- lift (load_word (slot esp 3)) in
      read fd buffer length)
  | SYS_SEEK => Some (
      krun lift (check_valid_address (slot esp 1)) in
      krun lift (check_valid_address (slot esp 2)) in
      kcall fd <- lift (load_int (slot esp 1)) in
      kcall position <- lift (load_word (slot esp 2)) in
      krun seek fd position in
      ret_unassigned)
  | SYS_TELL => Some (
      krun lift (check_valid_address (slot esp 1)) in
      kcall fd <- lift (load_int (slot esp 1)) in
      kcall ret <- tell fd in
      ksys_ret (to_int ret))
  | SYS_CLOSE => Some (
      krun lift (check_valid_address (slot esp 1)) in
      kcall fd <- lift (load_int (slot esp 1)) in
      krun close fd in
      ret_unassigned)
  | SYS_CHDIR => Some (
      kcall dir <- lift (load_word (slot esp 1)) in
      krun lift (check_valid_address dir) in
      kcall ret <- chdir dir in
      ksys_ret (Z.b2z ret))
  | SYS_MKDIR => Some (
      kcall dir <- lift (load_word (slot esp 1)) in
      krun lift (check_valid_address dir) in
      kcall ret <- mkdir dir in
      ksys_ret (Z.b2z ret))
  | _ => None
  end.

(** The descriptors of the thread are distinct, and [alloc_fd] has
    handed each of them out. *)
Definition fds_fresh (m : machine) : Prop :=
  (2 ≤ fd_counter m)%Z
  ∧ Forall (λ fe, 2 ≤ fe_fd fe < fd_counter m)%Z (t_files (m_world m))
  ∧ NoDup (fe_fd <$> t_files (m_world m)).

(** ** Concrete states for the examples *)

(** A disk with the root directory [/], a plain file [/f], a directory
    [/a] and an empty directory [/a/b]; [/a] also has a record [up]
    for the root sector. *)
Definition demo_fs : gmap N inode :=
  <[1%N := mk_inode true 1 0 false
             [mk_dir_entry 2 "f" true; mk_dir_entry 3 "a" true]]>
  (<[2%N := mk_inode false 1 0 false []]>
  (<[3%N := mk_inode true 1 0 false
               [mk_dir_entry 4 "b" true; mk_dir_entry 1 "up" true]]>
  (<[4%N := mk_inode true 3 0 false [blank_entry]]> ∅))).

(** A handle on the root directory. *)
Definition root_dir : dir := mk_dir 1 0.

(** A freshly formatted disk: a root directory of two free records,
    held open once, and an unnamed plain file in sector 7. *)
Definition blank_fs : gmap N inode :=
  <[1%N := mk_inode true 1 1 false [blank_entry; blank_entry]]>
  (<[7%N := mk_inode false 1 0 false []]> ∅).

Definition byte_of (z : Z) : Byte.byte :=
  default Byte.x00 (Byte.of_N (Z.to_N (z mod 256))).

(** The four bytes of a word, little-endian. *)
Definition word_bytes (v : Z) : list Byte.byte :=
  [byte_of v; byte_of (v / 256); byte_of (v / 65536); byte_of (v / 16777216)].

(** The user stack pointer and a user buffer of the examples. *)
Definition demo_esp : Z := 3221225216.        (* 0xbfffff00 *)
Definition demo_buf : Z := 3221224960.        (* 0xbffffe00 *)

(** User memory: [words] from [demo_esp] upwards, and sixteen zero
    bytes at [demo_buf]; nothing else is mapped. *)
Definition demo_mem (words : list Z) : Z → option Byte.byte :=
  λ a, if bool_decide (demo_esp ≤ a)%Z
       then mjoin (word_bytes <$> words) !! Z.to_nat (a - demo_esp)
       else if bool_decide (demo_buf ≤ a < demo_buf + 16)%Z then Some Byte.x00
       else None.

(** A thread with descriptor 2 on the root directory of [demo_fs] and
    descriptor 3 on the plain file in sector 2, trapping with [words]
    on its stack. *)
Definition demo_world (words : list Z) : world :=
  mk_world demo_fs "main"
    [mk_file_elem 2 true root_dir (mk_file 0 0);
     mk_file_elem 3 false (mk_dir 0 0) (mk_file 2 0)]
    0 [] (demo_mem words).

(** A thread all of whose user memory is mapped and zero. *)
Definition zero_world : world :=
  mk_world ∅ "main" [] 0 [] (λ _, Some Byte.x00).

(** A storage on which no write of a record goes through. *)
Definition short_write_storage : Storage :=
  {| NAME_MAX := 14;
     write_full := λ _ _ _, false;
     parent_link_ok := λ _ _ _, true |}.

(** A heap that has run out. *)
Definition empty_malloc : Malloc := {| calloc_ok := λ _, false |}.

(** A small file system interface for the examples: the first byte of
    a name is the sector of the inode it stands for, nothing can be
    created or removed, files are empty, and the keyboard gives [a],
    [b], [c] and so on. *)
Definition plain_filesys : Filesys :=
  {| filesys_open := λ mem _ name st,
       match mem name with
       | Some b =>
           match inode_open st (Byte.to_N b) with
           | (st1, Some s) => (st1, Some (mk_file s 0))
           | (st1, None) => (st1, None)
           end
       | None => (st, None)
       end;
     filesys_create := λ _ _ _ _ _ st, (st, false);
     filesys_remove := λ _ _ _ st, (st, false);
     filesys_chdir := λ _ cwd _ st, (st, cwd, false);
     file_close := λ f st, inode_close st (Some (f_inode f));
     file_length := λ _ _, 0%Z;
     file_read := λ f _ _ mem _, (mem, f, 0%Z);
     file_seek := λ f position, mk_file (f_inode f) position;
     file_tell := f_pos;
     malloc_file_elem := λ _,
       Some (mk_file_elem 0 false (mk_dir 0 0) (mk_file 0 0));
     input_getc := λ n, byte_of (97 + Z.of_nat n) |}.

(** The thread of [demo_world] with no working directory, before any
    key was pressed; its two descriptors came from [alloc_fd]. *)
Definition demo_machine (words : list Z) : machine :=
  mk_machine (demo_world words) None 4 0.

(** * Proofs *)

(** ** The inode collaborator: what opening and closing change *)

Lemma body_lookup (st st' : gmap N inode) s :
  body <$> st = body <$> st' → body <$> (st !! s) = body <$> (st' !! s).
Proof. intros E. rewrite <- !lookup_fmap. by rewrite E. Qed.

Lemma table_pointwise (st st' : gmap N inode) s :
  body <$> (st !! s) = body <$> (st' !! s) → table st s = table st' s.
Proof.
  unfold table. destruct (st !! s), (st' !! s); simpl; try done.
  by intros [= _ _ ->].
Qed.

Lemma inode_is_dir_pointwise (st st' : gmap N inode) s :
  body <$> (st !! s) = body <$> (st' !! s) → inode_is_dir st s = inode_is_dir st' s.
Proof.
  unfold inode_is_dir. destruct (st !! s), (st' !! s); simpl; try done.
  by intros [= -> _ _].
Qed.

Lemma table_body (st st' : gmap N inode) s :
  body <$> st = body <$> st' → table st s = table st' s.
Proof. intros E. by apply table_pointwise, body_lookup. Qed.

Lemma inode_is_dir_body (st st' : gmap N inode) s :
  body <$> st = body <$> st' → inode_is_dir st s = inode_is_dir st' s.
Proof. intros E. by apply inode_is_dir_pointwise, body_lookup. Qed.


Lemma body_insert_same (st : gmap N inode) s i i' :
  st !! s = Some i → body i' = body i → body <$> <[s := i']> st = body <$> st.
Proof.
  intros Hs Hb. rewrite fmap_insert, Hb.
  apply insert_id. by rewrite lookup_fmap, Hs.
Qed.

Lemma inode_open_body (st : gmap N inode) s :
  body <$> (inode_open st s).1 = body <$> st.
Proof.
  unfold inode_open. destruct (st !! s) as [i|] eqn:Hs; [|done].
  simpl. eapply body_insert_same; [done|]. by destruct (open_cnt i).
Qed.

Lemma inode_open_result (st : gmap N inode) s :
  (inode_open st s).2 = match st !! s with Some _ => Some s | None => None end.
Proof. unfold inode_open. by destruct (st !! s). Qed.

Lemma inode_open_held (st : gmap N inode) s :
  is_Some (st !! s) → held (inode_open st s).1 s.
Proof.
  intros [i Hi]. unfold inode_open, held. rewrite Hi. simpl.
  rewrite lookup_insert_eq. eexists; split; [done|].
  destruct (open_cnt i); simpl; split; (lia || done).
Qed.

(** Closing an inode that is held deletes nothing. *)
Lemma inode_close_body (st : gmap N inode) s :
  held st s → body <$> inode_close st (Some s) = body <$> st.
Proof.
  intros (i & Hi & Hc & Hr). unfold inode_close. rewrite Hi.
  destruct (Nat.eqb (Nat.pred (open_cnt i)) 0 && removed i) eqn:E.
  - apply andb_true_iff in E as [E1 E2]. apply Nat.eqb_eq in E1.
    rewrite Hr in E2; [done | lia].
  - by eapply body_insert_same.
Qed.

(** Opening an inode and closing it again leaves every body as it was. *)
Lemma open_close_body (st : gmap N inode) s :
  body <$> inode_close (inode_open st s).1 (inode_open st s).2 = body <$> st.
Proof.
  rewrite inode_open_result. destruct (st !! s) as [i|] eqn:Hs.
  - rewrite inode_close_body; [apply inode_open_body|].
    apply inode_open_held; eauto.
  - unfold inode_open. by rewrite Hs.
Qed.

(** ** The scans of the table *)

Lemma lookup_from_ofs tbl name ofs e k :
  lookup_from tbl name ofs = Some (e, k) →
  ∃ j, k = ofs + j ∧ tbl !! j = Some e ∧ in_use e = true ∧ entry_name e = name
       ∧ ∀ j' e', j' < j → tbl !! j' = Some e' →
                  ¬ (in_use e' = true ∧ entry_name e' = name).
Proof.
  revert ofs. induction tbl as [|x tbl IH]; intros ofs; simpl; [done|].
  destruct (in_use x && bool_decide (name = entry_name x)) eqn:E.
  - intros [= <- <-]. apply andb_true_iff in E as [E1 E2].
    apply bool_decide_eq_true in E2.
    exists 0. split; [lia|]. repeat split; try done. intros; lia.
  - intros Hl. destruct (IH _ Hl) as (j & -> & Hj & Hu & Hn & Hfirst).
    exists (S j). split; [lia|]. repeat split; try done.
    intros [|j'] e' Hlt He'; simpl in He'.
    + injection He' as <-. intros [H1 H2]. rewrite H1 in E. simpl in E.
      apply bool_decide_eq_false in E. by apply E.
    + apply (Hfirst j' e'); [lia | done].
Qed.

Lemma lookup_from_None tbl name ofs :
  lookup_from tbl name ofs = None ↔ name ∉ names_in_use tbl.
Proof.
  revert ofs. unfold names_in_use.
  induction tbl as [|x tbl IH]; intros ofs; simpl.
  - split; [intros _; apply not_elem_of_nil | done].
  - destruct (in_use x) eqn:Hx; simpl.
    + rewrite filter_cons_True by done. simpl.
      rewrite not_elem_of_cons, <- (IH (S ofs)).
      case_bool_decide as Hn; [split; [done | intros [? _]; done] |].
      split; [intros Hl; by split | by intros [_ Hl]].
    + rewrite filter_cons_False by (rewrite Hx; done). apply IH.
Qed.

(** The free-slot scan stops at the first record not in use, or at the
    end of the stream. *)
Lemma free_slot_from_spec tbl ofs :
  ∃ j, free_slot_from tbl ofs = ofs + j ∧
       (∀ j' e', j' < j → tbl !! j' = Some e' → in_use e' = true) ∧
       ((∃ e, tbl !! j = Some e ∧ in_use e = false) ∨ j = length tbl).
Proof.
  revert ofs. induction tbl as [|x tbl IH]; intros ofs; simpl.
  - exists 0. split; [lia|]. split; [intros; lia | by right].
  - destruct (in_use x) eqn:Hx.
    + destruct (IH (S ofs)) as (j & -> & Hb & Hj). exists (S j).
      split; [lia|]. split.
      * intros [|j'] e' Hlt He'; simpl in He'; [by injection He' as <-|].
        apply (Hb j' e'); [lia | done].
      * destruct Hj as [(e & He & Hf) | ->]; [left; by exists e | by right].
    + exists 0. split; [lia|]. split; [intros; lia|]. left. by exists x.
Qed.

Lemma all_free_spec tbl :
  all_free tbl = true ↔ ∀ e, e ∈ tbl → in_use e = false.
Proof.
  induction tbl as [|x tbl IH]; simpl.
  - split; [intros _ e He; by apply elem_of_nil in He | done].
  - destruct (in_use x) eqn:Hx.
    + split; [done|]. intros Hall. rewrite (Hall x) in Hx; [done | by left].
    + rewrite IH. split.
      * intros Hall e [->|He]%elem_of_cons; [done | by apply Hall].
      * intros Hall e He. apply Hall. by right.
Qed.

Lemma strlcpy_fits name size :
  String.length name < size → strlcpy name size = name.
Proof.
  unfold strlcpy. intros Hlen.
  assert (Hle : String.length name ≤ size - 1) by lia. clear Hlen.
  revert Hle. generalize (size - 1) as n.
  induction name as [|c name IH]; intros [|n] Hle; simpl in *; try done; try lia.
  f_equal. apply IH. lia.
Qed.

Lemma table_set_parent (st : gmap N inode) p c s :
  table (alter (set_parent p) c st) s = table st s.
Proof.
  unfold table. rewrite lookup_alter. case_decide as E; [|done].
  subst. by destruct (st !! s).
Qed.

Lemma table_insert_data (st : gmap N inode) s i tbl :
  table (<[s := set_data tbl i]> st) s = tbl.
Proof. unfold table. by rewrite lookup_insert_eq. Qed.

Lemma table_insert_ne (st : gmap N inode) s s' i :
  s ≠ s' → table (<[s := i]> st) s' = table st s'.
Proof. intros Hne. unfold table. by rewrite lookup_insert_ne. Qed.

(** ** [dir_add] *)

(** When [dir_add] succeeds, every check has passed and the record has
    been written in full at the offset the free-slot scan found, in the
    state where the child is linked. *)
Lemma dir_add_true `{Storage} st d name sector st' :
  dir_add st d name sector = (st', true) →
  name ≠ "" ∧ String.length name ≤ NAME_MAX ∧ lookup st d name = None ∧
  parent_link_ok st (d_inode d) sector = true ∧
  write_full (alter (set_parent (d_inode d)) sector st) (d_inode d)
             (free_slot_from (table st (d_inode d)) 0) = true ∧
  ∃ i, alter (set_parent (d_inode d)) sector st !! d_inode d = Some i ∧
       st' = <[d_inode d :=
                 set_data (write_slot (data i)
                             (free_slot_from (table st (d_inode d)) 0)
                             (mk_dir_entry sector name true)) i]>
               (alter (set_parent (d_inode d)) sector st).
Proof.
  unfold dir_add, inode_add_parent, inode_get_inumber, dir_get_inode.
  case_bool_decide as Hn; simpl; [done|].
  case_bool_decide as Hl; simpl; [done|].
  destruct (lookup st d name) as [r|] eqn:Hlk; [done|].
  destruct (parent_link_ok st (d_inode d) sector) eqn:Hp; simpl; [|done].
  rewrite table_set_parent. unfold inode_write_at.
  destruct (alter _ sector st !! d_inode d) as [i|] eqn:Hi; [|done].
  destruct (write_full _ _ _) eqn:Hw; [|done].
  intros [= <-]. rewrite strlcpy_fits by lia.
  repeat split; try done; try lia. by exists i.
Qed.

(** Whenever [dir_add] fails, no table has changed. *)
Lemma dir_add_false `{Storage} st d name sector st' s :
  dir_add st d name sector = (st', false) → table st' s = table st s.
Proof.
  unfold dir_add, inode_add_parent.
  destruct (_ || _); [by intros [= <-]|].
  destruct (lookup st d name); [by intros [= <-]|].
  destruct (parent_link_ok _ _ _); simpl; [|by intros [= <-]].
  unfold inode_write_at. destruct (_ !! d_inode d); [|].
  - destruct (write_full _ _ _); [done|]. intros [= <-]. apply table_set_parent.
  - intros [= <-]. apply table_set_parent.
Qed.

Lemma dir_add_table `{Storage} st d name sector st' :
  dir_add st d name sector = (st', true) →
  table st' (d_inode d) =
  write_slot (table st (d_inode d)) (free_slot_from (table st (d_inode d)) 0)
             (mk_dir_entry sector name true).
Proof.
  intros Ha. apply dir_add_true in Ha as (_ & _ & _ & _ & _ & i & Hi & ->).
  rewrite table_insert_data. f_equal.
  rewrite <- (table_set_parent st (d_inode d) sector (d_inode d)).
  unfold table. by rewrite Hi.
Qed.

Lemma dir_add_table_ne `{Storage} st d name sector st' s :
  dir_add st d name sector = (st', true) → s ≠ d_inode d →
  table st' s = table st s.
Proof.
  intros Ha Hne. apply dir_add_true in Ha as (_ & _ & _ & _ & _ & i & Hi & ->).
  rewrite table_insert_ne by done. apply table_set_parent.
Qed.

Lemma write_slot_at_free tbl k e rec :
  tbl !! k = Some e → write_slot tbl k rec = <[k := rec]> tbl.
Proof.
  intros Hk. unfold write_slot. apply lookup_lt_Some in Hk.
  case_decide; [done | lia].
Qed.

Lemma write_slot_at_end tbl rec :
  write_slot tbl (length tbl) rec = tbl ++ [rec].
Proof.
  unfold write_slot. case_decide; [lia|]. by rewrite Nat.sub_diag.
Qed.

Lemma dir_add_failed_state `{Storage} st d name sector st' :
  dir_add st d name sector = (st', false) →
  st' = st ∨ st' = alter (set_parent (d_inode d)) sector st.
Proof.
  unfold dir_add, inode_add_parent, inode_get_inumber, dir_get_inode.
  destruct (_ || _); [intros [= <-]; by left|].
  destruct (lookup st d name); [intros [= <-]; by left|].
  destruct (parent_link_ok _ _ _); simpl; [|intros [= <-]; by left].
  unfold inode_write_at. destruct (_ !! d_inode d); [|intros [= <-]; by right].
  destruct (write_full _ _ _); [done|]. intros [= <-]. by right.
Qed.

(** C5, as the code has it: [dir_add] fails, and leaves the state as it
    was, on an empty name, on a name longer than [NAME_MAX], on a name
    that [lookup] already finds and when the inode layer rejects the
    parent link.  When it succeeds, the new record (target sector, name,
    in use) has been written in full, into the first record that was
    not in use if there was one, at the end of the stream otherwise.  A
    short write makes it fail.  Whenever it fails every table is as it
    was, and the state is the one before the call or that state with
    the parent link of the target set: after a short write it is the
    latter, the link made before the write is not taken back.  It does
    succeed when every check passes and the write is full. *)
Theorem dir_add_contract `{Storage} (st : gmap N inode) (d : dir)
    (name : string) (sector : N) :
  let r := dir_add st d name sector in
  let tbl := table st (d_inode d) in
  let linked := alter (set_parent (d_inode d)) sector st in
  let rec := mk_dir_entry sector name true in
  (name = "" ∨ NAME_MAX < String.length name ∨ is_Some (lookup st d name)
   ∨ parent_link_ok st (d_inode d) sector = false → r = (st, false))
  ∧ (r.2 = true →
       (∃ k e, tbl !! k = Some e ∧ in_use e = false ∧
               (∀ j e', j < k → tbl !! j = Some e' → in_use e' = true) ∧
               write_full linked (d_inode d) k = true ∧
               table r.1 (d_inode d) = <[k := rec]> tbl)
       ∨ ((∀ e, e ∈ tbl → in_use e = true) ∧
          write_full linked (d_inode d) (length tbl) = true ∧
          table r.1 (d_inode d) = tbl ++ [rec]))
  ∧ (write_full linked (d_inode d) (free_slot_from tbl 0) = false → r.2 = false)
  ∧ (r.2 = false →
     (∀ s, table r.1 s = table st s) ∧ (r.1 = st ∨ r.1 = linked))
  ∧ (name ≠ "" → String.length name ≤ NAME_MAX → lookup st d name = None →
     parent_link_ok st (d_inode d) sector = true →
     write_full linked (d_inode d) (free_slot_from tbl 0) = false →
     r = (linked, false))
  ∧ (name ≠ "" → String.length name ≤ NAME_MAX → lookup st d name = None →
     parent_link_ok st (d_inode d) sector = true → is_Some (st !! d_inode d) →
     write_full linked (d_inode d) (free_slot_from tbl 0) = true → r.2 = true).
Proof.
  intros r tbl linked rec. subst r.
  destruct (dir_add st d name sector) as [st' b] eqn:Ha. simpl.
  split; [|split; [|split; [|split; [|split]]]].
  - intros Hfail. revert Ha.
    unfold dir_add, inode_add_parent, inode_get_inumber, dir_get_inode.
    destruct (bool_decide (name = "") || bool_decide (NAME_MAX < String.length name))
      eqn:Hname; [by intros [= <- <-]|].
    apply orb_false_iff in Hname as [Hn Hl].
    apply bool_decide_eq_false in Hn, Hl.
    destruct (lookup st d name) eqn:Hlk; [by intros [= <- <-]|].
    destruct (parent_link_ok st (d_inode d) sector) eqn:Hp;
      simpl; [|by intros [= <- <-]].
    destruct Hfail as [?|[?|[[? Hs]|?]]]; done.
  - intros ->. pose proof (dir_add_table _ _ _ _ _ Ha) as Ht.
    apply dir_add_true in Ha as (_ & _ & _ & _ & Hw & _).
    fold tbl in Ht, Hw. fold linked in Hw.
    destruct (free_slot_from_spec tbl 0) as (j & Hj & Hbefore & Hat).
    simpl in Hj. rewrite Hj in Ht, Hw.
    destruct Hat as [(e & He & Hfree) | ->].
    + left. exists j, e. repeat split; try done.
      by rewrite Ht, (write_slot_at_free _ _ e).
    + right. repeat split; try done.
      * intros e [k Hk]%list_elem_of_lookup.
        apply (Hbefore k e); [by apply lookup_lt_Some in Hk | done].
      * by rewrite Ht, write_slot_at_end.
  - intros Hw. destruct b; [|done].
    apply dir_add_true in Ha as (_ & _ & _ & _ & Hw' & _).
    fold tbl linked in Hw'. congruence.
  - intros ->. split; [intros s; by eapply dir_add_false|].
    by apply (dir_add_failed_state _ _ _ _ _ Ha).
  - intros Hn Hl Hlk Hp Hw. revert Ha.
    unfold dir_add, inode_add_parent, inode_get_inumber, dir_get_inode.
    rewrite bool_decide_eq_false_2 by done.
    rewrite bool_decide_eq_false_2 by lia. simpl.
    rewrite Hlk, Hp. simpl. rewrite table_set_parent. unfold inode_write_at.
    fold tbl linked. rewrite Hw.
    destruct (linked !! d_inode d); by intros [= <- <-].
  - intros Hn Hl Hlk Hp [i Hi] Hw. revert Ha.
    unfold dir_add, inode_add_parent, inode_get_inumber, dir_get_inode.
    rewrite bool_decide_eq_false_2 by done.
    rewrite bool_decide_eq_false_2 by lia. simpl.
    rewrite Hlk, Hp. simpl. rewrite table_set_parent. unfold inode_write_at.
    fold tbl linked. rewrite Hw.
    destruct (linked !! d_inode d) as [i'|] eqn:Hi'; [by intros [= _ <-]|].
    subst linked. rewrite lookup_alter in Hi'. case_decide; [|congruence].
    subst. by rewrite Hi in Hi'.
Qed.

(** ** [dir_remove] *)

Lemma inode_open_lookup (st : gmap N inode) s x :
  body <$> ((inode_open st s).1 !! x) = body <$> (st !! x).
Proof. apply body_lookup, inode_open_body. Qed.

Lemma inode_open_table (st : gmap N inode) s x :
  table (inode_open st s).1 x = table st x.
Proof. apply table_body, inode_open_body. Qed.

Lemma inode_open_is_dir (st : gmap N inode) s x :
  inode_is_dir (inode_open st s).1 x = inode_is_dir st x.
Proof. apply inode_is_dir_body, inode_open_body. Qed.

(** Whenever [dir_remove] fails, it has at most opened the target and
    closed it again: no inode has changed but for its open state. *)
Lemma dir_remove_false `{Storage} st d name st' :
  dir_remove st d name = (st', false) → body <$> st' = body <$> st.
Proof.
  unfold dir_remove.
  destruct (lookup st d name) as [[e ofs]|]; [|by intros [= <-]].
  pose proof (open_close_body st (inode_sector e)) as Hoc.
  destruct (inode_open st (inode_sector e)) as [st1 [ino|]] eqn:Ho; simpl in Hoc.
  - destruct (inode_is_dir st1 ino && bool_decide (1 < inode_get_open_cnt st1 ino));
      [by intros [= <-]|].
    destruct (inode_is_dir st1 ino && bool_decide (inode_get_inumber ino = 1%N));
      [by intros [= <-]|].
    destruct (inode_is_dir st1 ino && negb (dir_is_empty st1 ino));
      [by intros [= <-]|].
    unfold inode_write_at.
    destruct (st1 !! d_inode d); [|by intros [= <-]].
    destruct (write_full st1 (d_inode d) ofs); [done | by intros [= <-]].
  - by intros [= <-].
Qed.

(** C1: [dir_remove] returns false and leaves the table of the
    directory as it was whenever a guard fails: [lookup] does not find
    the name, the target is the root sector, the target is a directory
    whose open count, this operation's own reference included, is above
    one, or the target is a directory with a record in use.  The root
    sector holds the root directory. *)
Theorem dir_remove_guarded `{Storage} (st : gmap N inode) (d : dir)
    (name : string) :
  root_is_directory st →
  (lookup st d name = None ∨
   ∃ e ofs, lookup st d name = Some (e, ofs) ∧
     (inode_sector e = ROOT_DIR_SECTOR
      ∨ (inode_is_dir st (inode_sector e) = true ∧
         1 < inode_get_open_cnt (inode_open st (inode_sector e)).1 (inode_sector e))
      ∨ (inode_is_dir st (inode_sector e) = true ∧
         ∃ e', e' ∈ table st (inode_sector e) ∧ in_use e' = true))) →
  (dir_remove st d name).2 = false ∧
  table (dir_remove st d name).1 (d_inode d) = table st (d_inode d).
Proof.
  intros Hroot Hguard.
  assert (Hf : (dir_remove st d name).2 = false); last first.
  { split; [done|]. destruct (dir_remove st d name) as [st' b] eqn:Hr.
    simpl in *. subst b. by apply table_body, (dir_remove_false st d name). }
  unfold dir_remove.
  destruct Hguard as [-> | (e & ofs & -> & Hg)]; [done|].
  pose proof (inode_open_result st (inode_sector e)) as Hres.
  pose proof (inode_open_is_dir st (inode_sector e) (inode_sector e)) as Hd.
  pose proof (inode_open_table st (inode_sector e) (inode_sector e)) as Ht.
  destruct (inode_open st (inode_sector e)) as [st1 opened] eqn:Ho.
  simpl in Hres, Hd, Ht, Hg.
  destruct (st !! inode_sector e) as [i|] eqn:Hi; subst opened; [|done].
  destruct (inode_is_dir st1 (inode_sector e)
            && bool_decide (1 < inode_get_open_cnt st1 (inode_sector e))) eqn:G1;
    [done|].
  destruct (inode_is_dir st1 (inode_sector e)
            && bool_decide (inode_get_inumber (inode_sector e) = 1%N)) eqn:G2;
    [done|].
  destruct (inode_is_dir st1 (inode_sector e)
            && negb (dir_is_empty st1 (inode_sector e))) eqn:G3; [done|].
  exfalso. rewrite Hd in G1, G2, G3.
  destruct Hg as [Hr | [[Hdir Hcnt] | [Hdir (e' & He' & Hu)]]].
  - assert (inode_is_dir st (inode_sector e) = true) as Hdir.
    { unfold inode_is_dir. rewrite Hi. apply Hroot. by rewrite <- Hr. }
    rewrite Hdir in G2. simpl in G2. apply bool_decide_eq_false in G2.
    by apply G2.
  - rewrite Hdir in G1. simpl in G1. by apply bool_decide_eq_false in G1.
  - rewrite Hdir in G3. simpl in G3. apply negb_false_iff in G3.
    unfold dir_is_empty in G3. rewrite Ht in G3.
    rewrite all_free_spec in G3. rewrite (G3 e' He') in Hu. done.
Qed.

(** ** The names in use, and how the two writes change them *)

Lemma names_in_use_cons x tbl :
  names_in_use (x :: tbl) =
  if in_use x then entry_name x :: names_in_use tbl else names_in_use tbl.
Proof.
  unfold names_in_use. destruct (in_use x) eqn:Hx.
  - by rewrite filter_cons_True.
  - rewrite filter_cons_False; [done | by rewrite Hx].
Qed.

Lemma names_in_use_app l1 l2 :
  names_in_use (l1 ++ l2) = names_in_use l1 ++ names_in_use l2.
Proof. unfold names_in_use. by rewrite filter_app, fmap_app. Qed.

Lemma names_in_use_split tbl k e :
  tbl !! k = Some e →
  names_in_use tbl =
  names_in_use (take k tbl) ++ names_in_use [e] ++ names_in_use (drop (S k) tbl).
Proof.
  intros Hk. rewrite <- !names_in_use_app.
  by rewrite <- (take_drop_middle tbl k e Hk) at 1.
Qed.

Lemma names_in_use_insert tbl k e e' :
  tbl !! k = Some e →
  names_in_use (<[k := e']> tbl) =
  names_in_use (take k tbl) ++ names_in_use [e'] ++ names_in_use (drop (S k) tbl).
Proof.
  intros Hk. rewrite <- !names_in_use_app.
  rewrite insert_take_drop by (by eapply lookup_lt_Some). done.
Qed.

(** Writing a record in use where the free-slot scan points adds its
    name and nothing else. *)
Lemma names_after_add tbl rec :
  in_use rec = true →
  names_in_use (write_slot tbl (free_slot_from tbl 0) rec)
  ≡ₚ entry_name rec :: names_in_use tbl.
Proof.
  intros Hrec.
  destruct (free_slot_from_spec tbl 0) as (j & Hj & _ & Hat). simpl in Hj.
  rewrite Hj. destruct Hat as [(e & He & Hfree) | ->].
  - rewrite (write_slot_at_free _ _ e) by done.
    rewrite (names_in_use_insert _ _ e) by done.
    rewrite (names_in_use_split tbl j e) by done.
    rewrite !names_in_use_cons, Hrec, Hfree. simpl.
    by rewrite <- Permutation_middle.
  - rewrite write_slot_at_end, names_in_use_app, names_in_use_cons, Hrec.
    simpl. by rewrite <- Permutation_cons_append.
Qed.

(** Erasing a record in use takes its name away and nothing else. *)
Lemma names_after_erase tbl k e :
  tbl !! k = Some e → in_use e = true →
  names_in_use tbl ≡ₚ entry_name e :: names_in_use (<[k := erase e]> tbl).
Proof.
  intros Hk Hu.
  rewrite (names_in_use_insert _ _ e) by done.
  rewrite (names_in_use_split tbl k e) by done.
  rewrite !names_in_use_cons, Hu. simpl.
  by rewrite <- Permutation_middle.
Qed.

Lemma lookup_is_Some st d name :
  is_Some (lookup st d name) ↔ name ∈ names_in_use (table st (d_inode d)).
Proof.
  unfold lookup. rewrite <- not_eq_None_Some, lookup_from_None.
  split; [apply dec_stable | by intros ? ?].
Qed.

(** What [lookup] returns is the record a read at the returned offset
    gives. *)
Lemma lookup_slot st d name e ofs :
  lookup st d name = Some (e, ofs) →
  inode_read_at st (d_inode d) ofs = Some e
  ∧ in_use e = true ∧ entry_name e = name.
Proof.
  intros (j & -> & Hj)%lookup_from_ofs. unfold inode_read_at. simpl. tauto.
Qed.

Lemma inode_close_lookup (st : gmap N inode) s x :
  (inode_close st (Some s) !! x = None ∧ x = s)
  ∨ body <$> (inode_close st (Some s) !! x) = body <$> (st !! x).
Proof.
  unfold inode_close. destruct (st !! s) as [i|] eqn:Hs; [|by right].
  destruct (Nat.eqb (Nat.pred (open_cnt i)) 0 && removed i).
  - destruct (decide (x = s)) as [->|Hne].
    + left. by rewrite lookup_delete_eq.
    + right. by rewrite lookup_delete_ne.
  - right. destruct (decide (x = s)) as [->|Hne].
    + by rewrite lookup_insert_eq, Hs.
    + by rewrite lookup_insert_ne.
Qed.

Lemma inode_remove_lookup (st : gmap N inode) s x :
  body <$> (inode_remove st s !! x) = body <$> (st !! x).
Proof.
  unfold inode_remove. rewrite lookup_alter. case_decide as E; [|done].
  subst. by destruct (st !! x).
Qed.

(** When [dir_remove] succeeds, the record [lookup] found has been
    erased in place; the target, if a directory, was empty; and apart
    from the target, which may be gone, every inode is as it was. *)
Lemma dir_remove_true `{Storage} st d name st' :
  dir_remove st d name = (st', true) →
  ∃ e ofs, lookup st d name = Some (e, ofs) ∧
    (inode_is_dir st (inode_sector e) = true →
     dir_is_empty st (inode_sector e) = true) ∧
    ∀ s, (st' !! s = None ∧ s = inode_sector e)
         ∨ (inode_is_dir st' s = inode_is_dir st s ∧
            table st' s = if decide (s = d_inode d)
                          then <[ofs := erase e]> (table st s)
                          else table st s).
Proof.
  unfold dir_remove.
  destruct (lookup st d name) as [[e ofs]|] eqn:Hlk; [|done].
  pose proof (inode_open_lookup st (inode_sector e)) as Hopen.
  pose proof (inode_open_result st (inode_sector e)) as Hres.
  destruct (inode_open st (inode_sector e)) as [st1 opened].
  simpl in Hopen, Hres.
  destruct opened as [ino|]; [|done].
  assert (ino = inode_sector e) as ->.
  { destruct (st !! inode_sector e); by inversion Hres. }
  destruct (_ && bool_decide (1 < _)); [done|].
  destruct (_ && bool_decide (_ = 1%N)); [done|].
  destruct (inode_is_dir st1 (inode_sector e)
            && negb (dir_is_empty st1 (inode_sector e))) eqn:G3; [done|].
  unfold inode_write_at.
  destruct (st1 !! d_inode d) as [i1|] eqn:Hd1; [|done].
  destruct (write_full st1 (d_inode d) ofs); [|done].
  cbn [negb]. intros [= <-].
  exists e, ofs. split; [done|]. split.
  - intros Hdir.
    rewrite <- (inode_is_dir_pointwise _ _ _ (Hopen (inode_sector e))) in Hdir.
    rewrite Hdir in G3. simpl in G3. apply negb_false_iff in G3.
    unfold dir_is_empty in *.
    by rewrite <- (table_pointwise _ _ _ (Hopen (inode_sector e))).
  - intros s.
    destruct (inode_close_lookup
                (inode_remove (<[d_inode d :=
                   set_data (write_slot (data i1) ofs (erase e)) i1]> st1)
                   (inode_sector e)) (inode_sector e) s) as [Hgone | Hkept];
      [by left | right].
    rewrite inode_remove_lookup in Hkept.
    apply lookup_slot in Hlk as (Hslot & _). unfold inode_read_at in Hslot.
    assert (Ht1 : table st (d_inode d) = data i1).
    { rewrite <- (table_pointwise _ _ _ (Hopen (d_inode d))).
      unfold table. by rewrite Hd1. }
    destruct (decide (s = d_inode d)) as [->|Hne].
    + rewrite (inode_is_dir_pointwise _ _ _ Hkept).
      rewrite (table_pointwise _ _ _ Hkept). split.
      * rewrite <- (inode_is_dir_pointwise _ _ _ (Hopen (d_inode d))).
        unfold inode_is_dir. by rewrite lookup_insert_eq, Hd1.
      * rewrite Ht1 in *. rewrite <- (write_slot_at_free _ _ e) by done.
        unfold table. by rewrite lookup_insert_eq.
    + rewrite lookup_insert_ne in Hkept by done. rewrite Hopen in Hkept.
      split; [by apply inode_is_dir_pointwise | by apply table_pointwise].
Qed.

(** ** The root stays a directory *)

(** No table operation creates an inode or changes what kind of inode
    a sector holds. *)
Lemma run_op_kind `{Storage} st o s i' :
  (run_op st o).1 !! s = Some i' →
  ∃ i, st !! s = Some i ∧ is_dir i' = is_dir i.
Proof.
  assert (Hopen : ∀ (m : gmap N inode) p x j', (inode_open m p).1 !! x = Some j' →
            ∃ j, m !! x = Some j ∧ is_dir j' = is_dir j).
  { intros m p x j' Hx. pose proof (inode_open_lookup m p x) as Hb.
    rewrite Hx in Hb. destruct (m !! x) as [j|]; [|done].
    exists j. split; [done|]. by injection Hb as -> _ _. }
  assert (Hclose : ∀ (m : gmap N inode) p x j',
            inode_close m (Some p) !! x = Some j' →
            ∃ j, m !! x = Some j ∧ is_dir j' = is_dir j).
  { intros m p x j' Hx.
    destruct (inode_close_lookup m p x) as [[Hgone _] | Hb]; [congruence|].
    rewrite Hx in Hb. destruct (m !! x) as [j|]; [|done].
    exists j. split; [done|]. by injection Hb as -> _ _. }
  destruct o as [d n x | d n]; simpl.
  - unfold dir_add, inode_add_parent.
    destruct (_ || _); [eauto|]. destruct (lookup st d n); [eauto|].
    assert (Hlink : ∀ j', alter (set_parent (d_inode d)) x st !! s = Some j' →
              ∃ j, st !! s = Some j ∧ is_dir j' = is_dir j).
    { intros j'. rewrite lookup_alter. case_decide as E; [|eauto].
      subst. destruct (st !! s) as [j|]; [|done]. intros [= <-]. eauto. }
    destruct (parent_link_ok _ _ _); simpl; [|eauto].
    unfold inode_write_at, inode_get_inumber, dir_get_inode.
    destruct (alter _ x st !! d_inode d) as [j1|] eqn:Hj1; [|apply Hlink].
    destruct (write_full _ _ _); [|apply Hlink]. simpl.
    destruct (decide (s = d_inode d)) as [->|Hne].
    + rewrite lookup_insert_eq. intros [= <-]. by apply Hlink in Hj1.
    + rewrite lookup_insert_ne by done. apply Hlink.
  - unfold dir_remove. destruct (lookup st d n) as [[e ofs]|]; [|eauto].
    pose proof (Hopen st (inode_sector e)) as Ho.
    destruct (inode_open st (inode_sector e)) as [st1 [ino|]]; simpl in Ho;
      [|eauto].
    assert (Hoc : ∀ j', inode_close st1 (Some ino) !! s = Some j' →
              ∃ j, st !! s = Some j ∧ is_dir j' = is_dir j).
    { intros j' (j1 & Hj1 & ->)%Hclose. by apply Ho in Hj1. }
    repeat (destruct (_ && _); [apply Hoc|]).
    unfold inode_write_at. destruct (st1 !! d_inode d) as [j1|] eqn:Hj1;
      [|apply Hoc].
    destruct (write_full _ _ _); [|apply Hoc]. simpl.
    intros (j2 & Hj2 & ->)%Hclose.
    pose proof (inode_remove_lookup
                  (<[d_inode d := set_data (write_slot (data j1) ofs (erase e)) j1]> st1)
                  ino s) as Hr.
    rewrite Hj2 in Hr.
    destruct (decide (s = d_inode d)) as [->|Hne].
    + rewrite lookup_insert_eq in Hr. simpl in Hr.
      apply Ho in Hj1 as (j & Hj & Hk). exists j. split; [done|].
      rewrite <- Hk. by injection Hr as -> _ _.
    + rewrite lookup_insert_ne in Hr by done.
      destruct (st1 !! s) as [j3|] eqn:Hj3; [|done].
      apply Ho in Hj3 as (j & Hj & Hk). exists j. split; [done|].
      rewrite <- Hk. by injection Hr as -> _ _.
Qed.

(** The hypothesis of [dir_remove_guarded] is an invariant: on a disk
    whose root sector holds a directory, it still does after every
    table operation, after every creation of a directory and after
    every creation of an inode in another sector. *)
Lemma root_is_directory_kept `{Storage} st :
  root_is_directory st →
  (∀ o, root_is_directory (run_op st o).1)
  ∧ (∀ sector cnt isdir,
       isdir = true ∨ sector ≠ ROOT_DIR_SECTOR →
       root_is_directory (inode_create st sector cnt isdir).1).
Proof.
  intros Hroot. split.
  - intros o i' (i & Hi & ->)%run_op_kind. by apply Hroot.
  - intros sector cnt isdir Hok i'. unfold inode_create. simpl.
    destruct (decide (sector = ROOT_DIR_SECTOR)) as [->|Hne].
    + rewrite lookup_insert_eq. intros [= <-]. simpl. by destruct Hok.
    + rewrite lookup_insert_ne by done. apply Hroot.
Qed.

Lemma names_in_use_free tbl :
  (∀ e, e ∈ tbl → in_use e = false) → names_in_use tbl = [].
Proof.
  induction tbl as [|x tbl IH]; intros Hall; [done|].
  rewrite names_in_use_cons, (Hall x) by (by left).
  apply IH. intros e He. apply Hall. by right.
Qed.

Lemma names_in_use_elem tbl k e :
  tbl !! k = Some e → in_use e = true → entry_name e ∈ names_in_use tbl.
Proof.
  intros Hk Hu. rewrite (names_in_use_split tbl k e Hk).
  rewrite names_in_use_cons, Hu. set_solver.
Qed.

(** ** Round trip *)

Lemma lookup_after_add `{Storage} st d name sector st' :
  dir_add st d name sector = (st', true) →
  ∃ ofs, lookup st' d name = Some (mk_dir_entry sector name true, ofs).
Proof.
  intros Ha. pose proof (dir_add_table _ _ _ _ _ Ha) as Ht.
  apply dir_add_true in Ha as (_ & _ & Hnone & _).
  assert (Hin : is_Some (lookup st' d name)).
  { apply lookup_is_Some. rewrite Ht, names_after_add by done. by left. }
  destruct Hin as [[e k] Hlk]. exists k. rewrite Hlk. do 2 f_equal.
  apply lookup_slot in Hlk as (Hk & Hu & Hn). unfold inode_read_at in Hk.
  assert (Hold : ¬ table st (d_inode d) !! k = Some e).
  { intros Hk'. apply (names_in_use_elem _ _ _ Hk') in Hu.
    rewrite Hn in Hu. apply lookup_is_Some in Hu. rewrite Hnone in Hu.
    by destruct Hu. }
  rewrite Ht in Hk. clear Ht.
  destruct (free_slot_from_spec (table st (d_inode d)) 0) as (j & Hj & _ & Hat).
  simpl in Hj. rewrite Hj in Hk. destruct Hat as [(e0 & He0 & _) | ->].
  - rewrite (write_slot_at_free _ _ e0) in Hk by done.
    destruct (decide (j = k)) as [->|Hne].
    + rewrite list_lookup_insert_eq in Hk by (by eapply lookup_lt_Some).
      by injection Hk.
    + by rewrite list_lookup_insert_ne in Hk.
  - rewrite write_slot_at_end in Hk.
    destruct (decide (k < length (table st (d_inode d)))) as [Hlt|Hge].
    + by rewrite lookup_app_l in Hk.
    + rewrite lookup_app_r in Hk by lia.
      destruct (k - length (table st (d_inode d))) as [|n]; [|done].
      by injection Hk.
Qed.

(** ** Uniqueness of the names in use *)

Lemma dir_add_unique `{Storage} st d name sector s :
  unique_names (table st s) →
  unique_names (table (dir_add st d name sector).1 s).
Proof.
  intros Hu. destruct (dir_add st d name sector) as [st' [|]] eqn:Ha; simpl.
  - destruct (decide (s = d_inode d)) as [->|Hne].
    + rewrite (dir_add_table _ _ _ _ _ Ha). unfold unique_names.
      rewrite names_after_add by done. simpl. apply NoDup_cons. split; [|done].
      apply dir_add_true in Ha as (_ & _ & Hnone & _).
      intros Hin%lookup_is_Some. rewrite Hnone in Hin. by destruct Hin.
    + by rewrite (dir_add_table_ne _ _ _ _ _ _ Ha).
  - by rewrite (dir_add_false _ _ _ _ _ _ Ha).
Qed.

Lemma table_absent (st : gmap N inode) s : st !! s = None → table st s = [].
Proof. unfold table. by intros ->. Qed.

Lemma dir_remove_unique `{Storage} st d name s :
  unique_names (table st s) →
  unique_names (table (dir_remove st d name).1 s).
Proof.
  intros Hu. destruct (dir_remove st d name) as [st' [|]] eqn:Hr; simpl.
  - apply dir_remove_true in Hr as (e & ofs & Hlk & _ & Hall).
    destruct (Hall s) as [[Hgone _] | [_ Ht]].
    + rewrite table_absent by done. apply NoDup_nil_2.
    + rewrite Ht. case_decide as Hs; [subst s | done].
      apply lookup_slot in Hlk as (Hk & Hin & _). unfold inode_read_at in Hk.
      unfold unique_names in *.
      rewrite (names_after_erase _ _ _ Hk Hin) in Hu.
      by apply NoDup_cons in Hu as [_ ?].
  - by rewrite (table_body _ _ _ (dir_remove_false _ _ _ _ Hr)).
Qed.

Lemma inode_create_unique st sector cnt isdir s :
  unique_names (table st s) →
  unique_names (table (inode_create st sector cnt isdir).1 s).
Proof.
  intros Hu. unfold inode_create. simpl.
  destruct (decide (sector = s)) as [->|Hne].
  - unfold table. rewrite lookup_insert_eq. simpl. unfold unique_names.
    rewrite names_in_use_free; [apply NoDup_nil_2|].
    by intros e [-> _]%elem_of_replicate.
  - by rewrite table_insert_ne.
Qed.

(** Every table of a reachable state has at most one record in use per
    name. *)
Lemma reachable_unique `{Storage} st :
  reachable st → ∀ s, unique_names (table st s).
Proof.
  induction 1 as [st Hfresh | st sector cnt isdir _ IH | st o _ IH]; intros s.
  - unfold unique_names. rewrite names_in_use_free; [apply NoDup_nil_2|].
    unfold table. destruct (st !! s) as [i|] eqn:Hs.
    + intros e He. specialize (Hfresh s i Hs).
      rewrite Forall_forall in Hfresh. by apply Hfresh.
    + by intros e He%elem_of_nil.
  - by apply inode_create_unique.
  - destruct o; simpl; [by apply dir_add_unique | by apply dir_remove_unique].
Qed.

Lemma lookup_after_remove `{Storage} st d name st' :
  unique_names (table st (d_inode d)) →
  dir_remove st d name = (st', true) → lookup st' d name = None.
Proof.
  intros Hu Hr. apply dir_remove_true in Hr as (e & ofs & Hlk & _ & Hall).
  unfold lookup. apply lookup_from_None.
  destruct (Hall (d_inode d)) as [[Hgone _] | [_ Ht]].
  - rewrite table_absent by done. apply not_elem_of_nil.
  - rewrite Ht, decide_True by done.
    apply lookup_slot in Hlk as (Hk & Hin & Hn). unfold inode_read_at in Hk.
    unfold unique_names in Hu. rewrite (names_after_erase _ _ _ Hk Hin) in Hu.
    apply NoDup_cons in Hu as [Hnot _]. by rewrite Hn in Hnot.
Qed.

(** C4: when [dir_add] of a name with target sector [x] succeeds,
    [lookup] of the name in that directory succeeds and returns a record
    whose target is [x]; and in every reachable state, after a
    [dir_remove] of a name that succeeds, [lookup] of the name in that
    directory finds nothing. *)
Theorem add_lookup_remove_roundtrip `{Storage} :
  (∀ (st : gmap N inode) (d : dir) (name : string) (x : N),
     (dir_add st d name x).2 = true →
     ∃ e ofs, lookup (dir_add st d name x).1 d name = Some (e, ofs)
              ∧ inode_sector e = x)
  ∧ (∀ (st : gmap N inode) (d : dir) (name : string),
     reachable st → (dir_remove st d name).2 = true →
     lookup (dir_remove st d name).1 d name = None).
Proof.
  split.
  - intros st d name x Ha.
    destruct (dir_add st d name x) as [st' b] eqn:E. simpl in *. subst b.
    destruct (lookup_after_add _ _ _ _ _ E) as [ofs Hl]. eauto.
  - intros st d name Hreach Hr.
    destruct (dir_remove st d name) as [st' b] eqn:E. simpl in *. subst b.
    eapply lookup_after_remove; [|done]. by apply reachable_unique.
Qed.

Lemma dir_add_is_dir `{Storage} st d name sector s :
  inode_is_dir (dir_add st d name sector).1 s = inode_is_dir st s.
Proof.
  assert (Hp : ∀ p c, inode_is_dir (alter (set_parent p) c st) s = inode_is_dir st s).
  { intros p c. unfold inode_is_dir. rewrite lookup_alter.
    case_decide as E; [|done]. subst. by destruct (st !! s). }
  unfold dir_add, inode_add_parent.
  destruct (_ || _); [done|]. destruct (lookup st d name); [done|].
  destruct (parent_link_ok _ _ _); simpl; [|done].
  unfold inode_write_at.
  destruct (alter _ sector st !! d_inode d) as [i|] eqn:Hi; [|apply Hp].
  destruct (write_full _ _ _); [|apply Hp]. simpl.
  rewrite <- (Hp (inode_get_inumber (dir_get_inode d)) sector).
  unfold inode_is_dir at 1. destruct (decide (s = d_inode d)) as [->|Hne].
  - rewrite lookup_insert_eq. unfold inode_is_dir. by rewrite Hi.
  - by rewrite lookup_insert_ne.
Qed.

(** A step that does not remove [name] from the directory [s] leaves
    [s] a directory in which [name] is in use. *)
Lemma step_keeps_name `{Storage} st o s name :
  inode_is_dir st s = true → name ∈ names_in_use (table st s) →
  ¬ removes s name st o →
  inode_is_dir (run_op st o).1 s = true
  ∧ name ∈ names_in_use (table (run_op st o).1 s).
Proof.
  intros Hdir Hin Hnot. destruct o as [d n x | d n]; simpl in *.
  - rewrite dir_add_is_dir. split; [done|].
    destruct (dir_add st d n x) as [st' [|]] eqn:Ha; simpl.
    + destruct (decide (s = d_inode d)) as [->|Hne].
      * rewrite (dir_add_table _ _ _ _ _ Ha), names_after_add by done.
        by right.
      * by rewrite (dir_add_table_ne _ _ _ _ _ _ Ha).
    + by rewrite (dir_add_false _ _ _ _ _ _ Ha).
  - destruct (dir_remove st d n) as [st' [|]] eqn:Hr; simpl in *.
    + apply dir_remove_true in Hr as (e & ofs & Hlk & Hempty & Hall).
      apply lookup_slot in Hlk as (Hk & Hu & Hn). unfold inode_read_at in Hk.
      destruct (Hall s) as [[_ ->] | [Hd Ht]].
      * specialize (Hempty Hdir). unfold dir_is_empty in Hempty.
        rewrite all_free_spec in Hempty.
        rewrite names_in_use_free in Hin by done. by apply elem_of_nil in Hin.
      * rewrite Hd, Ht. split; [done|]. case_decide as Hs; [subst s | done].
        rewrite (names_after_erase _ _ _ Hk Hu) in Hin.
        apply elem_of_cons in Hin as [Heq | Hin]; [|done].
        exfalso. apply Hnot. repeat split; congruence.
    + rewrite (inode_is_dir_body _ _ _ (dir_remove_false _ _ _ _ Hr)).
      by rewrite (table_body _ _ _ (dir_remove_false _ _ _ _ Hr)).
Qed.

Lemma run_keeps_name `{Storage} ops st s name :
  inode_is_dir st s = true → name ∈ names_in_use (table st s) →
  keeps s name st ops →
  name ∈ names_in_use (table (run_ops st ops) s).
Proof.
  revert st. induction ops as [|o ops IH]; intros st Hdir Hin Hk; [done|].
  destruct Hk as [Hnot Hk]. simpl.
  destruct (step_keeps_name st o s name Hdir Hin Hnot) as [Hdir' Hin'].
  by apply IH.
Qed.

(** C3: in every state reachable through the table operations, no
    table has two records in use with the same name; and once
    [dir_add] of a name has succeeded in a directory, every later
    [dir_add] of that name in that directory fails, whatever table
    operations run in between, as long as none of them is a
    [dir_remove] of that name in that directory that succeeds. *)
Theorem names_stay_unique `{Storage} :
  (∀ (st : gmap N inode), reachable st →
     ∀ s, unique_names (table st s))
  ∧ (∀ (st : gmap N inode) (d d' : dir) (name : string) (a b : N)
       (ops : list table_op),
     inode_is_dir st (d_inode d) = true →
     (dir_add st d name a).2 = true →
     keeps (d_inode d) name (dir_add st d name a).1 ops →
     d_inode d' = d_inode d →
     (dir_add (run_ops (dir_add st d name a).1 ops) d' name b).2 = false).
Proof.
  split; [apply @reachable_unique|].
  intros st d d' name a b ops Hdir Ha Hk Hd'.
  destruct (dir_add st d name a) as [st1 ok] eqn:E. simpl in *. subst ok.
  assert (Hin : name ∈ names_in_use (table (run_ops st1 ops) (d_inode d))).
  { apply run_keeps_name; [| |done].
    - rewrite <- Hdir. replace st1 with (dir_add st d name a).1 by (by rewrite E).
      apply dir_add_is_dir.
    - destruct (lookup_after_add _ _ _ _ _ E) as [ofs Hl].
      apply lookup_is_Some. eauto. }
  rewrite <- Hd' in Hin. apply lookup_is_Some in Hin as [r Hr].
  unfold dir_add. destruct (_ || _); [done|]. by rewrite Hr.
Qed.

(** ** Path resolution *)

Lemma inode_open_lookup_ne (st : gmap N inode) s x :
  x ≠ s → (inode_open st s).1 !! x = st !! x.
Proof.
  intros Hne. unfold inode_open. destruct (st !! s); [|done].
  simpl. by rewrite lookup_insert_ne.
Qed.

Lemma inode_close_lookup_ne (st : gmap N inode) s x :
  x ≠ s → inode_close st (Some s) !! x = st !! x.
Proof.
  intros Hne. unfold inode_close. destruct (st !! s) as [i|]; [|done].
  destruct (_ && _); [by rewrite lookup_delete_ne | by rewrite lookup_insert_ne].
Qed.

(** Opening an inode that is held and closing it again restores the
    state. *)
Lemma open_close_id (st : gmap N inode) s :
  held st s → inode_close (inode_open st s).1 (Some s) = st.
Proof.
  intros (i & Hi & Hc & Hr). unfold inode_open, inode_close. rewrite Hi. simpl.
  rewrite lookup_insert_eq. destruct i as [a b [|n] r tbl]; simpl in *; [lia|].
  rewrite insert_insert_eq. by apply insert_id.
Qed.

Lemma held_open (st : gmap N inode) s p :
  held st s → held (inode_open st p).1 s.
Proof.
  intros Hh. destruct (decide (s = p)) as [->|Hne].
  - apply inode_open_held. destruct Hh as (i & Hi & _). eauto.
  - unfold held. by rewrite inode_open_lookup_ne.
Qed.

Lemma held_close_ne (st : gmap N inode) s p :
  s ≠ p → held st s → held (inode_close st (Some p)) s.
Proof. intros Hne. unfold held. by rewrite inode_close_lookup_ne. Qed.







(** The cases of one pass of the loop of [get_containing_dir]. *)
Lemma walk_dot `{Malloc} st d next rest :
  walk st d "." (next :: rest) = walk st d next rest.
Proof. done. Qed.

Lemma walk_not_found `{Malloc} st dr token next rest :
  token ≠ "." → token ≠ ".." → lookup st dr token = None →
  walk st (Some dr) token (next :: rest) = (st, Ok None).
Proof.
  intros H1 H2 Hl. simpl. rewrite !bool_decide_eq_false_2 by done.
  unfold dir_lookup. by rewrite Hl.
Qed.

Lemma walk_no_parent `{Malloc} st dr next rest :
  st !! inode_get_parent st (d_inode dr) = None →
  walk st (Some dr) ".." (next :: rest) = (st, Ok None).
Proof.
  intros Hp. simpl. unfold dir_get_parent, dir_get_inode, inode_open.
  by rewrite Hp.
Qed.

Lemma walk_into_directory `{Malloc} st dr token next rest e ofs :
  token ≠ "." → token ≠ ".." → lookup st dr token = Some (e, ofs) →
  inode_is_dir st (inode_sector e) = true →
  walk st (Some dr) token (next :: rest) =
  let st2 := dir_close (inode_open st (inode_sector e)).1 (Some dr) in
  if calloc_ok st2
  then walk st2 (Some (mk_dir (inode_sector e) 0)) next rest
  else walk (inode_close st2 (Some (inode_sector e))) None next rest.
Proof.
  intros H1 H2 Hl Hd. simpl. rewrite !bool_decide_eq_false_2 by done.
  unfold dir_lookup. rewrite Hl.
  assert (Hi : is_Some (st !! inode_sector e)).
  { unfold inode_is_dir in Hd. destruct (st !! inode_sector e); [eauto | done]. }
  destruct Hi as [i Hi].
  pose proof (inode_open_result st (inode_sector e)) as Hres.
  pose proof (inode_open_is_dir st (inode_sector e) (inode_sector e)) as Hd1.
  destruct (inode_open st (inode_sector e)) as [st1 found]. simpl in *.
  rewrite Hi in Hres. subst found. rewrite Hd1, Hd.
  unfold dir_open. by destruct (calloc_ok _).
Qed.

(** A component that names a plain file is passed over: the walk goes
    on in the same directory. *)
Lemma walk_over_plain_file `{Malloc} st dr token next rest e ofs :
  token ≠ "." → token ≠ ".." → lookup st dr token = Some (e, ofs) →
  is_Some (st !! inode_sector e) → inode_is_dir st (inode_sector e) = false →
  walk st (Some dr) token (next :: rest) =
  walk (inode_close (inode_open st (inode_sector e)).1 (Some (inode_sector e)))
       (Some dr) next rest.
Proof.
  intros H1 H2 Hl [i Hi] Hd. simpl. rewrite !bool_decide_eq_false_2 by done.
  unfold dir_lookup. rewrite Hl.
  pose proof (inode_open_result st (inode_sector e)) as Hres.
  pose proof (inode_open_is_dir st (inode_sector e) (inode_sector e)) as Hd1.
  destruct (inode_open st (inode_sector e)) as [st1 found]. simpl in *.
  rewrite Hi in Hres. subst found. by rewrite Hd1, Hd.
Qed.

(** C2, where the code departs from it: in [demo_fs] the root holds
    the plain file [f]; resolving [/f/x] passes over [f] and returns the
    root directory, exactly as resolving [/x] does, instead of
    failing. *)
Theorem plain_file_component_skipped :
  lookup demo_fs root_dir "f" = Some (mk_dir_entry 2 "f" true, 0)
  ∧ inode_is_dir demo_fs 2 = false
  ∧ (@get_containing_dir plain_malloc demo_fs None "/f/x").2
    = Ok (Some root_dir)
  ∧ get_file_name "/f/x" = Ok "x"
  ∧ (@get_containing_dir plain_malloc demo_fs None "/x").2
    = Ok (Some root_dir).
Proof. repeat split; vm_compute; reflexivity. Qed.

(** ** 32-bit arithmetic *)

Lemma to_int_add_l a b : to_int (to_int a + b) = to_int (a + b).
Proof.
  unfold to_int. f_equal.
  replace ((a + 2 ^ 31) mod 2 ^ 32 - 2 ^ 31 + b + 2 ^ 31)%Z
    with ((a + 2 ^ 31) mod 2 ^ 32 + b)%Z by lia.
  rewrite Zplus_mod_idemp_l. f_equal. lia.
Qed.

Lemma to_unsigned_add_to_int a b :
  to_unsigned (a + to_int b) = to_unsigned (a + b).
Proof.
  unfold to_unsigned, to_int.
  replace (a + ((b + 2 ^ 31) mod 2 ^ 32 - 2 ^ 31))%Z
    with ((b + 2 ^ 31) mod 2 ^ 32 + (a - 2 ^ 31))%Z by lia.
  rewrite Zplus_mod_idemp_l. f_equal. lia.
Qed.

Lemma to_unsigned_add_l a b :
  to_unsigned (to_unsigned a + b) = to_unsigned (a + b).
Proof. unfold to_unsigned. apply Zplus_mod_idemp_l. Qed.

Lemma to_unsigned_small a : (0 ≤ a < 2 ^ 32)%Z → to_unsigned a = a.
Proof. intros Ha. unfold to_unsigned. by apply Z.mod_small. Qed.

Lemma to_int_small a : (- 2 ^ 31 ≤ a < 2 ^ 31)%Z → to_int a = a.
Proof.
  intros Ha. unfold to_int. rewrite Z.mod_small; [lia|].
  change (2 ^ 32)%Z with (2 ^ 31 + 2 ^ 31)%Z. lia.
Qed.

(** ** Reading user memory *)

Lemma bytes_at_Forall2 w a n bs :
  bytes_at w a n = Some bs ↔
  Forall2 (λ k b, u_mem w (to_unsigned (a + k)) = Some b) (seqZ 0 n) bs.
Proof. unfold bytes_at. apply mapM_Some. Qed.

Lemma bytes_at_unsigned w a n : bytes_at w (to_unsigned a) n = bytes_at w a n.
Proof.
  destruct (bytes_at w a n) as [bs|] eqn:E.
  - apply bytes_at_Forall2. apply bytes_at_Forall2 in E.
    eapply Forall2_impl; [done|]. intros k b. simpl.
    by rewrite to_unsigned_add_l.
  - destruct (bytes_at w (to_unsigned a) n) as [bs|] eqn:E'; [|done].
    apply bytes_at_Forall2 in E'.
    assert (bytes_at w a n = Some bs) as E''; [|congruence].
    apply bytes_at_Forall2. eapply Forall2_impl; [done|]. intros k b. simpl.
    by rewrite to_unsigned_add_l.
Qed.

Lemma bytes_at_length w a n bs :
  bytes_at w a n = Some bs → length bs = Z.to_nat n.
Proof.
  intros E%bytes_at_Forall2. apply Forall2_length in E.
  by rewrite length_seqZ in E.
Qed.

(** A read of [n1 + n2] bytes is a read of [n1] bytes followed by a
    read of [n2] bytes. *)
Lemma bytes_at_app w a n1 n2 bs :
  (0 ≤ n1)%Z → (0 ≤ n2)%Z → bytes_at w a (n1 + n2) = Some bs →
  ∃ b1 b2, bs = b1 ++ b2 ∧ bytes_at w a n1 = Some b1
           ∧ bytes_at w (a + n1) n2 = Some b2.
Proof.
  intros H1 H2 E%bytes_at_Forall2.
  rewrite seqZ_app in E by done.
  apply Forall2_app_inv_l in E as (b1 & b2 & E1 & E2 & ->).
  exists b1, b2. split; [done|]. split; [by apply bytes_at_Forall2|].
  apply bytes_at_Forall2.
  replace (0 + n1)%Z with (n1 + 0)%Z in E2 by lia.
  rewrite <- (fmap_add_seqZ n1 0 n2) in E2.
  apply Forall2_fmap_l in E2.
  eapply Forall2_impl; [done|]. intros k b. simpl.
  by rewrite Z.add_assoc.
Qed.

Lemma bytes_at_emit_chunks chunks w a n :
  bytes_at (emit_chunks chunks w) a n = bytes_at w a n.
Proof.
  revert w. induction chunks as [|c chunks IH]; intros w; [done|].
  simpl. by rewrite IH.
Qed.

Lemma console_emit_chunks chunks w :
  console (emit_chunks chunks w) = console w ++ (Putbuf <$> chunks).
Proof.
  revert w. induction chunks as [|c chunks IH]; intros w; simpl.
  - by rewrite app_nil_r.
  - rewrite IH. simpl. by rewrite <- app_assoc.
Qed.

(** ** [write] on the console *)

Lemma putbuf_ok w buffer n bs :
  bytes_at w buffer n = Some bs →
  putbuf buffer n w = (emit (Putbuf bs) w, Ok ()).
Proof. intros E. unfold putbuf. by rewrite E. Qed.

(** The loop sends transfers of 512 bytes as long as more than 512
    bytes are left, and leaves at most 512 bytes for the last transfer;
    [k] is the number of bytes sent before, held in [written], which
    stays an [int] as long as no more than [2 ^ 31] bytes are asked
    for in all. *)
Lemma console_loop_spec fuel buffer k len w bs :
  (0 ≤ k)%Z → (0 ≤ len)%Z → (k + len ≤ 2 ^ 31)%Z →
  (len ≤ 512 * Z.of_nat fuel + 512)%Z →
  bytes_at w (buffer + k) len = Some bs →
  ∃ chunks rest len',
    console_loop fuel buffer k len w
    = (emit_chunks chunks w, Ok ((k + (len - len'))%Z, len'))
    ∧ (0 ≤ len' ≤ 512)%Z ∧ (len' ≤ len)%Z
    ∧ bs = mjoin chunks ++ rest
    ∧ Forall (λ c, length c = 512) chunks
    ∧ bytes_at w (buffer + (k + (len - len'))) len' = Some rest.
Proof.
  revert k len w bs.
  induction fuel as [|fuel IH]; intros k len w bs Hk Hlen Hsum Hfuel Hbs.
  - exists [], bs, len. simpl. rewrite bool_decide_eq_false_2 by lia.
    replace (k + (len - len))%Z with k by lia.
    repeat split; try done; lia.
  - destruct (decide (512 < len)%Z) as [Hbig|Hsmall].
    + replace len with (512 + (len - 512))%Z in Hbs by lia.
      apply bytes_at_app in Hbs as (b1 & b2 & -> & Hb1 & Hb2); [|lia..].
      destruct (IH (k + 512)%Z (len - 512)%Z (emit (Putbuf b1) w) b2)
        as (chunks & rest & len' & Hloop & Hl1 & Hl2 & -> & Hall & Hrest);
        [lia | lia | lia | lia | by rewrite Z.add_assoc |].
      exists (b1 :: chunks), rest, len'.
      simpl. rewrite bool_decide_eq_true_2 by done.
      unfold sys_bind at 1.
      rewrite (putbuf_ok w _ 512 b1) by (by rewrite bytes_at_unsigned).
      rewrite bool_decide_eq_true_2 by (unfold INT_MAX; lia).
      assert (Hfit : (len - 512 < 2 ^ 32)%Z).
      { change (2 ^ 32)%Z with (2 * 2 ^ 31)%Z. lia. }
      rewrite (to_unsigned_small (len - 512)) by lia.
      rewrite Hloop.
      replace (k + 512 + (len - 512 - len'))%Z with (k + (len - len'))%Z by lia.
      repeat split; try done; try lia.
      * by rewrite <- app_assoc.
      * apply Forall_cons. split; [|done].
        by rewrite (bytes_at_length _ _ _ _ Hb1).
      * replace (k + 512 + (len - 512 - len'))%Z
          with (k + (len - len'))%Z in Hrest by lia. done.
    + exists [], bs, len. simpl. rewrite bool_decide_eq_false_2 by lia.
      replace (k + (len - len))%Z with k by lia.
      repeat split; try done; lia.
Qed.

(** What [write] does on descriptor 1, for every length up to
    [2 ^ 31]. *)
Lemma write_console_spec `{Kernel} w buffer n bs :
  (0 ≤ n ≤ 2 ^ 31)%Z → bytes_at w buffer n = Some bs →
  ∃ chunks,
    write 1 buffer n w = (emit_chunks chunks w, Ok (to_int n))
    ∧ mjoin chunks = bs ∧ Forall (λ c, length c ≤ 512) chunks.
Proof.
  intros Hn Hbs. unfold write.
  rewrite bool_decide_eq_false_2 by done.
  rewrite bool_decide_eq_true_2 by done.
  case_bool_decide as Hshort.
  - exists [bs]. unfold sys_bind. rewrite (putbuf_ok _ _ _ _ Hbs). simpl.
    split; [done|]. split; [by rewrite app_nil_r|].
    apply Forall_singleton. rewrite (bytes_at_length _ _ _ _ Hbs). lia.
  - destruct (console_loop_spec (Z.to_nat (n / 512)) buffer 0 n w bs)
      as (chunks & rest & len' & Hloop & Hl1 & Hl2 & -> & Hall & Hrest).
    + done.
    + lia.
    + lia.
    + rewrite Z2Nat.id by (apply Z.div_pos; lia).
      pose proof (Z.mul_succ_div_gt n 512). lia.
    + by rewrite Z.add_0_r.
    + exists (chunks ++ [rest]).
      unfold sys_bind at 1. rewrite Hloop. cbn [fst snd].
      unfold sys_bind at 1.
      rewrite (putbuf_ok _ _ _ rest)
        by (by rewrite bytes_at_emit_chunks, bytes_at_unsigned).
      unfold sys_ret.
      replace (0 + (n - len') + len')%Z with n by lia.
      split; [|split].
      * unfold emit_chunks. by rewrite foldl_app.
      * rewrite join_app. simpl. by rewrite app_nil_r.
      * apply Forall_app. split.
        -- eapply Forall_impl; [done|]. simpl. intros c ->. lia.
        -- apply Forall_singleton. rewrite (bytes_at_length _ _ _ _ Hrest). lia.
Qed.

(** Beyond [2 ^ 31] bytes the counter [written] overflows before the
    loop is through: the call has no defined result. *)
Lemma console_loop_overflows fuel buffer k len w j :
  k = (512 * j)%Z → (0 ≤ k ≤ INT_MAX)%Z →
  (2 ^ 31 < k + len)%Z → (len < 2 ^ 32)%Z →
  (console_loop fuel buffer k len w).2 = Undef.
Proof.
  revert k len w j.
  induction fuel as [|fuel IH]; intros k len w j Hj Hk Hsum Hlen;
    unfold INT_MAX in Hk; simpl.
  - case_bool_decide; [done|]. lia.
  - case_bool_decide as Hbig; [|lia].
    unfold sys_bind, putbuf.
    destruct (bytes_at w _ 512); [|done].
    case_bool_decide as Hfit; [|done].
    rewrite to_unsigned_small by lia.
    apply (IH _ _ _ (j + 1)%Z); unfold INT_MAX in *; lia.
Qed.

Lemma write_console_overflows `{Kernel} w buffer n :
  (2 ^ 31 < n < 2 ^ 32)%Z → (write 1 buffer n w).2 = Undef.
Proof.
  intros Hn. unfold write.
  rewrite bool_decide_eq_false_2 by done.
  rewrite bool_decide_eq_true_2 by done.
  rewrite bool_decide_eq_false_2 by lia.
  assert (Hl : (console_loop (Z.to_nat (n / 512)) buffer 0 n w).2 = Undef).
  { apply (console_loop_overflows _ _ _ _ _ 0%Z); unfold INT_MAX; lia. }
  unfold sys_bind at 1.
  by destruct (console_loop _ buffer 0 n w) as [w1 [r|s|]].
Qed.

(** C7, as the code has it: for a length [n] of at most [2 ^ 31],
    [write] on descriptor 1 hands the [n] bytes of the buffer to the
    console in their order, in transfers of at most 512 bytes each, and
    returns; the value returned is [n] as long as [n] fits the [int]
    that carries it. *)
Theorem console_write_chunked `{Kernel} (w : world) (buffer n : Z)
    (bs : list Byte.byte) :
  (0 ≤ n ≤ 2 ^ 31)%Z → bytes_at w buffer n = Some bs →
  ∃ chunks ret w',
    write 1 buffer n w = (w', Ok ret)
    ∧ console w' = console w ++ (Putbuf <$> chunks)
    ∧ mjoin chunks = bs ∧ length bs = Z.to_nat n
    ∧ Forall (λ c, length c ≤ 512) chunks
    ∧ ((n ≤ 2147483647)%Z → ret = n).
Proof.
  intros Hn Hbs.
  destruct (write_console_spec w buffer n bs Hn Hbs) as (chunks & Hw & Hj & Hall).
  exists chunks, (to_int n), (emit_chunks chunks w).
  split; [done|]. split; [apply console_emit_chunks|].
  split; [done|]. split; [by eapply bytes_at_length|]. split; [done|].
  intros Hfit. apply to_int_small. lia.
Qed.

(** ** [write] on an unknown descriptor *)

(** C10: for a descriptor other than 0 and 1 that is not in the list of
    the thread, [write] ends the process through [exit (-1)]: the exit
    status is -1, the exit line is printed, and no value is returned. *)
Theorem write_unknown_fd_exits `{Kernel} (w : world) (fd buffer length : Z) :
  fd ≠ 0%Z → fd ≠ 1%Z → find_file_elem w fd = None →
  (write fd buffer length w).2 = Exit (-1)
  ∧ t_exit_status (write fd buffer length w).1 = (-1)%Z
  ∧ console (write fd buffer length w).1
    = console w ++ [ExitLine (t_name w) (-1)]
  ∧ t_files (write fd buffer length w).1 = t_files w.
Proof.
  intros H0 H1 Hfind. unfold write.
  rewrite !bool_decide_eq_false_2 by done. by rewrite Hfind.
Qed.

(** ** [dir_readdir] and [readdir] as functions *)

Lemma readdir_from_spec `{Storage} tbl p :
  match readdir_from tbl p with
  | (p', Some nm) =>
      ∃ k e, tbl !! k = Some e ∧ in_use e = true
             ∧ (∀ j e', j < k → tbl !! j = Some e' → in_use e' = false)
             ∧ p' = S (p + k) ∧ nm = strlcpy (entry_name e) (NAME_MAX + 1)
  | (p', None) => (∀ e, e ∈ tbl → in_use e = false) ∧ p' = p + length tbl
  end.
Proof.
  revert p. induction tbl as [|x tbl IH]; intros p; simpl.
  - split; [by intros e He%elem_of_nil | lia].
  - destruct (in_use x) eqn:Hx.
    + exists 0, x. split; [done|]. split; [done|].
      split; [intros; lia|]. split; [lia | done].
    + specialize (IH (S p)). destruct (readdir_from tbl (S p)) as [p' [nm|]].
      * destruct IH as (k & e & Hk & Hu & Hfirst & -> & ->).
        exists (S k), e. split; [done|]. split; [done|].
        split; [|split; [lia | done]].
        intros [|j] e' Hlt He'; simpl in He'; [by injection He' as <-|].
        apply (Hfirst j); [lia | done].
      * destruct IH as [Hall ->]. split; [|lia].
        intros e [->|He]%elem_of_cons; [done | by apply Hall].
Qed.

(** [dir_readdir] returns the name of the first record in use at or
    after the cursor and leaves the cursor just behind it; with no such
    record it returns nothing and leaves the cursor at the end of the
    stream. *)
Theorem dir_readdir_contract `{Storage} (st : gmap N inode) (d : dir) :
  let tbl := table st (d_inode d) in
  let r := dir_readdir st d in
  d_inode r.1 = d_inode d
  ∧ (∀ nm, r.2 = Some nm →
       ∃ k e, pos d ≤ k ∧ tbl !! k = Some e ∧ in_use e = true
              ∧ (∀ j e', pos d ≤ j < k → tbl !! j = Some e' → in_use e' = false)
              ∧ pos r.1 = S k ∧ nm = strlcpy (entry_name e) (NAME_MAX + 1))
  ∧ (r.2 = None →
       (∀ k e, pos d ≤ k → tbl !! k = Some e → in_use e = false)
       ∧ pos r.1 = pos d `max` length tbl).
Proof.
  intros tbl r. subst r. unfold dir_readdir. fold tbl.
  pose proof (readdir_from_spec (drop (pos d) tbl) (pos d)) as Hs.
  destruct (readdir_from (drop (pos d) tbl) (pos d)) as [p' [nm|]]; simpl.
  - destruct Hs as (k & e & Hk & Hu & Hfirst & -> & ->).
    rewrite lookup_drop in Hk.
    split; [done|]. split; [|done]. intros ? [= <-].
    exists (pos d + k), e. split; [lia|]. split; [done|]. split; [done|].
    split; [|done].
    intros j e' Hj He'. apply (Hfirst (j - pos d)); [lia|].
    rewrite lookup_drop. by replace (pos d + (j - pos d)) with j by lia.
  - destruct Hs as [Hall ->]. split; [done|]. split; [done|]. intros _. split.
    + intros k e Hk He. apply Hall, list_elem_of_lookup.
      exists (k - pos d). rewrite lookup_drop.
      by replace (pos d + (k - pos d)) with k by lia.
    + rewrite length_drop. lia.
Qed.

Lemma find_set_fe_dir l fd d fe :
  find_file_elem_in l fd = Some fe →
  find_file_elem_in (set_fe_dir l fd d) fd
  = Some (mk_file_elem (fe_fd fe) (fe_isdir fe) d (fe_file fe)).
Proof.
  induction l as [|x l IH]; simpl; [done|].
  case_bool_decide as Hx.
  - intros [= <-]. simpl. by rewrite bool_decide_eq_true_2.
  - intros Hf. simpl. rewrite bool_decide_eq_false_2 by done. by apply IH.
Qed.

Lemma length_list_byte_of_string s :
  length (Stdlib.Strings.String.list_byte_of_string s) = String.length s.
Proof.
  unfold Stdlib.Strings.String.list_byte_of_string. rewrite length_map.
  induction s as [|c s IH]; simpl; [done | by rewrite IH].
Qed.

Lemma store_string_ok w address s :
  (0 ≤ address)%Z →
  (address + Z.of_nat (String.length s) < 2 ^ 32)%Z →
  (∀ k, (0 ≤ k ≤ Z.of_nat (String.length s))%Z → mapped w (address + k) = true) →
  ∃ w', store_string address s w = (w', Ok ())
        ∧ bytes_at w' address (Z.of_nat (String.length s) + 1)
          = Some (Stdlib.Strings.String.list_byte_of_string s ++ [Byte.x00])
        ∧ t_files w' = t_files w ∧ w_fs w' = w_fs w ∧ console w' = console w.
Proof.
  intros H0 Hfit Hmap. unfold store_string.
  set (bs := Stdlib.Strings.String.list_byte_of_string s ++ [Byte.x00]).
  assert (Hlen : Z.of_nat (length bs) = (Z.of_nat (String.length s) + 1)%Z).
  { subst bs. rewrite length_app, length_list_byte_of_string. simpl. lia. }
  rewrite Hlen.
  assert (Hall : forallb (λ k, mapped w (to_unsigned (address + k)))
                   (seqZ 0 (Z.of_nat (String.length s) + 1)) = true).
  { apply forallb_forall. intros k Hk%list_elem_of_In%elem_of_seqZ.
    rewrite to_unsigned_small by lia. apply Hmap. lia. }
  rewrite Hall. eexists. split; [done|]. split; [|done].
  apply bytes_at_Forall2. apply Forall2_same_length_lookup_2.
  { rewrite length_seqZ. lia. }
  intros i k b Hk Hb. apply lookup_seqZ in Hk as [-> Hi]. simpl.
  rewrite to_unsigned_small by lia.
  rewrite bool_decide_eq_true_2 by lia.
  replace (Z.to_nat (address + (0 + Z.of_nat i) - address)) with i by lia.
  by rewrite Hb.
Qed.

(** [readdir], called with a descriptor: false for a descriptor that
    is unknown or not a directory's, and for a directory with no record
    in use left; otherwise true, with the name stored at [name] and the
    cursor of the descriptor's handle moved on. *)
Theorem readdir_contract `{Storage} (w : world) (fd name : Z) :
  (find_file_elem w fd = None → readdir fd name w = (w, Ok false))
  ∧ (∀ fe, find_file_elem w fd = Some fe → fe_isdir fe = false →
           readdir fd name w = (w, Ok false))
  ∧ (∀ fe, find_file_elem w fd = Some fe → fe_isdir fe = true →
           (dir_readdir (w_fs w) (fe_dir fe)).2 = None →
           (readdir fd name w).2 = Ok false)
  ∧ (∀ fe nm, find_file_elem w fd = Some fe → fe_isdir fe = true →
       (dir_readdir (w_fs w) (fe_dir fe)).2 = Some nm →
       (0 ≤ name)%Z → (name + Z.of_nat (String.length nm) < 2 ^ 32)%Z →
       (∀ k, (0 ≤ k ≤ Z.of_nat (String.length nm))%Z → mapped w (name + k) = true) →
       (readdir fd name w).2 = Ok true
       ∧ bytes_at (readdir fd name w).1 name (Z.of_nat (String.length nm) + 1)
         = Some (Stdlib.Strings.String.list_byte_of_string nm ++ [Byte.x00])
       ∧ fe_dir <$> find_file_elem (readdir fd name w).1 fd
         = Some (dir_readdir (w_fs w) (fe_dir fe)).1).
Proof.
  unfold readdir. split; [by intros ->|]. split; [by intros fe -> ->|]. split.
  - intros fe -> -> Hr. simpl.
    destruct (dir_readdir (w_fs w) (fe_dir fe)) as [d' r]. simpl in Hr.
    by subst r.
  - intros fe nm Hfind Hdir Hr Hname Hfit Hmap. rewrite Hfind, Hdir. simpl.
    destruct (dir_readdir (w_fs w) (fe_dir fe)) as [d' r] eqn:Hd.
    simpl in Hr. subst r.
    destruct (store_string_ok (set_files (set_fe_dir (t_files w) fd d') w)
                name nm) as (w' & Hst & Hbytes & Hfiles & _); [done..|].
    unfold sys_bind. rewrite Hst. simpl.
    split; [done|]. split; [done|].
    unfold find_file_elem. rewrite Hfiles. simpl.
    by rewrite (find_set_fe_dir _ _ _ _ Hfind).
Qed.

(** ** The directory calls of the handler *)

(** C8, where the code departs from it: descriptor 2 of [demo_world]
    is a directory descriptor with a record in use ahead of its cursor,
    and [readdir] called with 2 stores the name and returns true.  The
    handler, though, passes [esp + 1] itself where the other cases pass
    [*(esp + 1)]: [readdir] receives the address of the stack slot as
    descriptor, finds no such element and returns false, and the cursor
    does not move. *)
Theorem readdir_receives_slot_address :
  let w := demo_world [17; 2; demo_buf]%Z in
  (∃ fe, find_file_elem w 2 = Some fe ∧ fe_isdir fe = true
         ∧ (@dir_readdir plain_storage (w_fs w) (fe_dir fe)).2 = Some "f")
  ∧ (@readdir plain_storage 2 demo_buf w).2 = Ok true
  ∧ bytes_at (@readdir plain_storage 2 demo_buf w).1 demo_buf 2
    = Some [Byte.x66; Byte.x00]
  ∧ to_int (slot demo_esp 1) = (-1073742076)%Z
  ∧ (@syscall_handler plain_storage plain_kernel demo_esp w).2 = Ok 0%Z
  ∧ t_files (@syscall_handler plain_storage plain_kernel demo_esp w).1
    = t_files w.
Proof.
  cbv zeta. split; [eexists; repeat split; vm_compute; reflexivity|].
  repeat split; vm_compute; reflexivity.
Qed.

(** C9, where the code departs from it: descriptor 3 of [demo_world]
    is known and its inode is in sector 2.  [inumber] is declared to
    return [bool], so whatever the descriptor it gives a truth value and
    here true, that is 1, for the inode number 2; and the handler passes
    the address of the stack slot as descriptor, which is in nobody's
    list, so the call returns false. *)
Theorem inumber_returns_truth_value :
  let w := demo_world [19; 3]%Z in
  (∀ (w' : world) (fd : Z), ∃ b : bool, inumber fd w' = (w', Ok b))
  ∧ (∃ fe, find_file_elem w 3 = Some fe ∧ fe_isdir fe = false
           ∧ inode_get_inumber (file_get_inode (fe_file fe)) = 2%N)
  ∧ (inumber 3 w).2 = Ok true
  ∧ (@syscall_handler plain_storage plain_kernel demo_esp w).2 = Ok 0%Z.
Proof.
  cbv zeta. split.
  { intros w' fd. unfold inumber. destruct (find_file_elem w' fd); eauto. }
  split; [eexists; repeat split; vm_compute; reflexivity|].
  split; vm_compute; reflexivity.
Qed.

(** ** Concrete instances and counterexamples *)

Lemma demo_fs_root : root_is_directory demo_fs.
Proof. intros i Hi. vm_compute in Hi. by injection Hi as <-. Qed.

(** Two instances in [demo_fs]: removing [up], the record of [/a] for
    the root sector, and removing [a], a directory that is not empty,
    from the root. *)
Lemma dir_remove_guarded_witness :
  ((@dir_remove plain_storage demo_fs (mk_dir 3 0) "up").2 = false
   ∧ table (@dir_remove plain_storage demo_fs (mk_dir 3 0) "up").1 3
     = table demo_fs 3)
  ∧ ((@dir_remove plain_storage demo_fs root_dir "a").2 = false
     ∧ table (@dir_remove plain_storage demo_fs root_dir "a").1 1
       = table demo_fs 1).
Proof.
  split.
  - apply (@dir_remove_guarded plain_storage demo_fs (mk_dir 3 0) "up");
      [apply demo_fs_root|].
    right. exists (mk_dir_entry 1 "up" true), 1. split; [reflexivity|].
    left. reflexivity.
  - apply (@dir_remove_guarded plain_storage demo_fs root_dir "a");
      [apply demo_fs_root|].
    right. exists (mk_dir_entry 3 "a" true), 1. split; [reflexivity|].
    right; right. split; [reflexivity|].
    exists (mk_dir_entry 4 "b" true). split; [|reflexivity].
    change (table demo_fs (inode_sector (mk_dir_entry 3 "a" true)))
      with [mk_dir_entry 4 "b" true; mk_dir_entry 1 "up" true].
    apply list_elem_of_here.
Defined.

Lemma blank_fs_fresh : fresh blank_fs.
Proof.
  intros s i Hs. unfold blank_fs in Hs.
  apply lookup_insert_Some in Hs as [[_ <-] | [_ Hs]]; [repeat constructor|].
  apply lookup_insert_Some in Hs as [[_ <-] | [_ Hs]]; [constructor|].
  by rewrite lookup_empty in Hs.
Qed.

(** On the blank disk: [x] is added, then [y] is added and removed;
    the names of the root stay unique and [x] cannot be added again. *)
Lemma names_stay_unique_witness :
  unique_names
    (table (@run_ops plain_storage blank_fs
              [OpAdd root_dir "x" 7; OpAdd root_dir "y" 8; OpRemove root_dir "y"])
           1)
  ∧ (@dir_add plain_storage
       (@run_ops plain_storage (@dir_add plain_storage blank_fs root_dir "x" 7).1
          [OpAdd root_dir "y" 8; OpRemove root_dir "y"])
       root_dir "x" 9).2 = false.
Proof.
  split.
  - apply (proj1 (@names_stay_unique plain_storage)).
    do 3 apply (@reachable_op plain_storage).
    apply reachable_fresh, blank_fs_fresh.
  - apply (proj2 (@names_stay_unique plain_storage));
      [reflexivity | reflexivity | | reflexivity].
    split; [intros [] |]. split; [|exact I].
    intros (_ & Hname & _). discriminate Hname.
Defined.

Lemma add_lookup_remove_roundtrip_witness :
  (∃ e ofs,
     lookup (@dir_add plain_storage blank_fs root_dir "x" 7).1 root_dir "x"
     = Some (e, ofs) ∧ inode_sector e = 7%N)
  ∧ lookup (@dir_remove plain_storage
              (@dir_add plain_storage blank_fs root_dir "x" 7).1 root_dir "x").1
           root_dir "x" = None.
Proof.
  split.
  - apply (proj1 (@add_lookup_remove_roundtrip plain_storage)). reflexivity.
  - apply (proj2 (@add_lookup_remove_roundtrip plain_storage)); [|reflexivity].
    apply (@reachable_op plain_storage blank_fs (OpAdd root_dir "x" 7)).
    apply reachable_fresh, blank_fs_fresh.
Defined.

Lemma dir_add_contract_witness :
  ∃ k e, table blank_fs 1 !! k = Some e ∧ in_use e = false
         ∧ table (@dir_add plain_storage blank_fs root_dir "x" 7).1 1
           = <[k := mk_dir_entry 7 "x" true]> (table blank_fs 1).
Proof.
  destruct (proj1 (proj2 (@dir_add_contract plain_storage blank_fs root_dir "x" 7))
              eq_refl) as [(k & e & Hk & He & _ & _ & Ht) | (Hall & _)].
  - by exists k, e.
  - specialize (Hall blank_entry (list_elem_of_here _ _)). discriminate Hall.
Defined.

(** The claim of C5 fails after a short write: on a disk where the
    write of the record does not go through, adding the directory of
    sector 4, which is linked under sector 3, to the root fails, and its
    parent link now names the root. *)
Lemma short_write_keeps_parent_link :
  (@dir_add short_write_storage demo_fs root_dir "z" 4).2 = false
  ∧ inode_get_parent demo_fs 4 = 3%N
  ∧ inode_get_parent (@dir_add short_write_storage demo_fs root_dir "z" 4).1 4
    = 1%N
  ∧ (@dir_add short_write_storage demo_fs root_dir "z" 4).1 ≠ demo_fs.
Proof.
  split; [reflexivity|]. split; [reflexivity|]. split; [reflexivity|].
  intros Heq. apply (f_equal (λ st, inode_get_parent st 4)) in Heq.
  vm_compute in Heq. discriminate Heq.
Qed.




Lemma console_write_chunked_witness :
  ∃ chunks ret w',
    @write plain_kernel 1 4096 1300 zero_world = (w', Ok ret)
    ∧ console w' = console zero_world ++ (Putbuf <$> chunks)
    ∧ mjoin chunks = replicate 1300 Byte.x00
    ∧ length (replicate 1300 Byte.x00) = Z.to_nat 1300
    ∧ Forall (λ c, length c ≤ 512) chunks
    ∧ ((1300 ≤ 2147483647)%Z → ret = 1300%Z).
Proof.
  apply (@console_write_chunked plain_kernel zero_world 4096 1300
           (replicate 1300 Byte.x00)).
  - change (2 ^ 31)%Z with 2147483648%Z. lia.
  - vm_compute. reflexivity.
Defined.

(** The claim of C7 fails for a length the [int] result cannot hold:
    with 2^31 readable bytes, the value returned is -2^31. *)
Lemma console_write_wraps :
  is_Some (bytes_at zero_world 4096 2147483648)
  ∧ (@write plain_kernel 1 4096 2147483648 zero_world).2 = Ok (-2147483648)%Z
  ∧ (@write plain_kernel 1 4096 2147483648 zero_world).2 ≠ Ok 2147483648%Z.
Proof.
  assert (Hb : is_Some (bytes_at zero_world 4096 2147483648)).
  { unfold bytes_at. apply mapM_is_Some, Forall_forall. intros k _. by eexists. }
  split; [done|]. destruct Hb as [bs Hbs].
  destruct (@write_console_spec plain_kernel zero_world 4096 2147483648 bs)
    as (chunks & Hw & _); [|done|].
  - change (2 ^ 31)%Z with 2147483648%Z. lia.
  - rewrite Hw. split; [reflexivity | discriminate].
Qed.

Lemma write_unknown_fd_exits_witness :
  (@write plain_kernel 7 demo_buf 5 (demo_world [9; 7; demo_buf; 5]%Z)).2
  = Exit (-1)
  ∧ t_exit_status
      (@write plain_kernel 7 demo_buf 5 (demo_world [9; 7; demo_buf; 5]%Z)).1
    = (-1)%Z
  ∧ console
      (@write plain_kernel 7 demo_buf 5 (demo_world [9; 7; demo_buf; 5]%Z)).1
    = console (demo_world [9; 7; demo_buf; 5]%Z)
      ++ [ExitLine (t_name (demo_world [9; 7; demo_buf; 5]%Z)) (-1)]
  ∧ t_files
      (@write plain_kernel 7 demo_buf 5 (demo_world [9; 7; demo_buf; 5]%Z)).1
    = t_files (demo_world [9; 7; demo_buf; 5]%Z).
Proof.
  apply (@write_unknown_fd_exits plain_kernel); [lia | lia | reflexivity].
Defined.

(** * Further properties of the directory layer *)

(** ** [lookup] *)

Lemma lookup_from_first tbl name ofs j e :
  tbl !! j = Some e → in_use e = true → entry_name e = name →
  (∀ j' e', j' < j → tbl !! j' = Some e' →
            ¬ (in_use e' = true ∧ entry_name e' = name)) →
  lookup_from tbl name ofs = Some (e, ofs + j).
Proof.
  revert ofs j. induction tbl as [|x tbl IH]; intros ofs j Hj Hu Hn Hfirst;
    [done|].
  destruct j as [|j]; simpl in *.
  - injection Hj as ->. rewrite Hu, bool_decide_eq_true_2 by done. simpl.
    do 2 f_equal. lia.
  - destruct (in_use x && bool_decide (name = entry_name x)) eqn:E.
    + exfalso. apply andb_true_iff in E as [E1 E2%bool_decide_eq_true].
      by apply (Hfirst 0 x); [lia | |].
    + rewrite (IH (S ofs) j); [do 2 f_equal; lia | done..|].
      intros j' e' Hlt He'. apply (Hfirst (S j') e'); [lia | done].
Qed.

(** [lookup] returns the record in use with the name that has the
    smallest offset, together with that offset, and fails exactly when
    no record in use has the name. *)
Theorem lookup_first_match (st : gmap N inode) (d : dir) (name : string) :
  (∀ e ofs,
     lookup st d name = Some (e, ofs) ↔
     inode_read_at st (d_inode d) ofs = Some e
     ∧ in_use e = true ∧ entry_name e = name
     ∧ ∀ j e', j < ofs → inode_read_at st (d_inode d) j = Some e' →
               ¬ (in_use e' = true ∧ entry_name e' = name))
  ∧ (lookup st d name = None ↔
     ∀ j e', inode_read_at st (d_inode d) j = Some e' →
             ¬ (in_use e' = true ∧ entry_name e' = name)).
Proof.
  unfold lookup, inode_read_at. split.
  - intros e ofs. split.
    + intros (j & -> & H)%lookup_from_ofs. exact H.
    + intros (Hj & Hu & Hn & Hfirst).
      by rewrite (lookup_from_first _ _ 0 ofs e).
  - rewrite lookup_from_None. split.
    + intros Hnot j e' Hj [Hu Hn]. apply Hnot. rewrite <- Hn.
      by eapply names_in_use_elem.
    + intros Hall Hin. unfold names_in_use in Hin.
      apply list_elem_of_fmap in Hin as (e & -> & [Hu [j Hj]%list_elem_of_lookup]%list_elem_of_filter).
      by apply (Hall j e).
Qed.

(** ** When [dir_remove] succeeds *)

Lemma inode_open_cnt (st : gmap N inode) s i :
  st !! s = Some i →
  inode_get_open_cnt (inode_open st s).1 s = S (open_cnt i).
Proof.
  intros Hi. unfold inode_open, inode_get_open_cnt. rewrite Hi. simpl.
  rewrite lookup_insert_eq. by destruct (open_cnt i).
Qed.

Lemma lookup_present st d name r :
  lookup st d name = Some r → is_Some (st !! d_inode d).
Proof.
  unfold lookup, table. destruct (st !! d_inode d); [eauto | done].
Qed.

(** The comment of [dir_remove] says it fails only when the name is
    missing.  It succeeds exactly when [lookup] finds the name, the
    sector of the record holds an inode, that inode, if a directory, is
    open by nobody else, is not the root and has no record in use, and
    the record is rewritten in full. *)
Theorem dir_remove_succeeds_iff `{Storage} (st : gmap N inode) (d : dir)
    (name : string) :
  (dir_remove st d name).2 = true ↔
  ∃ e ofs i,
    lookup st d name = Some (e, ofs) ∧ st !! inode_sector e = Some i
    ∧ (is_dir i = true →
       open_cnt i = 0 ∧ inode_sector e ≠ ROOT_DIR_SECTOR
       ∧ ∀ e', e' ∈ data i → in_use e' = false)
    ∧ write_full (inode_open st (inode_sector e)).1 (d_inode d) ofs = true.
Proof.
  unfold dir_remove.
  destruct (lookup st d name) as [[e ofs]|] eqn:Hlk; last first.
  { split; [done | by intros (? & ? & ? & ? & _)]. }
  pose proof (inode_open_result st (inode_sector e)) as Hres.
  pose proof (inode_open_is_dir st (inode_sector e) (inode_sector e)) as Hd.
  pose proof (inode_open_table st (inode_sector e) (inode_sector e)) as Ht.
  pose proof (inode_open_cnt st (inode_sector e)) as Hc.
  pose proof (inode_open_lookup st (inode_sector e) (d_inode d)) as Hdd.
  destruct (lookup_present _ _ _ _ Hlk) as [id Hid].
  destruct (inode_open st (inode_sector e)) as [st1 opened] eqn:Ho. simpl in *.
  destruct (st !! inode_sector e) as [i|] eqn:Hi; subst opened; last first.
  { split; [done|]. intros (e0 & ofs0 & i0 & [= <- <-] & Hs & _). congruence. }
  specialize (Hc i eq_refl).
  unfold dir_is_empty, inode_get_inumber. rewrite Hd, Ht, Hc.
  unfold inode_is_dir, table. rewrite Hi.
  unfold inode_write_at.
  destruct (st1 !! d_inode d) as [i1|] eqn:Hi1;
    [|by rewrite Hid in Hdd].
  split.
  - intros Hok. exists e, ofs, i. split; [done|]. split; [done|]. rewrite Ho.
    simpl.
    destruct (is_dir i); simpl in Hok.
    + case_bool_decide as Hcnt; [done|].
      case_bool_decide as Hroot; [done|].
      destruct (all_free (data i)) eqn:Hfree; [|done]. simpl in Hok.
      destruct (write_full st1 (d_inode d) ofs); [|done].
      split; [|done]. intros _. split; [lia|]. split; [done|].
      by apply all_free_spec.
    + destruct (write_full st1 (d_inode d) ofs); [|done]. by split.
  - intros (e0 & ofs0 & i0 & [= <- <-] & Hs & Hdir & Hw). rewrite Hi in Hs.
    injection Hs as <-.
    rewrite Ho in Hw. simpl in Hw. rewrite Hw.
    destruct (is_dir i); simpl; [|done].
    destruct (Hdir eq_refl) as (Hcnt & Hroot & Hfree).
    rewrite bool_decide_eq_false_2 by lia.
    rewrite bool_decide_eq_false_2 by done.
    apply all_free_spec in Hfree. by rewrite Hfree.
Qed.

(** ** Adding and removing in turn *)

Lemma lookup_after_add_slot `{Storage} st d name sector st' :
  dir_add st d name sector = (st', true) →
  lookup st' d name
  = Some (mk_dir_entry sector name true, free_slot_from (table st (d_inode d)) 0).
Proof.
  intros Ha. destruct (lookup_after_add _ _ _ _ _ Ha) as [k Hlk].
  rewrite Hlk. do 2 f_equal.
  pose proof (dir_add_table _ _ _ _ _ Ha) as Ht.
  apply dir_add_true in Ha as (_ & _ & Hnone & _).
  apply lookup_slot in Hlk as (Hk & _). unfold inode_read_at in Hk.
  rewrite Ht in Hk. clear Ht.
  assert (Hold : ¬ table st (d_inode d) !! k = Some (mk_dir_entry sector name true)).
  { intros Hk'. apply names_in_use_elem in Hk'; [|done]. simpl in Hk'.
    apply lookup_is_Some in Hk'. rewrite Hnone in Hk'. by destruct Hk'. }
  destruct (free_slot_from_spec (table st (d_inode d)) 0) as (j & Hj & _ & Hat).
  simpl in Hj. rewrite Hj in *. destruct Hat as [(e0 & He0 & _) | ->].
  - rewrite (write_slot_at_free _ _ e0) in Hk by done.
    destruct (decide (j = k)) as [->|Hne]; [done|].
    by rewrite list_lookup_insert_ne in Hk.
  - rewrite write_slot_at_end in Hk.
    destruct (decide (k < length (table st (d_inode d)))) as [Hlt|Hge].
    + by rewrite lookup_app_l in Hk.
    + apply lookup_lt_Some in Hk. rewrite length_app in Hk. simpl in Hk. lia.
Qed.

Lemma lookup_from_insert_free tbl j e e' name ofs :
  tbl !! j = Some e → in_use e = false → in_use e' = false →
  lookup_from (<[j := e']> tbl) name ofs = lookup_from tbl name ofs.
Proof.
  revert j ofs. induction tbl as [|x tbl IH]; intros j ofs Hj He He'; [done|].
  destruct j as [|j]; simpl in *.
  - injection Hj as ->. by rewrite He, He'.
  - by rewrite (IH j (S ofs)).
Qed.

Lemma lookup_from_app_free tbl e' name ofs :
  in_use e' = false →
  lookup_from (tbl ++ [e']) name ofs = lookup_from tbl name ofs.
Proof.
  intros He'. revert ofs. induction tbl as [|x tbl IH]; intros ofs; simpl.
  - by rewrite He'.
  - by rewrite IH.
Qed.

(** A name that is added and removed again leaves every [lookup] in
    the directory as it was before, offsets included; only a record
    that is not in use may differ or have been appended. *)
Theorem add_remove_restores_lookups `{Storage} (st st1 st2 : gmap N inode)
    (d : dir) (name : string) (sector : N) :
  dir_add st d name sector = (st1, true) →
  dir_remove st1 d name = (st2, true) →
  sector ≠ d_inode d →
  (∀ n, lookup st2 d n = lookup st d n)
  ∧ names_in_use (table st2 (d_inode d)) = names_in_use (table st (d_inode d))
  ∧ length (table st (d_inode d)) ≤ length (table st2 (d_inode d))
      ≤ S (length (table st (d_inode d))).
Proof.
  intros Ha Hr Hne.
  pose proof (lookup_after_add_slot _ _ _ _ _ Ha) as Hlk.
  pose proof (dir_add_table _ _ _ _ _ Ha) as Ht1.
  apply dir_remove_true in Hr as (e & ofs & Hlk' & _ & Hall).
  rewrite Hlk in Hlk'. injection Hlk' as <- <-.
  destruct (Hall (d_inode d)) as [[_ Heq] | [_ Ht2]]; [by destruct Hne|].
  rewrite decide_True in Ht2 by done. rewrite Ht1 in Ht2. clear Ht1 Hall Hlk.
  set (tbl := table st (d_inode d)) in *.
  destruct (free_slot_from_spec tbl 0) as (j & Hj & _ & Hat).
  simpl in Hj. rewrite Hj in Ht2. unfold erase in Ht2. simpl in Ht2.
  destruct Hat as [(e0 & He0 & Hfree) | ->].
  - rewrite (write_slot_at_free _ _ e0), list_insert_insert_eq in Ht2 by done.
    split; [|split].
    + intros n. unfold lookup. fold tbl. rewrite Ht2.
      by apply (lookup_from_insert_free _ _ e0).
    + rewrite Ht2, (names_in_use_insert _ _ e0), (names_in_use_split tbl j e0)
        by done.
      by rewrite !names_in_use_cons, Hfree.
    + rewrite Ht2, length_insert. lia.
  - rewrite write_slot_at_end in Ht2.
    rewrite insert_app_r_alt, Nat.sub_diag in Ht2 by done. simpl in Ht2.
    split; [|split].
    + intros n. unfold lookup. fold tbl. rewrite Ht2.
      by apply lookup_from_app_free.
    + rewrite Ht2, names_in_use_app, names_in_use_cons. simpl.
      by rewrite app_nil_r.
    + rewrite Ht2, length_app. simpl. lia.
Qed.

(** The record of a removed name is taken again: after a successful
    [dir_remove], a successful [dir_add] in the directory writes at or
    before the freed offset and the table does not grow. *)
Theorem removed_slot_is_reused `{Storage} (st st1 st2 : gmap N inode)
    (d : dir) (name name' : string) (sector : N) (e : dir_entry) (ofs : nat) :
  lookup st d name = Some (e, ofs) →
  dir_remove st d name = (st1, true) →
  is_Some (st1 !! d_inode d) →
  dir_add st1 d name' sector = (st2, true) →
  length (table st2 (d_inode d)) = length (table st (d_inode d))
  ∧ ∃ k, k ≤ ofs
         ∧ inode_read_at st2 (d_inode d) k
           = Some (mk_dir_entry sector name' true).
Proof.
  intros Hlk Hr Hpres Ha.
  apply dir_remove_true in Hr as (e1 & ofs1 & Hlk1 & _ & Hall).
  rewrite Hlk in Hlk1. injection Hlk1 as <- <-.
  destruct (Hall (d_inode d)) as [[Hgone _] | [_ Ht1]];
    [rewrite Hgone in Hpres; by destruct Hpres|].
  rewrite decide_True in Ht1 by done.
  apply lookup_slot in Hlk as (Hslot & _). unfold inode_read_at in Hslot.
  pose proof (dir_add_table _ _ _ _ _ Ha) as Ht2.
  unfold inode_read_at. rewrite Ht2, Ht1. clear Ht2 Ha.
  set (tbl := table st (d_inode d)) in *.
  assert (Hfree : <[ofs := erase e]> tbl !! ofs = Some (erase e)).
  { apply list_lookup_insert_eq. by eapply lookup_lt_Some. }
  destruct (free_slot_from_spec (<[ofs := erase e]> tbl) 0)
    as (j & Hj & Hbefore & Hat).
  simpl in Hj. rewrite Hj.
  assert (Hle : j ≤ ofs).
  { destruct (decide (j ≤ ofs)) as [|Hgt]; [done|].
    by specialize (Hbefore ofs (erase e) ltac:(lia) Hfree). }
  destruct Hat as [(e0 & He0 & _) | ->].
  - rewrite (write_slot_at_free _ _ e0) by done. split.
    + by rewrite !length_insert.
    + exists j. split; [done|]. apply list_lookup_insert_eq.
      by eapply lookup_lt_Some.
  - apply lookup_lt_Some in Hfree. lia.
Qed.

(** ** Enumerating a directory *)

Lemma names_in_use_drop_free tbl k :
  (∀ j e, j < k → tbl !! j = Some e → in_use e = false) →
  names_in_use tbl = names_in_use (drop k tbl).
Proof.
  revert tbl. induction k as [|k IH]; intros tbl Hfree; [by rewrite drop_0|].
  destruct tbl as [|x tbl]; [done|].
  rewrite names_in_use_cons, (Hfree 0 x) by (done || lia). simpl.
  apply IH. intros j e Hj He. apply (Hfree (S j) e); [lia | done].
Qed.

Lemma readdir_all_names `{Storage} fuel st d :
  length (names_in_use (drop (pos d) (table st (d_inode d)))) < fuel →
  readdir_all fuel st d
  = (λ n, strlcpy n (NAME_MAX + 1))
      <$> names_in_use (drop (pos d) (table st (d_inode d))).
Proof.
  revert d. induction fuel as [|fuel IH]; intros d Hfuel; [lia|].
  simpl. unfold dir_readdir.
  pose proof (readdir_from_spec (drop (pos d) (table st (d_inode d))) (pos d))
    as Hs.
  destruct (readdir_from _ (pos d)) as [p' [nm|]].
  - destruct Hs as (k & e & Hk & Hu & Hfirst & -> & ->).
    rewrite (names_in_use_drop_free _ k Hfirst) in Hfuel |- *.
    rewrite drop_drop in Hfuel |- *.
    pose proof Hk as Hk'. rewrite lookup_drop in Hk'.
    rewrite (drop_S _ e (pos d + k) Hk') in Hfuel |- *.
    rewrite names_in_use_cons, Hu in Hfuel |- *. simpl in *.
    f_equal. apply (IH (mk_dir (d_inode d) (S (pos d + k)))). simpl. lia.
  - destruct Hs as [Hall _]. by rewrite names_in_use_free.
Qed.

(** Calling [dir_readdir] on a handle until it returns false yields
    the names in use from the cursor on, each once and in table order
    (cut to [NAME_MAX] characters), provided the caller allows one call
    more than there are names; and a directory is empty for
    [dir_is_empty] exactly when the first call on a fresh handle returns
    false. *)
Theorem readdir_enumerates `{Storage} (st : gmap N inode) (d : dir) :
  (∀ fuel,
     length (names_in_use (drop (pos d) (table st (d_inode d)))) < fuel →
     readdir_all fuel st d
     = (λ n, strlcpy n (NAME_MAX + 1))
         <$> names_in_use (drop (pos d) (table st (d_inode d))))
  ∧ (dir_is_empty st (d_inode d) = true
     ↔ (dir_readdir st (mk_dir (d_inode d) 0)).2 = None).
Proof.
  split; [intros fuel; apply readdir_all_names|].
  unfold dir_is_empty, dir_readdir. simpl. rewrite drop_0, all_free_spec.
  pose proof (readdir_from_spec (table st (d_inode d)) 0) as Hs.
  destruct (readdir_from _ 0) as [p' [nm|]]; simpl.
  - destruct Hs as (k & e & Hk & Hu & _). split; [|done].
    intros Hall. rewrite (Hall e) in Hu; [done|].
    apply list_elem_of_lookup. eauto.
  - by destruct Hs as [Hall _].
Qed.

(** ** The names in use are names [dir_add] accepted *)

Lemma run_op_valid `{Storage} st o s :
  valid_names (table st s) → valid_names (table (run_op st o).1 s).
Proof.
  intros Hv. unfold valid_names in *. destruct o as [d n x | d n]; simpl.
  - destruct (dir_add st d n x) as [st' [|]] eqn:Ha; simpl.
    + destruct (decide (s = d_inode d)) as [->|Hne].
      * rewrite (dir_add_table _ _ _ _ _ Ha), names_after_add by done.
        apply Forall_cons. split; [|done]. simpl.
        by apply dir_add_true in Ha as (? & ? & _).
      * by rewrite (dir_add_table_ne _ _ _ _ _ _ Ha).
    + by rewrite (dir_add_false _ _ _ _ _ _ Ha).
  - destruct (dir_remove st d n) as [st' [|]] eqn:Hr; simpl.
    + apply dir_remove_true in Hr as (e & ofs & Hlk & _ & Hall).
      destruct (Hall s) as [[Hgone _] | [_ Ht]].
      * rewrite table_absent by done. constructor.
      * rewrite Ht. case_decide as Hs; [subst s | done].
        apply lookup_slot in Hlk as (Hk & Hin & _). unfold inode_read_at in Hk.
        rewrite (names_after_erase _ _ _ Hk Hin) in Hv.
        by apply Forall_cons in Hv as [_ ?].
    + by rewrite (table_body _ _ _ (dir_remove_false _ _ _ _ Hr)).
Qed.

Lemma reachable_valid `{Storage} st :
  reachable st → ∀ s, valid_names (table st s).
Proof.
  induction 1 as [st Hfresh | st sector cnt isdir _ IH | st o _ IH]; intros s.
  - unfold valid_names. rewrite names_in_use_free; [constructor|].
    unfold table. destruct (st !! s) as [i|] eqn:Hs.
    + intros e He. specialize (Hfresh s i Hs).
      rewrite Forall_forall in Hfresh. by apply Hfresh.
    + by intros e He%elem_of_nil.
  - unfold inode_create. simpl. destruct (decide (sector = s)) as [->|Hne].
    + unfold valid_names, table. rewrite lookup_insert_eq. simpl.
      rewrite names_in_use_free; [constructor|].
      by intros e [-> _]%elem_of_replicate.
    + by rewrite table_insert_ne.
  - by apply run_op_valid.
Qed.

(** In every reachable state the names in use of every table are names
    [dir_add] accepts (not empty, at most [NAME_MAX] characters), so
    [dir_readdir] hands them out uncut: enumerating a fresh handle
    yields exactly the names in use, in table order. *)
Theorem names_stay_valid `{Storage} (st : gmap N inode) :
  reachable st →
  ∀ s, valid_names (table st s)
       ∧ ∀ fuel, length (names_in_use (table st s)) < fuel →
                 readdir_all fuel st (mk_dir s 0) = names_in_use (table st s).
Proof.
  intros Hreach s. pose proof (reachable_valid st Hreach s) as Hv.
  split; [done|]. intros fuel Hfuel.
  rewrite readdir_all_names by (simpl; by rewrite drop_0).
  simpl. rewrite drop_0. unfold valid_names in Hv. clear Hfuel.
  induction Hv as [|n ns [_ Hn] _ IH]; [done|].
  rewrite fmap_cons, IH. f_equal. apply strlcpy_fits. lia.
Qed.

(** ** [dir_lookup] *)

(** [dir_lookup] succeeds exactly when [lookup] finds the name and the
    sector of its record holds an inode.  It then returns that sector
    and holds one more reference on it, every other inode being as it
    was; when it fails the state is untouched.  In both cases no name,
    flag or parent has changed. *)
Theorem dir_lookup_takes_one_reference (st : gmap N inode) (d : dir)
    (name : string) :
  let r := dir_lookup st d name in
  (is_Some r.2 ↔
   ∃ e ofs, lookup st d name = Some (e, ofs) ∧ is_Some (st !! inode_sector e))
  ∧ (∀ s, r.2 = Some s →
       (∃ e ofs, lookup st d name = Some (e, ofs) ∧ inode_sector e = s)
       ∧ inode_get_open_cnt r.1 s = S (inode_get_open_cnt st s)
       ∧ ∀ x, x ≠ s → r.1 !! x = st !! x)
  ∧ (r.2 = None → r.1 = st)
  ∧ body <$> r.1 = body <$> st.
Proof.
  cbv zeta. unfold dir_lookup.
  destruct (lookup st d name) as [[e ofs]|] eqn:Hlk; simpl; last first.
  { split; [|done]. split; [by intros [] | by intros (? & ? & ? & _)]. }
  pose proof (inode_open_result st (inode_sector e)) as Hres.
  split; [|split; [|split]].
  - rewrite Hres. destruct (st !! inode_sector e) as [i|] eqn:Hi.
    + split; [eauto 6 | eauto].
    + split; [by intros [] |]. intros (e0 & ofs0 & [= <- <-] & [i Hi']).
      congruence.
  - intros s Hs. rewrite Hres in Hs.
    destruct (st !! inode_sector e) as [i|] eqn:Hi; [|done].
    injection Hs as <-. split; [eauto|]. split.
    + rewrite (inode_open_cnt _ _ i Hi). unfold inode_get_open_cnt.
      by rewrite Hi.
    + intros x Hx. by apply inode_open_lookup_ne.
  - intros Hn. rewrite Hres in Hn. unfold inode_open.
    by destruct (st !! inode_sector e).
  - apply inode_open_body.
Qed.

(** * Further properties of path resolution *)

(** ** The components of a path *)












(** ** The walk of [get_containing_dir] *)

Lemma one_if_same x : one_if x x = 1.
Proof. unfold one_if. by rewrite decide_True. Qed.

Lemma one_if_ne x y : x ≠ y → one_if x y = 0.
Proof. unfold one_if. intros. by rewrite decide_False. Qed.

Lemma inode_open_absent (st : gmap N inode) s :
  st !! s = None → inode_open st s = (st, None).
Proof. unfold inode_open. by intros ->. Qed.

Lemma inode_open_count (st : gmap N inode) s x :
  is_Some (st !! s) →
  inode_get_open_cnt (inode_open st s).1 x = inode_get_open_cnt st x + one_if x s.
Proof.
  intros [i Hi]. destruct (decide (x = s)) as [->|Hne].
  - rewrite (inode_open_cnt st s i Hi), one_if_same.
    unfold inode_get_open_cnt. rewrite Hi. lia.
  - rewrite one_if_ne by done. unfold inode_get_open_cnt.
    rewrite inode_open_lookup_ne by done. lia.
Qed.

Lemma inode_close_count (st : gmap N inode) s x :
  held st s →
  inode_get_open_cnt (inode_close st (Some s)) x + one_if x s
  = inode_get_open_cnt st x.
Proof.
  intros (i & Hi & Hc & Hr). destruct (decide (x = s)) as [->|Hne].
  - rewrite one_if_same. unfold inode_get_open_cnt, inode_close. rewrite Hi.
    destruct (Nat.eqb (Nat.pred (open_cnt i)) 0 && removed i) eqn:Hd.
    + apply andb_true_iff in Hd as [Hz Hrem]. apply Nat.eqb_eq in Hz.
      rewrite Hr in Hrem by lia. done.
    + rewrite lookup_insert_eq. destruct i; simpl in *. lia.
  - rewrite one_if_ne by done. unfold inode_get_open_cnt.
    rewrite inode_close_lookup_ne by done. lia.
Qed.

Lemma inode_get_parent_body (st st' : gmap N inode) s :
  body <$> st = body <$> st' → inode_get_parent st s = inode_get_parent st' s.
Proof.
  intros Hb. apply (body_lookup _ _ s) in Hb. unfold inode_get_parent.
  destruct (st !! s) as [i|], (st' !! s) as [i'|]; simpl in Hb; try done.
  by injection Hb as _ ? _.
Qed.

Lemma lookup_body (st st' : gmap N inode) d name :
  body <$> st = body <$> st' → lookup st d name = lookup st' d name.
Proof. intros Hb. unfold lookup. by rewrite (table_body st st' _ Hb). Qed.

Lemma step_sector_body (st st' : gmap N inode) s token :
  body <$> st = body <$> st' → step_sector st s token = step_sector st' s token.
Proof.
  intros Hb. unfold step_sector.
  rewrite (inode_get_parent_body st st' s Hb), (lookup_body st st' _ _ Hb).
  case_bool_decide; [done|].
  destruct (if bool_decide (token = "..") then _ else _) as [t|]; [|done].
  pose proof (body_lookup _ _ t Hb) as Ht.
  destruct (st !! t) as [i|], (st' !! t) as [i'|]; simpl in Ht; try done.
  injection Ht as Hd _ _. by rewrite Hd.
Qed.

Lemma resolve_body (st st' : gmap N inode) s token rest :
  body <$> st = body <$> st' → resolve st s token rest = resolve st' s token rest.
Proof.
  intros Hb. revert s token. induction rest as [|next rest IH]; intros s token; [done|].
  simpl. rewrite (step_sector_body st st' s token Hb).
  destruct (step_sector st' s token); [apply IH | done].
Qed.

Lemma walk_found (st : gmap N inode) s token :
  (if bool_decide (token = "..") then dir_get_parent st (mk_dir s 0)
   else dir_lookup st (mk_dir s 0) token)
  = match (if bool_decide (token = "..") then Some (inode_get_parent st s)
           else (λ r : dir_entry * nat, inode_sector r.1) <$> lookup st (mk_dir s 0) token) with
    | Some t => inode_open st t
    | None => (st, None)
    end.
Proof.
  case_bool_decide; [done|]. unfold dir_lookup.
  by destruct (lookup st (mk_dir s 0) token) as [[e o]|].
Qed.

Lemma walk_spec `{Malloc} (st : gmap N inode) s token rest :
  (∀ st, calloc_ok st = true) →
  held st s →
  ∃ st',
    walk st (Some (mk_dir s 0)) token rest
    = (st', Ok (if (resolve st s token rest).2
                then Some (mk_dir (resolve st s token rest).1 0) else None))
    ∧ body <$> st' = body <$> st
    ∧ held st' (resolve st s token rest).1
    ∧ ∀ x, inode_get_open_cnt st' x + one_if x s
           = inode_get_open_cnt st x + one_if x (resolve st s token rest).1.
Proof.
  intros Hmem.
  revert st s token. induction rest as [|next rest IH]; intros st s token Hh.
  { exists st. simpl. done. }
  simpl walk. simpl resolve. unfold step_sector.
  case_bool_decide as Hdot; [apply IH; done|].
  rewrite walk_found.
  destruct (if bool_decide (token = "..") then _ else _) as [t|];
    [|exists st; simpl; done].
  destruct (st !! t) as [i|] eqn:Ht;
    [|rewrite inode_open_absent by done; exists st; simpl; done].
  pose proof (inode_open_result st t) as Hres. rewrite Ht in Hres.
  pose proof (inode_open_body st t) as Hbody.
  pose proof (inode_open_held st t (mk_is_Some _ _ Ht)) as Hheld.
  pose proof (held_open st s t Hh) as Hhs.
  pose proof (inode_open_count st t) as Hcnt.
  destruct (inode_open st t) as [st1 found] eqn:Ho. simpl in *. subst found.
  assert (Hst1 : st1 = (inode_open st t).1) by (by rewrite Ho).
  assert (Hdir : inode_is_dir st1 t = is_dir i).
  { rewrite (inode_is_dir_body st1 st t Hbody). unfold inode_is_dir. by rewrite Ht. }
  rewrite Hdir. unfold dir_open. destruct (is_dir i).
  - rewrite Hmem. set (st2 := inode_close st1 (Some s)).
    assert (Hb2 : body <$> st2 = body <$> st).
    { unfold st2. by rewrite inode_close_body. }
    assert (Hh2 : held st2 t).
    { unfold st2. destruct (decide (t = s)) as [->|Hne].
      - by rewrite Hst1, open_close_id.
      - by apply held_close_ne. }
    destruct (IH st2 t next Hh2) as (st' & Hw & Hb' & Hh' & Hc').
    rewrite (resolve_body st2 st t next rest Hb2) in Hw, Hh', Hc'.
    exists st'. split; [done|]. split; [by rewrite Hb'|]. split; [done|].
    intros x. specialize (Hc' x).
    pose proof (inode_close_count st1 s x Hhs) as Hcl. fold st2 in Hcl.
    specialize (Hcnt x (mk_is_Some _ _ Ht)). lia.
  - set (st2 := inode_close st1 (Some t)).
    assert (Hb2 : body <$> st2 = body <$> st).
    { unfold st2. by rewrite inode_close_body. }
    assert (Hh2 : held st2 s).
    { unfold st2. destruct (decide (s = t)) as [->|Hne].
      - by rewrite Hst1, open_close_id.
      - by apply held_close_ne. }
    destruct (IH st2 s next Hh2) as (st' & Hw & Hb' & Hh' & Hc').
    rewrite (resolve_body st2 st s next rest Hb2) in Hw, Hh', Hc'.
    exists st'. split; [done|]. split; [by rewrite Hb'|]. split; [done|].
    intros x. specialize (Hc' x).
    pose proof (inode_close_count st1 t x Hheld) as Hcl. fold st2 in Hcl.
    specialize (Hcnt x (mk_is_Some _ _ Ht)). lia.
Qed.

Lemma inode_reopen_open (st : gmap N inode) s :
  held st s → inode_reopen st s = inode_open st s.
Proof.
  intros (i & Hi & Hc & _). unfold inode_reopen, inode_open. rewrite Hi.
  destruct (open_cnt i) as [|n] eqn:Hn; [lia | done].
Qed.

Lemma starting_dir_spec `{Malloc} (st : gmap N inode) cwd path :
  (∀ st, calloc_ok st = true) →
  is_Some (st !! ROOT_DIR_SECTOR) →
  (∀ wd, cwd = Some wd → held st (d_inode wd)) →
  ∃ st0,
    starting_dir st cwd path = (st0, Some (mk_dir (start_sector cwd path) 0))
    ∧ body <$> st0 = body <$> st
    ∧ held st0 (start_sector cwd path)
    ∧ ∀ x, inode_get_open_cnt st0 x
           = inode_get_open_cnt st x + one_if x (start_sector cwd path).
Proof.
  intros Hmem Hroot Hcwd.
  assert (Hopen : ∀ s, is_Some (st !! s) →
    ∃ st0, inode_open st s = (st0, Some s)
           ∧ body <$> st0 = body <$> st ∧ held st0 s
           ∧ ∀ x, inode_get_open_cnt st0 x = inode_get_open_cnt st x + one_if x s).
  { intros s Hs. exists (inode_open st s).1.
    pose proof (inode_open_result st s) as Hres. destruct Hs as [i Hi].
    rewrite Hi in Hres. split; [|split; [|split]].
    - rewrite <- Hres. by destruct (inode_open st s).
    - apply inode_open_body.
    - apply inode_open_held. by rewrite Hi.
    - intros x. apply inode_open_count. by rewrite Hi. }
  assert (Hr : ∃ st0, dir_open_root st = (st0, Some (mk_dir ROOT_DIR_SECTOR 0))
    ∧ body <$> st0 = body <$> st ∧ held st0 ROOT_DIR_SECTOR
    ∧ ∀ x, inode_get_open_cnt st0 x
           = inode_get_open_cnt st x + one_if x ROOT_DIR_SECTOR).
  { destruct (Hopen _ Hroot) as (st0 & Ho & ?). exists st0.
    unfold dir_open_root, dir_open. by rewrite Ho, Hmem. }
  assert (Hw : ∀ wd, cwd = Some wd →
    ∃ st0, dir_reopen st wd = (st0, Some (mk_dir (d_inode wd) 0))
    ∧ body <$> st0 = body <$> st ∧ held st0 (d_inode wd)
    ∧ ∀ x, inode_get_open_cnt st0 x
           = inode_get_open_cnt st x + one_if x (d_inode wd)).
  { intros wd Hwd. pose proof (Hcwd wd Hwd) as Hh.
    destruct (Hopen (d_inode wd)) as (st0 & Ho & ?).
    { destruct Hh as (i & -> & _). done. }
    exists st0. unfold dir_reopen, dir_open.
    by rewrite inode_reopen_open, Ho, Hmem. }
  unfold starting_dir, start_sector.
  destruct path as [|c path], cwd as [wd|]; try done.
  - by apply Hw.
  - case_bool_decide; [done | by apply Hw].
Qed.

Lemma get_containing_dir_spec `{Malloc} (st : gmap N inode) cwd path token rest :
  (∀ st, calloc_ok st = true) →
  is_Some (st !! ROOT_DIR_SECTOR) →
  (∀ wd, cwd = Some wd → held st (d_inode wd)) →
  strtok_all path = token :: rest →
  ∃ st',
    get_containing_dir st cwd path
    = (st', Ok (if (resolve st (start_sector cwd path) token rest).2
                then Some (mk_dir (resolve st (start_sector cwd path) token rest).1 0)
                else None))
    ∧ body <$> st' = body <$> st
    ∧ ∀ x, inode_get_open_cnt st' x
           = inode_get_open_cnt st x
             + one_if x (resolve st (start_sector cwd path) token rest).1.
Proof.
  intros Hmem Hroot Hcwd Htok.
  destruct (starting_dir_spec st cwd path Hmem Hroot Hcwd)
    as (st0 & Hs & Hb0 & Hh0 & Hc0).
  destruct (walk_spec st0 (start_sector cwd path) token rest Hmem Hh0)
    as (st' & Hw & Hb' & _ & Hc').
  rewrite (resolve_body st0 st _ token rest Hb0) in Hw, Hc'.
  exists st'. unfold get_containing_dir. rewrite Hs, Htok.
  split; [done|]. split; [by rewrite Hb'|].
  intros x. specialize (Hc' x). specialize (Hc0 x). lia.
Qed.

(** [get_containing_dir] on a path with at least one component, as
    long as [calloc] finds the memory for the handles: the handle
    returned is on the sector [resolve] computes from the contents of
    the disk, at position [0], the null pointer when a component is
    missing; and neither the kind, the parent nor the records of any
    inode change. *)
Theorem get_containing_dir_result `{Malloc} (st : gmap N inode) cwd path
    token rest :
  (∀ st, calloc_ok st = true) →
  is_Some (st !! ROOT_DIR_SECTOR) →
  (∀ wd, cwd = Some wd → held st (d_inode wd)) →
  strtok_all path = token :: rest →
  (get_containing_dir st cwd path).2
  = Ok (if (resolve st (start_sector cwd path) token rest).2
        then Some (mk_dir (resolve st (start_sector cwd path) token rest).1 0)
        else None)
  ∧ body <$> (get_containing_dir st cwd path).1 = body <$> st.
Proof.
  intros Hmem Hroot Hcwd Htok.
  destruct (get_containing_dir_spec st cwd path token rest Hmem Hroot Hcwd Htok)
    as (st' & -> & Hb & _).
  done.
Qed.

(** The path [/a/b/x] in [demo_fs]: the directory at sector [4]. *)
Lemma get_containing_dir_result_witness :
  (@get_containing_dir plain_malloc demo_fs None "/a/b/x").2
  = Ok (Some (mk_dir 4 0))
  ∧ body <$> (@get_containing_dir plain_malloc demo_fs None "/a/b/x").1
    = body <$> demo_fs.
Proof.
  apply (@get_containing_dir_result plain_malloc demo_fs None "/a/b/x"
           "a" ["b"; "x"]).
  - done.
  - by vm_compute; eauto.
  - discriminate.
  - reflexivity.
Defined.

(** As long as [calloc] finds the memory for the handles,
    [get_containing_dir] leaves every open count as it was, but for one
    more reference on the last directory the walk reached: the one the
    handle returned stands for, and also the one nobody can close when
    the null pointer is returned for a missing component. *)
Theorem get_containing_dir_references `{Malloc} (st : gmap N inode) cwd path
    token rest :
  (∀ st, calloc_ok st = true) →
  is_Some (st !! ROOT_DIR_SECTOR) →
  (∀ wd, cwd = Some wd → held st (d_inode wd)) →
  strtok_all path = token :: rest →
  ∀ x, inode_get_open_cnt (get_containing_dir st cwd path).1 x
       = inode_get_open_cnt st x
         + one_if x (resolve st (start_sector cwd path) token rest).1.
Proof.
  intros Hmem Hroot Hcwd Htok.
  destruct (get_containing_dir_spec st cwd path token rest Hmem Hroot Hcwd Htok)
    as (st' & -> & _ & Hc).
  done.
Qed.

(** The path [/a/nope/x] in [demo_fs]: the null pointer, and a reference
    on the directory at sector [3] that stays. *)
Lemma get_containing_dir_references_witness :
  (@get_containing_dir plain_malloc demo_fs None "/a/nope/x").2 = Ok None
  ∧ ∀ x, inode_get_open_cnt
           (@get_containing_dir plain_malloc demo_fs None "/a/nope/x").1 x
         = inode_get_open_cnt demo_fs x + one_if x 3.
Proof.
  split; [reflexivity|].
  apply (@get_containing_dir_references plain_malloc demo_fs None "/a/nope/x"
           "a" ["nope"; "x"]).
  - done.
  - by vm_compute; eauto.
  - discriminate.
  - reflexivity.
Defined.

(** ** [get_containing_dir] without memory *)

Lemma walk_null `{Malloc} (st : gmap N inode) token rest :
  walk st None token rest
  = (st, if bool_decide (Forall (λ t, t = ".") (removelast (token :: rest)))
         then Ok None else Undef).
Proof.
  revert token. induction rest as [|next rest IH]; intros token; [done|].
  change (removelast (token :: next :: rest))
    with (token :: removelast (next :: rest)).
  simpl walk. case_bool_decide as Hdot.
  - rewrite IH. f_equal. subst token.
    destruct (bool_decide (Forall _ (removelast (next :: rest)))) eqn:Hr.
    + apply bool_decide_eq_true in Hr.
      by rewrite bool_decide_eq_true_2 by (by constructor).
    + apply bool_decide_eq_false in Hr.
      rewrite bool_decide_eq_false_2; [done|].
      by intros [_ ?]%Forall_cons.
  - rewrite bool_decide_eq_false_2; [done|]. by intros [? _]%Forall_cons.
Qed.

(** When [calloc] has no memory for the first handle,
    [get_containing_dir] goes on with the null pointer: it returns it
    if every component before the last is [.], and otherwise hands it
    to [dir_lookup] or [dir_get_parent], which do not take it. *)
Theorem get_containing_dir_without_memory `{Malloc} (st : gmap N inode) cwd
    path token rest :
  (∀ st, calloc_ok st = false) →
  strtok_all path = token :: rest →
  (get_containing_dir st cwd path).2
  = if bool_decide (Forall (λ t, t = ".") (removelast (token :: rest)))
    then Ok None else Undef.
Proof.
  intros Hmem Htok. unfold get_containing_dir. rewrite Htok.
  assert (Hopen : ∀ st1 ino, (dir_open st1 ino).2 = None).
  { intros st1 [i|]; unfold dir_open; [by rewrite Hmem | done]. }
  assert (Hstart : (starting_dir st cwd path).2 = None).
  { unfold starting_dir, dir_open_root, dir_reopen.
    destruct path as [|c path], cwd as [wd|];
      repeat case_bool_decide;
      repeat match goal with
             | |- context [inode_open ?a ?b] => destruct (inode_open a b)
             | |- context [inode_reopen ?a ?b] => destruct (inode_reopen a b)
             end; apply Hopen. }
  destruct (starting_dir st cwd path) as [st0 d]. simpl in Hstart. subst d.
  by rewrite walk_null.
Qed.

(** The paths [/./x] and [/a/x] in [demo_fs], on a heap that has run
    out. *)
Lemma get_containing_dir_without_memory_witness :
  (@get_containing_dir empty_malloc demo_fs None "/./x").2 = Ok None
  ∧ (@get_containing_dir empty_malloc demo_fs None "/a/x").2 = Undef.
Proof.
  split.
  - apply (@get_containing_dir_without_memory empty_malloc demo_fs None "/./x"
             "." ["x"]); done.
  - apply (@get_containing_dir_without_memory empty_malloc demo_fs None "/a/x"
             "a" ["x"]); done.
Defined.

(** ** Instances of the properties above *)

(** [x] added to the root directory of [blank_fs] for the file in
    sector [7], and removed again. *)
Lemma add_remove_restores_lookups_witness :
  (∀ n, lookup (@dir_remove plain_storage
                  (@dir_add plain_storage blank_fs root_dir "x" 7).1 root_dir "x").1
               root_dir n
        = lookup blank_fs root_dir n)
  ∧ names_in_use
      (table (@dir_remove plain_storage
                (@dir_add plain_storage blank_fs root_dir "x" 7).1 root_dir "x").1 1)
    = names_in_use (table blank_fs 1)
  ∧ length (table blank_fs 1)
    ≤ length
        (table (@dir_remove plain_storage
                  (@dir_add plain_storage blank_fs root_dir "x" 7).1 root_dir "x").1 1)
    ≤ S (length (table blank_fs 1)).
Proof.
  apply (@add_remove_restores_lookups plain_storage blank_fs
           (@dir_add plain_storage blank_fs root_dir "x" 7).1
           (@dir_remove plain_storage
              (@dir_add plain_storage blank_fs root_dir "x" 7).1 root_dir "x").1
           root_dir "x" 7%N).
  - reflexivity.
  - reflexivity.
  - discriminate.
Defined.

(** [x] removed from the root directory, and [y] added: [y] is in the
    record [x] had, the first one. *)
Lemma removed_slot_is_reused_witness :
  length
    (table (@dir_add plain_storage
              (@dir_remove plain_storage
                 (@dir_add plain_storage blank_fs root_dir "x" 7).1 root_dir "x").1
              root_dir "y" 7).1 1)
  = length (table (@dir_add plain_storage blank_fs root_dir "x" 7).1 1)
  ∧ ∃ k, k ≤ 0
         ∧ inode_read_at
             (@dir_add plain_storage
                (@dir_remove plain_storage
                   (@dir_add plain_storage blank_fs root_dir "x" 7).1 root_dir "x").1
                root_dir "y" 7).1 1 k
           = Some (mk_dir_entry 7 "y" true).
Proof.
  apply (@removed_slot_is_reused plain_storage
           (@dir_add plain_storage blank_fs root_dir "x" 7).1
           (@dir_remove plain_storage
              (@dir_add plain_storage blank_fs root_dir "x" 7).1 root_dir "x").1
           (@dir_add plain_storage
              (@dir_remove plain_storage
                 (@dir_add plain_storage blank_fs root_dir "x" 7).1 root_dir "x").1
              root_dir "y" 7).1
           root_dir "x" "y" 7%N (mk_dir_entry 7 "x" true) 0).
  - reflexivity.
  - reflexivity.
  - by vm_compute; eauto.
  - reflexivity.
Defined.

(** The root directory of [blank_fs] after [x] and [y] were added and
    [x] was removed. *)
Lemma names_stay_valid_witness :
  @valid_names plain_storage
    (table (@run_ops plain_storage blank_fs
              [OpAdd root_dir "x" 7; OpAdd root_dir "y" 7; OpRemove root_dir "x"]) 1)
  ∧ ∀ fuel,
      length (names_in_use
                (table (@run_ops plain_storage blank_fs
                          [OpAdd root_dir "x" 7; OpAdd root_dir "y" 7;
                           OpRemove root_dir "x"]) 1)) < fuel →
      @readdir_all plain_storage fuel
        (@run_ops plain_storage blank_fs
           [OpAdd root_dir "x" 7; OpAdd root_dir "y" 7; OpRemove root_dir "x"])
        (mk_dir 1 0)
      = names_in_use
          (table (@run_ops plain_storage blank_fs
                    [OpAdd root_dir "x" 7; OpAdd root_dir "y" 7;
                     OpRemove root_dir "x"]) 1).
Proof.
  apply (@names_stay_valid plain_storage).
  do 3 apply (@reachable_op plain_storage).
  apply reachable_fresh, blank_fs_fresh.
Defined.

(** * Further properties of the system calls *)

(** ** The checks of [syscall_handler] *)

Lemma check_valid_address_ok `{Kernel} (w : world) (address : Z) :
  valid_address w address → check_valid_address address w = (w, Ok ()).
Proof.
  intros (Hnz & Huser & Hmap). unfold check_valid_address, is_user_vaddr, mapped.
  by rewrite (bool_decide_eq_false_2 (address = 0%Z)),
    (bool_decide_eq_true_2 (address < PHYS_BASE)%Z),
    (bool_decide_eq_true_2 (is_Some (u_mem w address))).
Qed.

Lemma check_valid_address_bad `{Kernel} (w : world) (address : Z) :
  ¬ valid_address w address → check_valid_address address w = exit (-1) w.
Proof.
  intros Hbad. unfold check_valid_address, is_user_vaddr, mapped.
  repeat case_bool_decide; simpl; try done.
  by destruct Hbad.
Qed.

(** A trap with a stack pointer that is null, not below [PHYS_BASE] or
    not mapped, or with a number the handler has no case for, ends the
    process through [exit (-1)]: the status is -1, the exit line is
    printed, and the file system, the descriptors and the user memory
    are as they were. *)
Theorem syscall_handler_rejects_bad_frame `{Storage} `{Kernel} (w : world)
    (esp : Z) :
  ¬ valid_address w esp
  ∨ (∃ n, load_int esp w = (w, Ok n) ∧ syscall_nr_of n = None) →
  (syscall_handler esp w).2 = Exit (-1)
  ∧ t_exit_status (syscall_handler esp w).1 = (-1)%Z
  ∧ console (syscall_handler esp w).1 = console w ++ [ExitLine (t_name w) (-1)]
  ∧ w_fs (syscall_handler esp w).1 = w_fs w
  ∧ t_files (syscall_handler esp w).1 = t_files w
  ∧ u_mem (syscall_handler esp w).1 = u_mem w.
Proof.
  intros Hbad.
  assert (Hexit : syscall_handler esp w = exit (-1) w).
  { unfold syscall_handler, sys_bind.
    destruct (decide (valid_address w esp)) as [Hv|Hv].
    - destruct Hbad as [? | (n & Hn & Hnr)]; [done|].
      by rewrite (check_valid_address_ok w esp Hv), Hn, Hnr.
    - by rewrite (check_valid_address_bad w esp Hv). }
  by rewrite Hexit.
Qed.

(** A trap of [demo_world] with the null stack pointer, and one with
    the number 99. *)
Lemma syscall_handler_rejects_bad_frame_witness :
  ((@syscall_handler plain_storage plain_kernel 0 (demo_world [])).2 = Exit (-1)
   ∧ t_exit_status (@syscall_handler plain_storage plain_kernel 0 (demo_world []))
                   .1 = (-1)%Z
   ∧ console (@syscall_handler plain_storage plain_kernel 0 (demo_world [])).1
     = console (demo_world []) ++ [ExitLine "main" (-1)]
   ∧ w_fs (@syscall_handler plain_storage plain_kernel 0 (demo_world [])).1
     = demo_fs
   ∧ t_files (@syscall_handler plain_storage plain_kernel 0 (demo_world [])).1
     = t_files (demo_world [])
   ∧ u_mem (@syscall_handler plain_storage plain_kernel 0 (demo_world [])).1
     = u_mem (demo_world []))
  ∧ (@syscall_handler plain_storage plain_kernel demo_esp (demo_world [99%Z])).2
    = Exit (-1).
Proof.
  split.
  - apply (@syscall_handler_rejects_bad_frame plain_storage plain_kernel
             (demo_world []) 0).
    left. intros (Hnz & _). done.
  - apply (@syscall_handler_rejects_bad_frame plain_storage plain_kernel
             (demo_world [99%Z]) demo_esp).
    right. exists 99%Z. split; reflexivity.
Defined.

(** ** The descriptor argument of the directory calls *)

Lemma slot_upper_half (esp : Z) :
  (2 ^ 31 ≤ esp + 4 < 2 ^ 32)%Z →
  slot esp 1 = (esp + 4)%Z ∧ (to_int (slot esp 1) < 0)%Z.
Proof.
  intros Hesp. unfold slot.
  replace (esp + 4 * 1)%Z with (esp + 4)%Z by lia.
  rewrite to_unsigned_small by lia. split; [done|].
  unfold to_int.
  replace ((esp + 4 + 2 ^ 31) mod 2 ^ 32)%Z with (esp + 4 - 2 ^ 31)%Z; [lia|].
  apply (Z.mod_unique _ _ 1); lia.
Qed.

Lemma find_file_elem_in_None (l : list file_elem) (fd : Z) :
  find_file_elem_in l fd = None ↔ Forall (λ fe, fe_fd fe ≠ fd) l.
Proof.
  induction l as [|fe l IH]; simpl.
  - split; [constructor | done].
  - case_bool_decide as Hfd.
    + split; [done|]. intros [? _]%Forall_cons. done.
    + rewrite IH. split; [by constructor | by intros [_ ?]%Forall_cons].
Qed.

(** The cases [SYS_READDIR], [SYS_ISDIR] and [SYS_INUMBER] hand the
    address of the stack slot on as descriptor.  For a stack in the
    upper half of the address space, where Pintos puts it, that is a
    negative number: with no negative descriptor in the list of the
    thread, the three calls return 0 whatever the slot holds, and
    change nothing. *)
Theorem directory_calls_miss_descriptor `{Storage} `{Kernel} (w : world)
    (esp n : Z) (nr : syscall_nr) :
  valid_address w esp →
  load_int esp w = (w, Ok n) →
  syscall_nr_of n = Some nr →
  (2 ^ 31 ≤ esp + 4 < 2 ^ 32)%Z →
  valid_address w (esp + 4) →
  Forall (λ fe, 0 ≤ fe_fd fe)%Z (t_files w) →
  (nr = SYS_ISDIR ∨ nr = SYS_INUMBER → syscall_handler esp w = (w, Ok 0%Z))
  ∧ (nr = SYS_READDIR →
     ∀ name, load_word (slot esp 2) w = (w, Ok name) → valid_address w name →
             syscall_handler esp w = (w, Ok 0%Z)).
Proof.
  intros Hesp Hn Hnr Hhalf Harg Hfds.
  destruct (slot_upper_half esp Hhalf) as [Hslot Hneg].
  assert (Hfind : find_file_elem w (to_int (slot esp 1)) = None).
  { apply find_file_elem_in_None. eapply Forall_impl; [exact Hfds|].
    simpl. intros fe Hfe. lia. }
  rewrite <- Hslot in Harg.
  split.
  - intros [-> | ->]; unfold syscall_handler, sys_bind;
      rewrite (check_valid_address_ok w esp Hesp), Hn, Hnr,
        (check_valid_address_ok w _ Harg).
    + unfold isdir. by rewrite Hfind.
    + unfold inumber. by rewrite Hfind.
  - intros -> name Hname Hvalid. unfold syscall_handler, sys_bind.
    rewrite (check_valid_address_ok w esp Hesp), Hn, Hnr,
      (check_valid_address_ok w _ Harg), Hname,
      (check_valid_address_ok w _ Hvalid).
    unfold readdir. by rewrite Hfind.
Qed.

(** [SYS_ISDIR] on descriptor 2 of [demo_world], a directory. *)
Lemma directory_calls_miss_descriptor_witness :
  (∃ fe, find_file_elem (demo_world [18; 2]%Z) 2 = Some fe ∧ fe_isdir fe = true)
  ∧ @syscall_handler plain_storage plain_kernel demo_esp (demo_world [18; 2]%Z)
    = (demo_world [18; 2]%Z, Ok 0%Z).
Proof.
  split; [by eexists|].
  refine (proj1 (@directory_calls_miss_descriptor plain_storage plain_kernel
                   (demo_world [18; 2]%Z) demo_esp 18%Z SYS_ISDIR
                   _ _ _ _ _ _) _).
  - split; [done|]. split; [done|]. by vm_compute; eauto.
  - reflexivity.
  - reflexivity.
  - by vm_compute.
  - split; [done|]. split; [done|]. by vm_compute; eauto.
  - repeat constructor; by vm_compute.
  - by left.
Defined.

(** * The calls on files *)

(** ** The descriptors of a thread *)

Lemma set_world_same (m : machine) : set_world (m_world m) m = m.
Proof. by destruct m. Qed.

Lemma lift_ok {A} (c : sys A) (m : machine) (a : A) :
  c (m_world m) = (m_world m, Ok a) → lift c m = (m, Ok a).
Proof. unfold lift. intros ->. by rewrite set_world_same. Qed.

Lemma strlen_world (s : Z) (w : world) : (strlen s w).1 = w.
Proof. unfold strlen. by destruct (strlen_from _ _ _ _). Qed.

Lemma find_file_elem_in_Some (l : list file_elem) (fd : Z) (fe : file_elem) :
  find_file_elem_in l fd = Some fe → fe ∈ l ∧ fe_fd fe = fd.
Proof.
  induction l as [|x l IH]; simpl; [done|].
  case_bool_decide as Hfd.
  - intros [= <-]. split; [by left | done].
  - intros Hf. destruct (IH Hf). split; [by right | done].
Qed.

Lemma find_file_elem_in_app (l : list file_elem) (fe : file_elem) (fd : Z) :
  find_file_elem_in (l ++ [fe]) fd
  = match find_file_elem_in l fd with
    | Some x => Some x
    | None => if bool_decide (fe_fd fe = fd) then Some fe else None
    end.
Proof.
  induction l as [|x l IH]; simpl; [done|].
  destruct (bool_decide (fe_fd x = fd)); [done | apply IH].
Qed.

Lemma find_list_remove_ne (l : list file_elem) (fd fd' : Z) :
  fd' ≠ fd →
  find_file_elem_in (list_remove l fd) fd' = find_file_elem_in l fd'.
Proof.
  intros Hne. induction l as [|x l IH]; simpl; [done|].
  case_bool_decide as Hx.
  - rewrite bool_decide_eq_false_2 by congruence. done.
  - simpl. by rewrite IH.
Qed.

Lemma find_list_remove_eq (l : list file_elem) (fd : Z) :
  NoDup (fe_fd <$> l) → find_file_elem_in (list_remove l fd) fd = None.
Proof.
  induction l as [|x l IH]; simpl; [done|].
  intros [Hx Hl]%NoDup_cons. case_bool_decide as Hfd.
  - apply find_file_elem_in_None, Forall_forall. intros fe Hfe Heq.
    apply Hx. rewrite Hfd, <- Heq. by apply list_elem_of_fmap_2.
  - simpl. rewrite bool_decide_eq_false_2 by done. by apply IH.
Qed.

Lemma list_remove_sublist (l : list file_elem) (fd : Z) :
  sublist (list_remove l fd) l.
Proof.
  induction l as [|x l IH]; simpl; [done|].
  case_bool_decide; [by apply sublist_cons | by apply sublist_skip].
Qed.

Lemma list_remove_last (l : list file_elem) (fe : file_elem) :
  find_file_elem_in l (fe_fd fe) = None → list_remove (l ++ [fe]) (fe_fd fe) = l.
Proof.
  induction l as [|x l IH]; simpl.
  - by rewrite bool_decide_eq_true_2.
  - case_bool_decide; [done|]. intros Hf. by rewrite IH.
Qed.

Lemma list_remove_length (l : list file_elem) (fd : Z) (fe : file_elem) :
  find_file_elem_in l fd = Some fe → S (length (list_remove l fd)) = length l.
Proof.
  induction l as [|x l IH]; simpl; [done|].
  case_bool_decide; [done|]. intros Hf. simpl. by rewrite IH.
Qed.

Lemma fds_fresh_unknown (m : machine) (fd : Z) :
  fds_fresh m → (fd_counter m ≤ fd)%Z → find_file_elem (m_world m) fd = None.
Proof.
  intros (_ & Hall & _) Hfd. apply find_file_elem_in_None.
  eapply Forall_impl; [exact Hall|]. simpl. intros fe Hfe. lia.
Qed.

Lemma open_spec `{Filesys} (m m' : machine) (file fd : Z) :
  fds_fresh m →
  open file m = (m', Ok fd) →
  fds_fresh m'
  ∧ ((fd = (-1)%Z ∧ t_files (m_world m') = t_files (m_world m)
      ∧ fd_counter m' = fd_counter m)
     ∨ (fd = fd_counter m ∧ (2 ≤ fd)%Z ∧ fd_counter m' = (fd + 1)%Z
        ∧ find_file_elem (m_world m) fd = None
        ∧ (∃ fe, t_files (m_world m') = t_files (m_world m) ++ [fe]
                 ∧ fe_fd fe = fd
                 ∧ find_file_elem (m_world m') fd = Some fe
                 ∧ inode_is_dir (w_fs (m_world m'))
                     (if fe_isdir fe then d_inode (fe_dir fe)
                      else f_inode (fe_file fe))
                   = fe_isdir fe)
        ∧ ∀ fd', fd' ≠ fd →
                 find_file_elem (m_world m') fd' = find_file_elem (m_world m) fd')).
Proof.
  intros Hfresh. unfold open.
  case_bool_decide as Hnull.
  { intros [= <- <-]. split; [done|]. by left. }
  unfold ksys_bind at 1. unfold lift.
  pose proof (strlen_world file (m_world m)) as Hw.
  destruct (strlen file (m_world m)) as [w [n| |]]; simpl in Hw; subst w;
    rewrite set_world_same; [|done..].
  case_bool_decide as Hempty.
  { intros [= <- <-]. split; [done|]. by left. }
  destruct (filesys_open _ _ _ _) as [st1 [f|]].
  2:{ intros [= <- <-]. split; [exact Hfresh|]. by left. }
  destruct (malloc_file_elem _) as [blk|].
  2:{ intros [= <- <-]. split; [exact Hfresh|]. by left. }
  unfold ksys_bind, alloc_fd. simpl.
  case_bool_decide as Hmax; [|done].
  intros [= <- <-]. destruct Hfresh as (Htwo & Hall & Hnd).
  assert (Hnone : find_file_elem (m_world m) (fd_counter m) = None).
  { apply fds_fresh_unknown; [done | lia]. }
  split.
  - split; [simpl; lia|]. simpl. split.
    + apply Forall_app. split.
      * eapply Forall_impl; [exact Hall|]. simpl. intros fe Hfe. lia.
      * constructor; [simpl; lia | constructor].
    + rewrite fmap_app. apply NoDup_app. split; [done|]. split.
      * intros x Hx [->|[]%elem_of_nil]%elem_of_cons.
        apply list_elem_of_fmap in Hx as (fe & Hfd & Hfe).
        rewrite Forall_forall in Hall. specialize (Hall fe Hfe).
        destruct (inode_is_dir st1 (file_get_inode f)); simpl in Hfd; lia.
      * apply NoDup_singleton.
  - right. split; [done|]. split; [done|]. split; [done|]. split; [done|].
    split.
    + eexists. split; [reflexivity|]. split; [done|].
      unfold find_file_elem in *. simpl. rewrite find_file_elem_in_app, Hnone.
      simpl. rewrite bool_decide_eq_true_2 by done. split; [done|].
      unfold file_get_inode. by destruct (inode_is_dir st1 (f_inode f)) eqn:Hd.
    + intros fd' Hne. unfold find_file_elem. simpl.
      rewrite find_file_elem_in_app. destruct (find_file_elem_in _ fd'); [done|].
      simpl. by rewrite bool_decide_eq_false_2.
Qed.

Lemma open_never_exits `{Filesys} (m : machine) (file : Z) (s : Z) :
  (open file m).2 ≠ Exit s.
Proof.
  unfold open. case_bool_decide; [done|].
  unfold ksys_bind at 1. unfold lift, strlen.
  destruct (strlen_from _ _ _ _); [|done].
  case_bool_decide; [done|].
  destruct (filesys_open _ _ _ _) as [st1 [f|]]; [|done].
  destruct (malloc_file_elem _); [|done].
  unfold ksys_bind, alloc_fd. by case_bool_decide.
Qed.

Lemma open_returns `{Filesys} (m : machine) (file : Z) :
  (fd_counter m < INT_MAX)%Z →
  file = 0%Z ∨ (∃ n, strlen file (m_world m) = (m_world m, Ok n)) →
  ∃ m' fd, open file m = (m', Ok fd).
Proof.
  intros Hmax Hname. unfold open. case_bool_decide as Hnull; [by eexists _, _|].
  destruct Hname as [? | [n Hn]]; [done|].
  unfold ksys_bind at 1. rewrite (lift_ok _ m n Hn).
  case_bool_decide; [by eexists _, _|].
  destruct (filesys_open _ _ _ _) as [st1 [f|]]; [|by eexists _, _].
  destruct (malloc_file_elem _); [|by eexists _, _].
  unfold ksys_bind, alloc_fd. simpl.
  rewrite bool_decide_eq_true_2 by done. by eexists _, _.
Qed.

(** [open] never ends the process, whatever it is called with.  With
    the descriptors of the thread distinct and handed out by
    [alloc_fd], a counter below [INT_MAX] and a name that is null or
    ends within user memory, it returns.  When it returns -1 the
    descriptors and the counter are as they were.  Otherwise it returns
    the value of the counter, a descriptor at least 2 that no element
    of the thread had: the new element is the last of the list, it is
    found under that descriptor, its flag tells whether the inode it
    was opened on is a directory, and every other descriptor finds what
    it found before. *)
Theorem open_gives_fresh_descriptor `{Filesys} (m : machine) (file : Z) :
  fds_fresh m →
  (fd_counter m < INT_MAX)%Z →
  file = 0%Z ∨ (∃ n, strlen file (m_world m) = (m_world m, Ok n)) →
  (∀ m0 file0 s, (open file0 m0).2 ≠ Exit s)
  ∧ ∃ m' fd,
      open file m = (m', Ok fd)
      ∧ fds_fresh m'
      ∧ ((fd = (-1)%Z ∧ t_files (m_world m') = t_files (m_world m)
          ∧ fd_counter m' = fd_counter m)
         ∨ (fd = fd_counter m ∧ (2 ≤ fd)%Z ∧ fd_counter m' = (fd + 1)%Z
            ∧ find_file_elem (m_world m) fd = None
            ∧ (∃ fe, t_files (m_world m') = t_files (m_world m) ++ [fe]
                     ∧ fe_fd fe = fd
                     ∧ find_file_elem (m_world m') fd = Some fe
                     ∧ inode_is_dir (w_fs (m_world m'))
                         (if fe_isdir fe then d_inode (fe_dir fe)
                          else f_inode (fe_file fe))
                       = fe_isdir fe)
            ∧ ∀ fd', fd' ≠ fd →
                     find_file_elem (m_world m') fd'
                     = find_file_elem (m_world m) fd')).
Proof.
  intros Hfresh Hmax Hname. split; [intros m0 file0 s; apply open_never_exits|].
  destruct (open_returns m file Hmax Hname) as (m' & fd & Ho).
  exists m', fd. split; [done|]. exact (open_spec m m' file fd Hfresh Ho).
Qed.

Lemma close_spec `{Filesys} (m : machine) (fd : Z) (fe : file_elem) :
  fds_fresh m →
  find_file_elem (m_world m) fd = Some fe →
  ∃ m',
    close fd m = (m', Ok ())
    ∧ fds_fresh m'
    ∧ t_files (m_world m') = list_remove (t_files (m_world m)) fd
    ∧ find_file_elem (m_world m') fd = None
    ∧ (∀ fd', fd' ≠ fd →
              find_file_elem (m_world m') fd' = find_file_elem (m_world m) fd')
    ∧ S (length (t_files (m_world m'))) = length (t_files (m_world m))
    ∧ fd_counter m' = fd_counter m
    ∧ (fd < fd_counter m')%Z.
Proof.
  intros (Htwo & Hall & Hnd) Hfind. unfold close. rewrite Hfind.
  eexists. split; [reflexivity|]. simpl.
  pose proof (list_remove_sublist (t_files (m_world m)) fd) as Hsub.
  destruct (find_file_elem_in_Some _ _ _ Hfind) as [Hin Hfd].
  split; [|split; [done|]; split; [|split; [|split; [|split; [done|]]]]].
  - split; [done|]. split.
    + rewrite Forall_forall in Hall |- *. intros x Hx.
      apply Hall. by eapply elem_of_sublist.
    + eapply sublist_NoDup; [exact Hnd|]. by apply fmap_sublist.
  - by apply find_list_remove_eq.
  - intros fd' Hne. by apply find_list_remove_ne.
  - by eapply list_remove_length.
  - rewrite Forall_forall in Hall. specialize (Hall fe Hin). lia.
Qed.

(** [close] on a descriptor of the thread returns, and the descriptor
    is gone: it finds nothing any more, the list is one element
    shorter, and every other descriptor finds what it found before.
    The counter is not set back, so no later [open] returns that
    descriptor again. *)
Theorem close_forgets_descriptor `{Filesys} (m : machine) (fd : Z)
    (fe : file_elem) :
  fds_fresh m →
  find_file_elem (m_world m) fd = Some fe →
  ∃ m',
    close fd m = (m', Ok ())
    ∧ fds_fresh m'
    ∧ find_file_elem (m_world m') fd = None
    ∧ (∀ fd', fd' ≠ fd →
              find_file_elem (m_world m') fd' = find_file_elem (m_world m) fd')
    ∧ S (length (t_files (m_world m'))) = length (t_files (m_world m))
    ∧ ∀ file m'' fd', open file m' = (m'', Ok fd') →
                      fd' = (-1)%Z ∨ (fd < fd')%Z.
Proof.
  intros Hfresh Hfind.
  destruct (close_spec m fd fe Hfresh Hfind)
    as (m' & Hc & Hfresh' & _ & Hgone & Hothers & Hlen & _ & Hlt).
  exists m'. repeat (split; [done|]).
  intros file m'' fd' Ho.
  destruct (open_spec m' m'' file fd' Hfresh' Ho) as [_ [[-> _] | [-> _]]];
    [by left | by right].
Qed.

(** A descriptor [open] returned can be closed, and the list of the
    thread is then what it was before the [open]; the counter has
    moved on by one. *)
Theorem open_close_roundtrip `{Filesys} (m m1 : machine) (file fd : Z) :
  fds_fresh m →
  open file m = (m1, Ok fd) →
  fd ≠ (-1)%Z →
  ∃ m2, close fd m1 = (m2, Ok ())
        ∧ t_files (m_world m2) = t_files (m_world m)
        ∧ fd_counter m2 = (fd_counter m + 1)%Z.
Proof.
  intros Hfresh Ho Hfd.
  destruct (open_spec m m1 file fd Hfresh Ho)
    as [Hfresh1 [[-> _] | (-> & _ & Hcnt & Hnone & (fe & Hl & Hfe & Hfind & _) & _)]];
    [done|].
  destruct (close_spec m1 (fd_counter m) fe Hfresh1 Hfind)
    as (m2 & Hc & _ & Hl2 & _ & _ & _ & Hcnt2 & _).
  exists m2. split; [done|]. split; [|lia].
  rewrite Hl2, Hl, <- Hfe. apply list_remove_last. by rewrite Hfe.
Qed.

(** ** [strlen] *)

Lemma strlen_from_found (fuel : nat) (mem : Z → option Byte.byte) (s k n : Z) :
  (k ≤ n)%Z → (n - k < Z.of_nat fuel)%Z →
  (∀ j, (k ≤ j < n)%Z →
        ∃ b, mem (to_unsigned (s + j)) = Some b ∧ byte_val b ≠ 0%Z) →
  (∃ b, mem (to_unsigned (s + n)) = Some b ∧ byte_val b = 0%Z) →
  strlen_from fuel mem s k = Some n.
Proof.
  revert k. induction fuel as [|fuel IH]; intros k Hk Hfuel Hbody Hend; [lia|].
  simpl. destruct (decide (k = n)) as [->|Hne].
  - destruct Hend as (b & -> & Hb). by rewrite bool_decide_eq_true_2.
  - destruct (Hbody k ltac:(lia)) as (b & -> & Hb).
    rewrite bool_decide_eq_false_2 by done.
    apply IH; [lia | lia | | done].
    intros j Hj. apply Hbody. lia.
Qed.

Lemma strlen_spec (w : world) (s n : Z) :
  (0 ≤ n < 2 ^ 32)%Z →
  (∀ j, (0 ≤ j < n)%Z →
        ∃ b, u_mem w (to_unsigned (s + j)) = Some b ∧ byte_val b ≠ 0%Z) →
  (∃ b, u_mem w (to_unsigned (s + n)) = Some b ∧ byte_val b = 0%Z) →
  strlen s w = (w, Ok n).
Proof.
  intros Hn Hbody Hend. unfold strlen.
  rewrite (strlen_from_found _ (u_mem w) s 0 n); [done | lia | | done | done].
  rewrite Z2Nat.id by lia. lia.
Qed.

Lemma demo_machine_fresh (words : list Z) : fds_fresh (demo_machine words).
Proof.
  split; [done|]. split.
  - repeat constructor; simpl; lia.
  - simpl. apply NoDup_cons. split; [|apply NoDup_singleton].
    by intros [=]%list_elem_of_singleton.
Qed.

Lemma strlen_demo : strlen demo_esp (demo_world [2%Z]) = (demo_world [2%Z], Ok 1%Z).
Proof.
  apply strlen_spec; [lia | |].
  - intros j Hj. assert (j = 0%Z) as -> by lia. eexists. split; [reflexivity|].
    by vm_compute.
  - eexists. split; [reflexivity|]. by vm_compute.
Qed.

Lemma open_demo :
  (@open plain_filesys demo_esp (demo_machine [2%Z])).2 = Ok 4%Z.
Proof.
  unfold open. rewrite bool_decide_eq_false_2 by (by vm_compute).
  unfold ksys_bind at 1.
  rewrite (lift_ok _ (demo_machine [2%Z]) 1%Z strlen_demo).
  reflexivity.
Qed.

(** [open] in [demo_world] on the name at [demo_esp], which stands for
    the plain file in sector 2: the descriptor is 4. *)
Lemma open_gives_fresh_descriptor_witness :
  (@open plain_filesys demo_esp (demo_machine [2%Z])).2 = Ok 4%Z
  ∧ ∃ m' fd,
      @open plain_filesys demo_esp (demo_machine [2%Z]) = (m', Ok fd)
      ∧ fds_fresh m'
      ∧ ((fd = (-1)%Z
          ∧ t_files (m_world m') = t_files (m_world (demo_machine [2%Z]))
          ∧ fd_counter m' = fd_counter (demo_machine [2%Z]))
         ∨ (fd = fd_counter (demo_machine [2%Z]) ∧ (2 ≤ fd)%Z
            ∧ fd_counter m' = (fd + 1)%Z
            ∧ find_file_elem (m_world (demo_machine [2%Z])) fd = None
            ∧ (∃ fe, t_files (m_world m')
                     = t_files (m_world (demo_machine [2%Z])) ++ [fe]
                     ∧ fe_fd fe = fd
                     ∧ find_file_elem (m_world m') fd = Some fe
                     ∧ inode_is_dir (w_fs (m_world m'))
                         (if fe_isdir fe then d_inode (fe_dir fe)
                          else f_inode (fe_file fe))
                       = fe_isdir fe)
            ∧ ∀ fd', fd' ≠ fd →
                     find_file_elem (m_world m') fd'
                     = find_file_elem (m_world (demo_machine [2%Z])) fd')).
Proof.
  split; [apply open_demo|].
  apply (@open_gives_fresh_descriptor plain_filesys (demo_machine [2%Z])
           demo_esp).
  - apply demo_machine_fresh.
  - by vm_compute.
  - right. exists 1%Z. apply strlen_demo.
Defined.

(** [close] on descriptor 2 of [demo_world]. *)
Lemma close_forgets_descriptor_witness :
  ∃ m',
    @close plain_filesys 2 (demo_machine []) = (m', Ok ())
    ∧ fds_fresh m'
    ∧ find_file_elem (m_world m') 2 = None
    ∧ (∀ fd', fd' ≠ 2%Z →
              find_file_elem (m_world m') fd'
              = find_file_elem (m_world (demo_machine [])) fd')
    ∧ S (length (t_files (m_world m')))
      = length (t_files (m_world (demo_machine [])))
    ∧ ∀ file m'' fd', @open plain_filesys file m' = (m'', Ok fd') →
                      fd' = (-1)%Z ∨ (2 < fd')%Z.
Proof.
  apply (@close_forgets_descriptor plain_filesys (demo_machine []) 2%Z
           (mk_file_elem 2 true root_dir (mk_file 0 0))).
  - apply demo_machine_fresh.
  - reflexivity.
Defined.

(** The descriptor 4 of the [open] above, closed again. *)
Lemma open_close_roundtrip_witness :
  ∃ m2, @close plain_filesys 4
          (@open plain_filesys demo_esp (demo_machine [2%Z])).1 = (m2, Ok ())
        ∧ t_files (m_world m2) = t_files (m_world (demo_machine [2%Z]))
        ∧ fd_counter m2 = (fd_counter (demo_machine [2%Z]) + 1)%Z.
Proof.
  apply (@open_close_roundtrip plain_filesys (demo_machine [2%Z])
           (@open plain_filesys demo_esp (demo_machine [2%Z])).1 demo_esp 4%Z).
  - apply demo_machine_fresh.
  - rewrite <- open_demo. apply surjective_pairing.
  - discriminate.
Defined.

(** ** [read] from the keyboard *)

Lemma read_keys_spec `{Kernel} `{Filesys} (todo : nat) (buffer i : Z) (m : machine) :
  (0 ≤ buffer + i)%Z →
  (buffer + i + Z.of_nat todo ≤ PHYS_BASE)%Z → (PHYS_BASE ≤ 2 ^ 32)%Z →
  (∀ k, (i ≤ k < i + Z.of_nat todo)%Z → mapped (m_world m) (buffer + k) = true) →
  ∃ mem',
    read_keys todo buffer i m
    = (mk_machine (set_mem mem' (m_world m)) (t_cwd m) (fd_counter m)
         (keys_taken m + todo), Ok ())
    ∧ (∀ k, (i ≤ k < i + Z.of_nat todo)%Z →
            mem' (buffer + k)%Z
            = Some (input_getc (keys_taken m + Z.to_nat (k - i))))
    ∧ (∀ a, ¬ (buffer + i ≤ a < buffer + i + Z.of_nat todo)%Z →
            mem' a = u_mem (m_world m) a).
Proof.
  revert i m. induction todo as [|todo IH]; intros i m Hlo Hhi Hbase Hmap.
  - exists (u_mem (m_world m)). simpl. unfold ksys_ret.
    rewrite Nat.add_0_r. split; [by destruct m as [[]]|]. split; [lia | done].
  - simpl. unfold ksys_bind, lift, store_byte, is_user_vaddr.
    rewrite to_unsigned_small by lia.
    rewrite bool_decide_eq_true_2 by lia. simpl.
    rewrite (Hmap i) by lia. simpl.
    set (m1 := set_world _ _).
    destruct (IH (i + 1)%Z m1) as (mem' & Hr & Hin & Hout); [lia | lia | done | |].
    { intros k Hk. unfold m1, mapped. simpl.
      rewrite (bool_decide_eq_false_2 (_ = _)) by lia. apply (Hmap k). lia. }
    exists mem'. rewrite Hr. split; [|split].
    + unfold m1. simpl. do 2 f_equal. lia.
    + intros k Hk. destruct (decide (k = i)) as [->|Hne].
      * rewrite Hout by lia. unfold m1. simpl.
        rewrite bool_decide_eq_true_2 by done.
        replace (Z.to_nat (i - i)) with 0 by lia. do 2 f_equal. lia.
      * rewrite Hin by lia. unfold m1. simpl. do 2 f_equal.
        replace (k - i)%Z with (Z.succ (k - (i + 1))) by lia.
        rewrite Z2Nat.inj_succ by lia. lia.
    + intros a Ha. rewrite Hout by lia. unfold m1. simpl.
      rewrite bool_decide_eq_false_2 by lia. done.
Qed.

(** [read] on descriptor 0 with a buffer of mapped user memory that
    ends below [PHYS_BASE]: it returns the length, as an [int]; the
    buffer holds the next [length] keys of the keyboard, in order; that
    many keys are taken; and the rest of the memory, the file system
    and the descriptors are as they were. *)
Theorem read_stdin_fills_buffer `{Kernel} `{Filesys} (m : machine)
    (buffer length : Z) :
  (0 ≤ buffer)%Z → (0 ≤ length)%Z →
  (buffer + length < PHYS_BASE)%Z → (PHYS_BASE ≤ 2 ^ 32)%Z →
  (∀ k, (0 ≤ k < length)%Z → mapped (m_world m) (buffer + k) = true) →
  ∃ m',
    read 0 buffer length m = (m', Ok (to_int length))
    ∧ (∀ k, (0 ≤ k < length)%Z →
            u_mem (m_world m') (buffer + k)
            = Some (input_getc (keys_taken m + Z.to_nat k)))
    ∧ (∀ a, ¬ (buffer ≤ a < buffer + length)%Z →
            u_mem (m_world m') a = u_mem (m_world m) a)
    ∧ keys_taken m' = keys_taken m + Z.to_nat length
    ∧ w_fs (m_world m') = w_fs (m_world m)
    ∧ t_files (m_world m') = t_files (m_world m)
    ∧ console (m_world m') = console (m_world m)
    ∧ fd_counter m' = fd_counter m.
Proof.
  intros Hbuf Hlen Hend Hbase Hmap. unfold read, is_user_vaddr.
  rewrite to_unsigned_small by lia.
  rewrite !bool_decide_eq_true_2 by lia. simpl.
  destruct (read_keys_spec (Z.to_nat length) buffer 0 m)
    as (mem' & Hr & Hin & Hout); [lia | lia | done | |].
  { intros k Hk. apply Hmap. lia. }
  unfold ksys_bind. rewrite Hr. eexists. split; [reflexivity|]. simpl.
  split; [|split; [|done]].
  - intros k Hk. rewrite Hin by lia. do 3 f_equal. lia.
  - intros a Ha. apply Hout. lia.
Qed.

(** Three keys read into the buffer of [demo_world]. *)
Lemma read_stdin_fills_buffer_witness :
  ∃ m',
    @read plain_kernel plain_filesys 0 demo_buf 3 (demo_machine [])
    = (m', Ok (to_int 3))
    ∧ (∀ k, (0 ≤ k < 3)%Z →
            u_mem (m_world m') (demo_buf + k)
            = Some (@input_getc plain_filesys
                      (keys_taken (demo_machine []) + Z.to_nat k)))
    ∧ (∀ a, ¬ (demo_buf ≤ a < demo_buf + 3)%Z →
            u_mem (m_world m') a = u_mem (m_world (demo_machine [])) a)
    ∧ keys_taken m' = keys_taken (demo_machine []) + Z.to_nat 3
    ∧ w_fs (m_world m') = w_fs (m_world (demo_machine []))
    ∧ t_files (m_world m') = t_files (m_world (demo_machine []))
    ∧ console (m_world m') = console (m_world (demo_machine []))
    ∧ fd_counter m' = fd_counter (demo_machine []).
Proof.
  apply (@read_stdin_fills_buffer plain_kernel plain_filesys (demo_machine [])
           demo_buf 3%Z).
  - by vm_compute.
  - lia.
  - by vm_compute.
  - by vm_compute.
  - intros k Hk. unfold mapped. apply bool_decide_eq_true_2.
    simpl. unfold demo_mem.
    rewrite bool_decide_eq_false_2 by (unfold demo_esp, demo_buf; lia).
    rewrite bool_decide_eq_true_2 by (unfold demo_buf; lia). by eexists.
Defined.

(** ** A descriptor after [close] *)

Lemma read_keys_never_exits `{Kernel} `{Filesys} (todo : nat) (buffer i : Z)
    (m : machine) (s : Z) :
  (read_keys todo buffer i m).2 ≠ Exit s.
Proof.
  revert i m. induction todo as [|todo IH]; intros i m; [done|].
  simpl. unfold ksys_bind, lift, store_byte.
  destruct (is_user_vaddr _ && mapped _ _); [apply IH | done].
Qed.

(** [read] never ends the process, whatever it is called with; and
    with a buffer that does not start and end below [PHYS_BASE] it
    returns -1 and nothing has changed. *)
Theorem read_never_exits `{Kernel} `{Filesys} (m : machine)
    (fd buffer length : Z) :
  (∀ s, (read fd buffer length m).2 ≠ Exit s)
  ∧ ((PHYS_BASE ≤ buffer)%Z ∨ (PHYS_BASE ≤ to_unsigned (buffer + length))%Z →
     read fd buffer length m = (m, Ok (-1)%Z)).
Proof.
  unfold read, is_user_vaddr. split.
  - intros s.
    destruct (negb _ || negb _); [done|].
    case_bool_decide; [|case_bool_decide; [done|]].
    + unfold ksys_bind.
      pose proof (read_keys_never_exits (Z.to_nat length) buffer 0 m s) as Hk.
      destruct (read_keys _ _ _ _) as [m1 [[]|s0|]]; simpl in *.
      * intros Heq. discriminate Heq.
      * intros [= ->]. by apply Hk.
      * intros Heq. discriminate Heq.
    + destruct (find_file_elem _ _); [|done].
      by destruct (file_read _ _ _ _ _) as [[? ?] ?].
  - intros Hbad.
    assert (negb (bool_decide (buffer < PHYS_BASE)%Z)
            || negb (bool_decide (to_unsigned (buffer + length) < PHYS_BASE)%Z)
            = true) as ->; [|done].
    apply orb_true_iff.
    destruct Hbad; [left | right]; by rewrite bool_decide_eq_false_2 by lia.
Qed.

(** After [close] has returned for a descriptor of the thread, every
    call on that descriptor fails: [close], [filesize], [seek], [tell]
    and [write] end the process through [exit (-1)], [read] returns -1,
    and [readdir], [isdir] and [inumber] return false. *)
Theorem closed_descriptor_is_dead `{Storage} `{Kernel} `{Filesys} (m : machine)
    (fd : Z) (fe : file_elem) :
  fds_fresh m →
  find_file_elem (m_world m) fd = Some fe →
  let m' := (close fd m).1 in
  (close fd m).2 = Ok ()
  ∧ close fd m' = lift (exit (-1)) m'
  ∧ filesize fd m' = lift (exit (-1)) m'
  ∧ (∀ position, seek fd position m' = lift (exit (-1)) m')
  ∧ tell fd m' = lift (exit (-1)) m'
  ∧ (∀ buffer length,
       write fd buffer length (m_world m') = exit (-1) (m_world m'))
  ∧ (∀ buffer length, read fd buffer length m' = (m', Ok (-1)%Z))
  ∧ (∀ name, readdir fd name (m_world m') = (m_world m', Ok false))
  ∧ isdir fd (m_world m') = (m_world m', Ok false)
  ∧ inumber fd (m_world m') = (m_world m', Ok false).
Proof.
  intros Hfresh Hfind m'.
  destruct (close_spec m fd fe Hfresh Hfind)
    as (m1 & Hc & _ & _ & Hgone & _).
  assert (Hfd : (2 ≤ fd)%Z).
  { destruct Hfresh as (_ & Hall & _).
    destruct (find_file_elem_in_Some _ _ _ Hfind) as [Hin <-].
    rewrite Forall_forall in Hall. specialize (Hall fe Hin). lia. }
  unfold m'. rewrite Hc. simpl. clear m'.
  split; [done|].
  split; [unfold close; by rewrite Hgone|].
  split; [unfold filesize; by rewrite Hgone|].
  split; [intros position; unfold seek; by rewrite Hgone|].
  split; [unfold tell; by rewrite Hgone|].
  split.
  { intros buffer length. unfold write.
    rewrite !bool_decide_eq_false_2 by lia. by rewrite Hgone. }
  split.
  { intros buffer length. unfold read.
    destruct (negb _ || negb _); [done|].
    rewrite !bool_decide_eq_false_2 by lia. by rewrite Hgone. }
  split; [intros name; unfold readdir; by rewrite Hgone|].
  split; [unfold isdir; by rewrite Hgone|].
  unfold inumber. by rewrite Hgone.
Qed.

(** Descriptor 3 of [demo_world], closed. *)
Lemma closed_descriptor_is_dead_witness :
  let m' := (@close plain_filesys 3 (demo_machine [])).1 in
  (@close plain_filesys 3 (demo_machine [])).2 = Ok ()
  ∧ @close plain_filesys 3 m' = lift (exit (-1)) m'
  ∧ @filesize plain_filesys 3 m' = lift (exit (-1)) m'
  ∧ (∀ position, @seek plain_filesys 3 position m' = lift (exit (-1)) m')
  ∧ @tell plain_filesys 3 m' = lift (exit (-1)) m'
  ∧ (∀ buffer length,
       @write plain_kernel 3 buffer length (m_world m') = exit (-1) (m_world m'))
  ∧ (∀ buffer length,
       @read plain_kernel plain_filesys 3 buffer length m' = (m', Ok (-1)%Z))
  ∧ (∀ name, @readdir plain_storage 3 name (m_world m') = (m_world m', Ok false))
  ∧ isdir 3 (m_world m') = (m_world m', Ok false)
  ∧ inumber 3 (m_world m') = (m_world m', Ok false).
Proof.
  apply (@closed_descriptor_is_dead plain_storage plain_kernel plain_filesys
           (demo_machine []) 3%Z (mk_file_elem 3 false (mk_dir 0 0) (mk_file 2 0))).
  - apply demo_machine_fresh.
  - reflexivity.
Defined.

(** ** The arguments of the cases of [syscall_handler] *)

Lemma lift_exit {A} (m : machine) (status : Z) :
  (@lift A (exit status) m).2 = Exit status
  ∧ t_exit_status (m_world (@lift A (exit status) m).1) = status
  ∧ console (m_world (@lift A (exit status) m).1)
    = console (m_world m) ++ [ExitLine (t_name (m_world m)) status]
  ∧ w_fs (m_world (@lift A (exit status) m).1) = w_fs (m_world m)
  ∧ t_files (m_world (@lift A (exit status) m).1) = t_files (m_world m)
  ∧ t_cwd (@lift A (exit status) m).1 = t_cwd m.
Proof. done. Qed.

(** The cases [SYS_CREATE], [SYS_REMOVE], [SYS_OPEN], [SYS_CHDIR] and
    [SYS_MKDIR] take the address of a name from the first slot above
    the stack pointer.  When that address is null, not below
    [PHYS_BASE] or not mapped, the process ends through [exit (-1)]
    before anything else is done: the file system, the descriptors and
    the working directory are as they were.  The slot itself is read
    unchecked, which is a fault of the kernel when it is not mapped. *)
Theorem name_argument_is_checked `{Kernel} `{Filesys} (nr : syscall_nr)
    (esp : Z) (c : ksys Z) (m : machine) :
  nr ∈ [SYS_CREATE; SYS_REMOVE; SYS_OPEN; SYS_CHDIR; SYS_MKDIR] →
  file_call nr esp = Some c →
  (∀ name, load_word (slot esp 1) (m_world m) = (m_world m, Ok name) →
           ¬ valid_address (m_world m) name →
           (c m).2 = Exit (-1)
           ∧ console (m_world (c m).1)
             = console (m_world m) ++ [ExitLine (t_name (m_world m)) (-1)]
           ∧ w_fs (m_world (c m).1) = w_fs (m_world m)
           ∧ t_files (m_world (c m).1) = t_files (m_world m)
           ∧ t_cwd (c m).1 = t_cwd m)
  ∧ (bytes_at (m_world m) (slot esp 1) 4 = None → c m = (m, Undef)).
Proof.
  intros Hnr Hc. split.
  - intros name Hname Hbad.
    assert (Hexit : c m = lift (exit (-1)) m).
    { repeat (apply elem_of_cons in Hnr as [-> | Hnr]);
        [..|by apply elem_of_nil in Hnr];
        injection Hc as <-; unfold ksys_bind;
        rewrite (lift_ok _ m name Hname); unfold lift at 1;
        by rewrite (check_valid_address_bad _ _ Hbad). }
    rewrite Hexit. pose proof (@lift_exit Z m (-1)) as Hl. tauto.
  - intros Hslot.
    assert (Hload : lift (load_word (slot esp 1)) m = (m, Undef)).
    { unfold lift, load_word. rewrite Hslot. by rewrite set_world_same. }
    repeat (apply elem_of_cons in Hnr as [-> | Hnr]);
      [..|by apply elem_of_nil in Hnr];
      injection Hc as <-; unfold ksys_bind; by rewrite Hload.
Qed.

(** [SYS_OPEN] in [demo_world] with the null pointer as name. *)
Lemma name_argument_is_checked_witness :
  ∃ c, @file_call plain_kernel plain_filesys SYS_OPEN demo_esp = Some c
       ∧ (c (demo_machine [6; 0]%Z)).2 = Exit (-1)
       ∧ console (m_world (c (demo_machine [6; 0]%Z)).1)
         = console (m_world (demo_machine [6; 0]%Z)) ++ [ExitLine "main" (-1)]
       ∧ w_fs (m_world (c (demo_machine [6; 0]%Z)).1) = demo_fs
       ∧ t_files (m_world (c (demo_machine [6; 0]%Z)).1)
         = t_files (m_world (demo_machine [6; 0]%Z))
       ∧ t_cwd (c (demo_machine [6; 0]%Z)).1 = None.
Proof.
  eexists. split; [reflexivity|].
  refine (proj1 (@name_argument_is_checked plain_kernel plain_filesys SYS_OPEN
                   demo_esp _ (demo_machine [6; 0]%Z) _ eq_refl) 0%Z _ _).
  - do 2 right. by left.
  - reflexivity.
  - intros (Hnz & _). done.
Defined.

(** ** Empty names *)

(** On a name whose first byte is the terminator, [open] returns -1 and
    [mkdir] returns false, and nothing has changed: the file system is
    not asked. *)
Theorem empty_name_is_refused `{Filesys} (m : machine) (name : Z) (b : Byte.byte) :
  (0 ≤ name < 2 ^ 32)%Z →
  u_mem (m_world m) name = Some b → byte_val b = 0%Z →
  open name m = (m, Ok (-1)%Z) ∧ mkdir name m = (m, Ok false).
Proof.
  intros Hname Hb Hz. split.
  - unfold open. case_bool_decide; [done|]. unfold ksys_bind.
    rewrite (lift_ok _ m 0%Z); [done|].
    apply strlen_spec; [lia | lia |].
    exists b. rewrite Z.add_0_r, to_unsigned_small by lia. done.
  - unfold mkdir, ksys_bind.
    rewrite (lift_ok _ m b); [by rewrite bool_decide_eq_true_2|].
    unfold load_byte. by rewrite Hb.
Qed.

(** The buffer of [demo_world] holds zeros. *)
Lemma empty_name_is_refused_witness :
  @open plain_filesys demo_buf (demo_machine []) = (demo_machine [], Ok (-1)%Z)
  ∧ @mkdir plain_filesys demo_buf (demo_machine []) = (demo_machine [], Ok false).
Proof.
  apply (@empty_name_is_refused plain_filesys (demo_machine []) demo_buf Byte.x00).
  - by vm_compute.
  - reflexivity.
  - reflexivity.
Defined.

(** * Handles *)

(** [dir_reopen] and [dir_open_root] take a reference on the inode and
    ask [calloc] for a handle.  With the memory, the handle is at
    position 0 and holds that one more reference, every other inode
    being untouched; when the inode was held before, closing the
    handle gives the state back as it was.  Without the memory, the
    null pointer is returned and the reference is given back: for an
    inode that was held the state is as it was.  [dir_open_root]
    returns the null pointer and changes nothing when the root sector
    holds no inode. *)
Theorem dir_handle_roundtrip `{Malloc} (st : gmap N inode) :
  (∀ d, held st (d_inode d) →
     if calloc_ok (inode_open st (d_inode d)).1
     then ∃ st1, dir_reopen st d = (st1, Some (mk_dir (d_inode d) 0))
                 ∧ inode_get_open_cnt st1 (d_inode d)
                   = S (inode_get_open_cnt st (d_inode d))
                 ∧ (∀ x, x ≠ d_inode d → st1 !! x = st !! x)
                 ∧ dir_close st1 (Some (mk_dir (d_inode d) 0)) = st
     else dir_reopen st d = (st, None))
  ∧ (is_Some (st !! ROOT_DIR_SECTOR) →
     if calloc_ok (inode_open st ROOT_DIR_SECTOR).1
     then ∃ st1, dir_open_root st = (st1, Some (mk_dir ROOT_DIR_SECTOR 0))
                 ∧ inode_get_open_cnt st1 ROOT_DIR_SECTOR
                   = S (inode_get_open_cnt st ROOT_DIR_SECTOR)
                 ∧ (∀ x, x ≠ ROOT_DIR_SECTOR → st1 !! x = st !! x)
                 ∧ (held st ROOT_DIR_SECTOR →
                    dir_close st1 (Some (mk_dir ROOT_DIR_SECTOR 0)) = st)
     else (dir_open_root st).2 = None
          ∧ body <$> (dir_open_root st).1 = body <$> st
          ∧ (held st ROOT_DIR_SECTOR → (dir_open_root st).1 = st))
  ∧ (st !! ROOT_DIR_SECTOR = None → dir_open_root st = (st, None)).
Proof.
  assert (Hopen : ∀ s, is_Some (st !! s) →
    inode_open st s = ((inode_open st s).1, Some s)
    ∧ inode_get_open_cnt (inode_open st s).1 s = S (inode_get_open_cnt st s)
    ∧ ∀ x, x ≠ s → (inode_open st s).1 !! x = st !! x).
  { intros s [i Hi]. pose proof (inode_open_result st s) as Hres.
    rewrite Hi in Hres. split; [|split].
    - rewrite <- Hres. by destruct (inode_open st s).
    - rewrite (inode_open_cnt st s i Hi). unfold inode_get_open_cnt.
      by rewrite Hi.
    - intros x Hx. by apply inode_open_lookup_ne. }
  split; [|split].
  - intros d Hh. destruct (Hopen (d_inode d)) as (Ho & Hc & Hx).
    { destruct Hh as (i & -> & _). done. }
    unfold dir_reopen, dir_open. rewrite inode_reopen_open, Ho by done.
    simpl. destruct (calloc_ok _).
    + exists (inode_open st (d_inode d)).1.
      split; [done|]. split; [done|]. split; [done|]. by apply open_close_id.
    + by rewrite open_close_id.
  - intros Hroot. destruct (Hopen _ Hroot) as (Ho & Hc & Hx).
    unfold dir_open_root, dir_open. rewrite Ho. simpl.
    destruct (calloc_ok _).
    + exists (inode_open st ROOT_DIR_SECTOR).1.
      split; [done|]. split; [done|]. split; [done|]. by apply open_close_id.
    + simpl. split; [done|]. split; [|by apply open_close_id].
      rewrite inode_close_body by (by apply inode_open_held).
      apply inode_open_body.
  - intros Hroot. unfold dir_open_root.
    by rewrite (inode_open_absent st _ Hroot).
Qed.
